(** * ExceptionGroup: a shallow embedding of [exceptiongroup/__init__.py]

    The class [ExceptionGroup] is a Python exception that carries a list of
    child exceptions and a parallel list of source labels.  Python objects
    have identity and are mutable, and the class copies lists, allocates new
    instances and writes the magic attributes of exceptions, so the embedding
    is over an explicit store: a finite map from locations to objects,
    threaded through a small state-and-error monad.

    Embedded: [__init__], [__bool__], [__contains__], [__copy__],
    [__iter__], [__len__], [_copy_magic_attrs], [add], [find], [findall],
    [maybe_reraise] and [remove], with the builtins they call ([list],
    [isinstance], [list.index], [in], [==], attribute access, [raise ...
    from], [sys.exc_info]); [__str__] and [__repr__] over the [repr] of the
    host, which is a parameter.  The [__eq__] methods that the classes of
    the children may define, which [in] and [list.index] call, are a
    component of the store.  Left out: the submodules [_monkeypatch] and
    [_tools]. *)

From Stdlib Require Import ZArith.
From stdpp Require Import gmap strings list fin_maps.

Open Scope string_scope.
Open Scope list_scope.

(** ** Values and objects *)

Definition loc := positive.
Bind Scope positive_scope with loc.

(** Immutable scalars are values; everything with identity lives in the
    store and is denoted by a reference. *)
Inductive value :=
  | VNone
  | VBool (b : bool)
  | VInt (n : Z)
  | VStr (s : string)
  | VRef (l : loc).

Arguments VRef l%_positive.

#[global] Instance value_eq_dec : EqDecision value.
Proof. solve_decision. Defined.

(** Classes.  The builtin part of the hierarchy that the module and its
    tests mention, and user classes with single inheritance. *)
Inductive cls :=
  | object_
  | NoneType
  | int_
  | bool_
  | str_
  | list_
  | BaseException
  | KeyboardInterrupt
  | Exception
  | ArithmeticError
  | ZeroDivisionError
  | LookupError
  | KeyError
  | IndexError
  | AttributeError
  | RuntimeError
  | TypeError
  | ValueError
  | ExceptionGroupClass
  | UserClass (name : string) (base : cls).

#[global] Instance cls_eq_dec : EqDecision cls.
Proof. solve_decision. Defined.

(** Method resolution order: the class followed by its ancestors. *)
Fixpoint mro (c : cls) : list cls :=
  match c with
  | object_ => [object_]
  | NoneType => [NoneType; object_]
  | int_ => [int_; object_]
  | bool_ => [bool_; int_; object_]
  | str_ => [str_; object_]
  | list_ => [list_; object_]
  | BaseException => [BaseException; object_]
  | KeyboardInterrupt => [KeyboardInterrupt; BaseException; object_]
  | Exception => [Exception; BaseException; object_]
  | ArithmeticError => [ArithmeticError; Exception; BaseException; object_]
  | ZeroDivisionError =>
      [ZeroDivisionError; ArithmeticError; Exception; BaseException; object_]
  | LookupError => [LookupError; Exception; BaseException; object_]
  | KeyError => [KeyError; LookupError; Exception; BaseException; object_]
  | IndexError => [IndexError; LookupError; Exception; BaseException; object_]
  | AttributeError => [AttributeError; Exception; BaseException; object_]
  | RuntimeError => [RuntimeError; Exception; BaseException; object_]
  | TypeError => [TypeError; Exception; BaseException; object_]
  | ValueError => [ValueError; Exception; BaseException; object_]
  | ExceptionGroupClass => [ExceptionGroupClass; BaseException; object_]
  | UserClass n b => UserClass n b :: mro b
  end.

Definition issubclass (c d : cls) : bool := bool_decide (d ∈ mro c).

(** The second argument of [isinstance]: a type, or a tuple of such
    descriptors (tuples may nest). *)
#[warning="-register-all"]
Inductive kind :=
  | KType (c : cls)
  | KTuple (ks : list kind).

Fixpoint class_in_kind (c : cls) (k : kind) : bool :=
  match k with
  | KType d => issubclass c d
  | KTuple ks => existsb (class_in_kind c) ks
  end.

(** Traceback objects are only passed along by this module. *)
Definition traceback := nat.

(** An instance of [BaseException] or of a subclass: the slots that
    [BaseException] defines, and the instance dictionary. *)
Record exc_obj := ExcObj {
  o_class : cls;
  o_args : list value;
  o_traceback : option traceback;
  o_context : option loc;
  o_cause : option loc;
  o_suppress_context : bool;
  o_dict : gmap string value
}.

Inductive object :=
  | OList (items : list value)
  | OExc (o : exc_obj).

(** The store, the exception being handled by the enclosing [except]
    block, which [sys.exc_info()[1]] reads, and the [__eq__] methods of
    the exception classes of the program: [user_eq a b] is what they
    answer for [a == b] on two exception objects, [None] when neither
    class answers ([NotImplemented], or [object.__eq__] inherited, as for
    the builtin exceptions).  The methods are taken to be pure functions
    of the two objects; no operation of the module changes them. *)
Record state := State {
  heap : gmap loc object;
  exc_info : option loc;
  user_eq : exc_obj → exc_obj → option bool
}.

Definition type_of (σ : state) (v : value) : option cls :=
  match v with
  | VNone => Some NoneType
  | VBool _ => Some bool_
  | VInt _ => Some int_
  | VStr _ => Some str_
  | VRef l =>
      match heap σ !! l with
      | Some (OList _) => Some list_
      | Some (OExc o) => Some (o_class o)
      | None => None
      end
  end.

Definition isinstance (σ : state) (v : value) (k : kind) : bool :=
  match type_of σ v with
  | Some c => class_in_kind c k
  | None => false
  end.

(** ** Failures *)

(** Exceptions created by the module or by the builtins it calls are kept
    as data: the class is [error_class], the constructor arguments are the
    values that the message is formatted from.  [Propagating e] is the
    raise of an exception object that already exists in the store. *)
Inductive error :=
  | TypeError_expected_exception (exc : value)
  | ValueError_different_number (n_sources n_exceptions : nat)
  | ValueError_not_contained (exception : value) (group : loc)
  | ValueError_not_in_list (x : value)
  | IndexError_list_index
  | AttributeError_no_attribute (obj : loc) (name : string)
  | TypeError_not_iterable (v : value)
  | TypeError_exceptions_must_derive
  | TypeError_causes_must_derive
  | Propagating (e : loc).

Definition error_class (σ : state) (e : error) : option cls :=
  match e with
  | TypeError_expected_exception _ => Some TypeError
  | ValueError_different_number _ _ => Some ValueError
  | ValueError_not_contained _ _ => Some ValueError
  | ValueError_not_in_list _ => Some ValueError
  | IndexError_list_index => Some IndexError
  | AttributeError_no_attribute _ _ => Some AttributeError
  | TypeError_not_iterable _ => Some TypeError
  | TypeError_exceptions_must_derive => Some TypeError
  | TypeError_causes_must_derive => Some TypeError
  | Propagating l => type_of σ (VRef l)
  end.

(** [Unsupported] marks a call that leaves the embedded fragment of
    Python (an attribute that holds something other than a list object,
    elementwise comparison of two list objects, iteration over a string). *)
Inductive outcome (A : Type) :=
  | Normal (a : A)
  | Raised (e : error)
  | Unsupported.
Arguments Normal {A} a.
Arguments Raised {A} e.
Arguments Unsupported {A}.

(** ** The monad *)

Definition M (A : Type) : Type := state → outcome A * state.

Definition ret {A} (a : A) : M A := λ σ, (Normal a, σ).

Definition bind {A B} (m : M A) (k : A → M B) : M B :=
  λ σ, match m σ with
       | (Normal a, σ') => k a σ'
       | (Raised e, σ') => (Raised e, σ')
       | (Unsupported, σ') => (Unsupported, σ')
       end.

Definition raise {A} (e : error) : M A := λ σ, (Raised e, σ).

Definition unsupported {A} : M A := λ σ, (Unsupported, σ).

(** [try: m except c: h] *)
Definition try_except {A} (m : M A) (c : cls) (h : M A) : M A :=
  λ σ, match m σ with
       | (Raised e, σ') =>
           match error_class σ' e with
           | Some d => if issubclass d c then h σ' else (Raised e, σ')
           | None => (Raised e, σ')
           end
       | r => r
       end.

Notation "'let*' x ':=' m 'in' k" := (bind m (λ x, k))
  (at level 10, x name, m at level 100, k at level 200,
   format "'[v' 'let*'  x  ':='  m  'in' '/' k ']'").

Definition read_state : M state := λ σ, (Normal σ, σ).

(** The store with the object at [l] set to [o]. *)
Definition upd (l : loc) (o : object) (σ : state) : state :=
  State (<[l := o]> (heap σ)) (exc_info σ) (user_eq σ).

Definition fresh_loc (σ : state) : loc := fresh (dom (heap σ)).

Definition alloc (o : object) : M loc :=
  λ σ, let l := fresh_loc σ in (Normal l, upd l o σ).

(** The object behind [self]; methods are only called on exception
    instances. *)
Definition load_exc (l : loc) : M exc_obj :=
  λ σ, match heap σ !! l with
       | Some (OExc o) => (Normal o, σ)
       | _ => (Unsupported, σ)
       end.

Definition store_exc (l : loc) (o : exc_obj) : M unit :=
  λ σ, (Normal tt, upd l (OExc o) σ).

Definition getattr (self : loc) (name : string) : M value :=
  let* o := load_exc self in
  match o_dict o !! name with
  | Some v => ret v
  | None => raise (AttributeError_no_attribute self name)
  end.

Definition setattr (self : loc) (name : string) (v : value) : M unit :=
  let* o := load_exc self in
  store_exc self
    (ExcObj (o_class o) (o_args o) (o_traceback o) (o_context o) (o_cause o)
            (o_suppress_context o) (<[name := v]> (o_dict o))).

(** The items of a list object. *)
Definition items_of (v : value) : M (list value) :=
  λ σ, match v with
       | VRef l =>
           match heap σ !! l with
           | Some (OList xs) => (Normal xs, σ)
           | _ => (Unsupported, σ)
           end
       | _ => (Unsupported, σ)
       end.

(** A list display [[...]]: a new list object. *)
Definition new_list (xs : list value) : M value :=
  let* l := alloc (OList xs) in ret (VRef l).

(** [list(v)]: a new list object with the items of [v]. *)
Definition py_list (v : value) : M value :=
  match v with
  | VNone | VBool _ | VInt _ => raise (TypeError_not_iterable v)
  | VStr _ => unsupported
  | VRef _ => let* xs := items_of v in new_list xs
  end.

(** ** Builtins used by the class *)

Definition as_int (v : value) : option Z :=
  match v with
  | VBool b => Some (if b then 1 else 0)%Z
  | VInt n => Some n
  | _ => None
  end.

Definition is_list_object (σ : state) (l : loc) : bool :=
  match heap σ !! l with
  | Some (OList _) => true
  | _ => false
  end.

(** [v == w].  Two exception objects are compared by the [__eq__] of
    their classes ([user_eq]), and by identity when no class answers, as
    for the builtin exception classes, which inherit [object.__eq__];
    numbers compare by value with [bool] a subclass of [int].  The
    comparison of two distinct list objects goes through their items and
    is left out ([None]); an [__eq__] that answers for an operand that is
    no exception is outside the fragment. *)
Definition py_eq (σ : state) (v w : value) : option bool :=
  match v, w with
  | VRef a, VRef b =>
      match heap σ !! a, heap σ !! b with
      | Some (OExc oa), Some (OExc ob) =>
          match user_eq σ oa ob with
          | Some r => Some r
          | None => Some (bool_decide (a = b))
          end
      | _, _ =>
          if decide (a = b) then Some true
          else if is_list_object σ a && is_list_object σ b then None
          else Some false
      end
  | VNone, VNone => Some true
  | VStr s, VStr t => Some (bool_decide (s = t))
  | _, _ =>
      match as_int v, as_int w with
      | Some m, Some n => Some (bool_decide (m = n))
      | _, _ => Some false
      end
  end.

Definition eq_M (v w : value) : M bool :=
  λ σ, match py_eq σ v w with
       | Some b => (Normal b, σ)
       | None => (Unsupported, σ)
       end.

(** The test that [list.index] and [in] apply to each item:
    [item is x or item == x]. *)
Definition item_matches (σ : state) (item x : value) : option bool :=
  if decide (item = x) then Some true else py_eq σ item x.

Fixpoint index_from (σ : state) (xs : list value) (x : value) (i : nat)
  : outcome nat :=
  match xs with
  | [] => Raised (ValueError_not_in_list x)
  | item :: rest =>
      match item_matches σ item x with
      | Some true => Normal i
      | Some false => index_from σ rest x (S i)
      | None => Unsupported
      end
  end.

(** [xs.index(x)] *)
Definition list_index (xs : list value) (x : value) : M nat :=
  λ σ, (index_from σ xs x 0, σ).

Fixpoint contains_from (σ : state) (xs : list value) (x : value)
  : outcome bool :=
  match xs with
  | [] => Normal false
  | item :: rest =>
      match item_matches σ item x with
      | Some true => Normal true
      | Some false => contains_from σ rest x
      | None => Unsupported
      end
  end.

(** [x in xs] *)
Definition list_contains (xs : list value) (x : value) : M bool :=
  λ σ, (contains_from σ xs x, σ).

Fixpoint for_each {A} (xs : list A) (body : A → M unit) : M unit :=
  match xs with
  | [] => ret tt
  | x :: rest => let* _ := body x in for_each rest body
  end.

(** Writes to the slots of [BaseException].  Assigning [__cause__] also
    sets [__suppress_context__] to [True]. *)
Definition set_args (l : loc) (args : list value) : M unit :=
  let* o := load_exc l in
  store_exc l
    (ExcObj (o_class o) args (o_traceback o) (o_context o) (o_cause o)
            (o_suppress_context o) (o_dict o)).

Definition set_traceback (l : loc) (t : option traceback) : M unit :=
  let* o := load_exc l in
  store_exc l
    (ExcObj (o_class o) (o_args o) t (o_context o) (o_cause o)
            (o_suppress_context o) (o_dict o)).

Definition set_context (l : loc) (c : option loc) : M unit :=
  let* o := load_exc l in
  store_exc l
    (ExcObj (o_class o) (o_args o) (o_traceback o) c (o_cause o)
            (o_suppress_context o) (o_dict o)).

Definition set_cause (l : loc) (c : option loc) : M unit :=
  let* o := load_exc l in
  store_exc l
    (ExcObj (o_class o) (o_args o) (o_traceback o) (o_context o) c
            true (o_dict o)).

Definition set_suppress_context (l : loc) (b : bool) : M unit :=
  let* o := load_exc l in
  store_exc l
    (ExcObj (o_class o) (o_args o) (o_traceback o) (o_context o) (o_cause o)
            b (o_dict o)).

(** [sys.exc_info()[1]] *)
Definition sys_exc_info_1 : M value :=
  λ σ, (Normal (match exc_info σ with Some l => VRef l | None => VNone end),
        σ).

(** The exception being handled becomes the [__context__] of the one that
    is raised, unless they are the same object.  (The interpreter also
    cuts a context chain that would become cyclic; that walk over other
    objects is not modelled.) *)
Definition chain_context (e : loc) : M unit :=
  let* σ := read_state in
  match exc_info σ with
  | Some h => if decide (h = e) then ret tt else set_context e (Some h)
  | None => ret tt
  end.

(** [raise exc from cause]: [exc] must be an exception instance and the
    cause [None] or an exception instance, otherwise the statement raises
    a [TypeError], "exceptions must derive from BaseException" for [exc]
    and "exception causes must derive from BaseException" for the cause;
    neither message names the value.  (Python also takes an exception
    class for either; classes are not values here.)  The cause is
    assigned, the context is chained, and [exc] propagates.  The
    traceback that the propagation builds is not modelled. *)
Definition raise_from {A} (exc cause : value) : M A :=
  let* σ := read_state in
  match exc with
  | VRef e =>
      if isinstance σ exc (KType BaseException) then
        match cause with
        | VNone =>
            let* _ := set_cause e None in
            let* _ := chain_context e in
            raise (Propagating e)
        | VRef c =>
            if isinstance σ cause (KType BaseException) then
              let* _ := set_cause e (Some c) in
              let* _ := chain_context e in
              raise (Propagating e)
            else raise TypeError_causes_must_derive
        | _ => raise TypeError_causes_must_derive
        end
      else raise TypeError_exceptions_must_derive
  | _ => raise TypeError_exceptions_must_derive
  end.

(** ** The class *)

(** The first argument of [find] and [findall]: a callable, or a type or
    tuple of types.  A callable is taken to be a pure test on the store. *)
Inductive predicate :=
  | PCallable (f : state → value → bool)
  | PKind (k : kind).

(** What [findall] yields: the exception, or the tuple
    [(exception, source)]. *)
Inductive item :=
  | Bare (exception : value)
  | WithSource (exception source : value).

Module ExceptionGroup.

(** The body of the loop in [__init__]. *)
Definition check_child (exc : value) : M unit :=
  let* σ := read_state in
  if negb (isinstance σ exc (KType BaseException))
  then raise (TypeError_expected_exception exc)
  else ret tt.

(** [self.exceptions] and [self.sources], read as lists. *)
Definition exceptions_of (self : loc) : M (list value) :=
  let* v := getattr self "exceptions" in items_of v.

Definition sources_of (self : loc) : M (list value) :=
  let* v := getattr self "sources" in items_of v.

Definition __init__ (self : loc) (message exceptions sources : value)
  : M unit :=
  let* _ := set_args self [message; exceptions; sources] in
  let* es := py_list exceptions in
  let* _ := setattr self "exceptions" es in
  let* xs := exceptions_of self in
  let* _ := for_each xs check_child in
  let* _ := setattr self "message" message in
  let* ss := py_list sources in
  let* _ := setattr self "sources" ss in
  let* ys := sources_of self in
  let* xs := exceptions_of self in
  if negb (length ys =? length xs)%nat
  then raise (ValueError_different_number (length ys) (length xs))
  else ret tt.

(** Calling the class [c]: [BaseException.__new__] allocates the
    instance with empty magic attributes and the call arguments as
    [args], then [__init__] runs on it. *)
Definition new (c : cls) (message exceptions sources : value) : M loc :=
  let* self :=
    alloc (OExc (ExcObj c [message; exceptions; sources]
                        None None None false ∅)) in
  let* _ := __init__ self message exceptions sources in
  ret self.

Definition __bool__ (self : loc) : M bool :=
  let* xs := exceptions_of self in
  ret (negb (length xs =? 0)%nat).

Definition __contains__ (self : loc) (exception : value) : M bool :=
  let* xs := exceptions_of self in
  list_contains xs exception.

Definition _copy_magic_attrs (self dst : loc) : M unit :=
  let* o := load_exc self in
  let* _ := set_traceback dst (o_traceback o) in
  let* o := load_exc self in
  let* _ := set_context dst (o_context o) in
  let* o := load_exc self in
  let* _ := set_cause dst (o_cause o) in
  let* o := load_exc self in
  set_suppress_context dst (o_suppress_context o).

Definition __copy__ (self : loc) : M loc :=
  let* o := load_exc self in
  let* message := getattr self "message" in
  let* exceptions := getattr self "exceptions" in
  let* sources := getattr self "sources" in
  let* new_group := new (o_class o) message exceptions sources in
  let* _ := _copy_magic_attrs self new_group in
  ret new_group.

Definition __iter__ (self : loc) : M (list (value * value)) :=
  let* xs := exceptions_of self in
  let* ys := sources_of self in
  ret (zip xs ys).

Definition __len__ (self : loc) : M nat :=
  let* xs := exceptions_of self in
  ret (length xs).

Definition add (self : loc) (exception source : value) : M loc :=
  let* o := load_exc self in
  let* message := getattr self "message" in
  let* xs := exceptions_of self in
  let* exceptions := new_list (xs ++ [exception]) in
  let* ys := sources_of self in
  let* sources := new_list (ys ++ [source]) in
  let* new := new (o_class o) message exceptions sources in
  let* _ := _copy_magic_attrs self new in
  ret new.

(** The generator is represented by the list of what it yields when it
    is run to the end in the current store. *)
Definition findall (self : loc) (predicate : predicate)
    (with_source : bool) : M (list item) :=
  let predicate : state → value → bool :=
    match predicate with
    | PKind exc_type => λ σ _exc, isinstance σ _exc exc_type
    | PCallable f => f
    end in
  if with_source then
    let* xs := exceptions_of self in
    let* ys := sources_of self in
    let* σ := read_state in
    ret (map (λ p, WithSource p.1 p.2)
             (List.filter (λ p, predicate σ p.1) (zip xs ys)))
  else
    let* xs := exceptions_of self in
    let* σ := read_state in
    ret (map Bare (List.filter (predicate σ) xs)).

(** The loop returns the first item of the generator; the result [None]
    is Python's [None], returned when the loop body never runs.  The
    predicate is pure, so that the generator is not resumed after the
    first item cannot be observed. *)
Definition find (self : loc) (predicate : predicate)
    (with_source : bool) : M (option item) :=
  let* items := findall self predicate with_source in
  ret (head items).

(** The defaults are [from_exception=0] and [unwrap=True]. *)
Definition maybe_reraise (self : loc) (from_exception : value)
    (unwrap : bool) : M unit :=
  let* xs := exceptions_of self in
  if (length xs =? 0)%nat then ret tt
  else
    let* exc :=
      (if unwrap then
         let* xs := exceptions_of self in
         if (length xs =? 1)%nat then
           let* xs := exceptions_of self in
           match xs with
           | x :: _ => ret x
           | [] => raise IndexError_list_index
           end
         else ret (VRef self)
       else ret (VRef self)) in
    let* is_default := eq_M from_exception (VInt 0) in
    let* from_exception :=
      (if is_default then sys_exc_info_1 else ret from_exception) in
    raise_from exc from_exception.

Definition remove (self : loc) (exception : value) : M loc :=
  let* idx :=
    try_except
      (let* xs := exceptions_of self in list_index xs exception)
      ValueError
      (raise (ValueError_not_contained exception self)) in
  let* o := load_exc self in
  let* message := getattr self "message" in
  let* xs1 := exceptions_of self in
  let* xs2 := exceptions_of self in
  let* exceptions := new_list (take idx xs1 ++ drop (idx + 1) xs2) in
  let* ys1 := sources_of self in
  let* ys2 := sources_of self in
  let* sources := new_list (take idx ys1 ++ drop (idx + 1) ys2) in
  let* new := new (o_class o) message exceptions sources in
  let* _ := _copy_magic_attrs self new in
  ret new.

(** [repr] is the builtin of the host: a parameter, taken to be a pure
    function of the store and the object. *)
Definition __str__ (repr : state → value → string) (self : loc) : M string :=
  let* xs := exceptions_of self in
  let* σ := read_state in
  ret (String.concat ", " (map (repr σ) xs)).

(** ["<ExceptionGroup: {}>".format(self)] formats [self] with [__str__]. *)
Definition __repr__ (repr : state → value → string) (self : loc) : M string :=
  let* s := __str__ repr self in
  ret ("<ExceptionGroup: " +:+ s +:+ ">").

End ExceptionGroup.

(** The instance dictionary that [__init__] builds. *)
Definition group_dict (msg : value) (le ls : loc) : gmap string value :=
  <["sources" := VRef ls]>
    (<["message" := msg]> (<["exceptions" := VRef le]> ∅)).

(** ** Concrete stores for the examples *)

Definition plain_exc (c : cls) (args : list value) : exc_obj :=
  ExcObj c args None None None false ∅.

(** [1: ValueError("A")], [2: RuntimeError("B")], [3: ["A", "B"]],
    [4: [<1>, <2>]], [5: [<1>, "error2"]], [6: ["A"]]. *)
Definition test_store : state :=
  State (list_to_map
           [(1%positive, OExc (plain_exc ValueError [VStr "A"]));
            (2%positive, OExc (plain_exc RuntimeError [VStr "B"]));
            (3%positive, OList [VStr "A"; VStr "B"]);
            (4%positive, OList [VRef 1; VRef 2]);
            (5%positive, OList [VRef 1; VStr "error2"]);
            (6%positive, OList [VStr "A"])])
        None (λ _ _, None).


(** A group at [7] over the children [<1>, <2>] and the sources
    ["A", "B"], raised [from] the exception [2] with the traceback [42],
    whose [__suppress_context__] was then set to [False] and which was
    given one more attribute, [note]; the exception [2] is being
    handled. *)
Definition test_group : exc_obj :=
  ExcObj ExceptionGroupClass [VStr "many error."; VRef 4; VRef 3]
         (Some 42) (Some 2%positive) (Some 2%positive) false
         (<["note" := VStr "handled"]> (group_dict (VStr "many error.") 8 9)).

Definition group_store : state :=
  State (list_to_map
           [(1%positive, OExc (plain_exc ValueError [VStr "A"]));
            (2%positive, OExc (plain_exc RuntimeError [VStr "B"]));
            (3%positive, OList [VStr "A"; VStr "B"]);
            (4%positive, OList [VRef 1; VRef 2]);
            (5%positive, OExc (plain_exc KeyError [VStr "C"]));
            (7%positive, OExc test_group);
            (8%positive, OList [VRef 1; VRef 2]);
            (9%positive, OList [VStr "A"; VStr "B"])])
        (Some 2%positive) (λ _ _, None).

(** A class of the program that compares its instances by their
    arguments, as a dataclass does by its fields. *)
Definition Failure : cls := UserClass "Failure" Exception.

Definition fields_eq (a b : exc_obj) : option bool :=
  if decide (o_class a = Failure ∧ o_class b = Failure)
  then Some (bool_decide (o_args a = o_args b))
  else None.

(** The group of [group_store] over two distinct, equal instances of
    [Failure]: [1: Failure("A")] and [2: Failure("A")]. *)
Definition eq_store : state :=
  State (list_to_map
           [(1%positive, OExc (plain_exc Failure [VStr "A"]));
            (2%positive, OExc (plain_exc Failure [VStr "A"]));
            (5%positive, OExc (plain_exc KeyError [VStr "C"]));
            (7%positive, OExc test_group);
            (8%positive, OList [VRef 1; VRef 2]);
            (9%positive, OList [VStr "A"; VStr "B"])])
        (Some 5%positive) fields_eq.

(** The same store with the group cut down to the child [<1>], and to no
    child. *)
Definition single_store : state :=
  upd 9 (OList [VStr "A"]) (upd 8 (OList [VRef 1]) group_store).

Definition empty_store : state :=
  upd 9 (OList []) (upd 8 (OList []) group_store).

(** ** Observations used in the statements *)

Definition exc_at (σ : state) (l : loc) : option exc_obj :=
  match heap σ !! l with
  | Some (OExc o) => Some o
  | _ => None
  end.

(** The value that a computation returns from [σ], when it returns. *)
Definition returns {A} (m : M A) (σ : state) : option A :=
  match m σ with
  | (Normal a, _) => Some a
  | _ => None
  end.

Definition message (σ : state) (g : loc) : option value :=
  returns (getattr g "message") σ.

Definition exceptions (σ : state) (g : loc) : option (list value) :=
  returns (ExceptionGroup.exceptions_of g) σ.

Definition sources (σ : state) (g : loc) : option (list value) :=
  returns (ExceptionGroup.sources_of g) σ.

(** [isinstance(v, BaseException)], the test that [__init__] applies. *)
Definition conforms (σ : state) (v : value) : bool :=
  isinstance σ v (KType BaseException).

(** No dangling reference: a Python value always denotes an object. *)
Definition denotes (σ : state) (v : value) : Prop :=
  is_Some (type_of σ v).

(** The invariant of the class. *)
Definition same_length (σ : state) (g : loc) : Prop :=
  ∃ xs ys, exceptions σ g = Some xs ∧ sources σ g = Some ys
           ∧ length xs = length ys.

(** A group as the constructor leaves it: message [msg], children [xs]
    that are all exceptions, sources [ys], as many as children. *)
Definition group_at (σ : state) (g : loc) (msg : value)
    (xs ys : list value) : Prop :=
  message σ g = Some msg
  ∧ exceptions σ g = Some xs
  ∧ sources σ g = Some ys
  ∧ Forall (λ x, conforms σ x = true) xs
  ∧ length xs = length ys.

(** The three causal-chain attributes of the object at [l]. *)
Definition chain_of (σ : state) (l : loc)
  : option (option loc * option loc * bool) :=
  o ← exc_at σ l; Some (o_cause o, o_context o, o_suppress_context o).

Definition traceback_of (σ : state) (l : loc) : option (option traceback) :=
  o_traceback <$> exc_at σ l.

(** The caller assigns new items to a list object it holds. *)
Definition mutate_list (l : loc) (items : list value) (σ : state) : state :=
  match heap σ !! l with
  | Some (OList _) => upd l (OList items) σ
  | _ => σ
  end.

(** Every object of [σ] is unchanged in [σ'], and so are the exception
    being handled and the [__eq__] methods of the classes. *)
Definition frame (σ σ' : state) : Prop :=
  (∀ l, is_Some (heap σ !! l) → heap σ' !! l = heap σ !! l)
  ∧ exc_info σ' = exc_info σ
  ∧ user_eq σ' = user_eq σ.

(** [σ'] keeps the type of every object of [σ]. *)
Definition extends (σ σ' : state) : Prop :=
  ∀ v c, type_of σ v = Some c → type_of σ' v = Some c.

(** The instance that a successful call of the class [c] leaves at the
    new location: [l1] and [l2] are the list objects that [__init__]
    allocates for [exceptions] and [sources]. *)
Definition new_object (c : cls) (msg ve vs : value) (l1 l2 : loc) : exc_obj :=
  ExcObj c [msg; ve; vs] None None None false (group_dict msg l1 l2).

(** The instance that [__copy__], [add] and [remove] return for the
    original [o]: a new instance of the class of [o], with the magic
    attributes of [o]. *)
Definition copied_object (o : exc_obj) (msg ve vs : value) (l1 l2 : loc)
  : exc_obj :=
  ExcObj (o_class o) [msg; ve; vs] (o_traceback o) (o_context o) (o_cause o)
         (o_suppress_context o) (group_dict msg l1 l2).

(** The claim that construction with lists of different lengths always
    fails with the [ValueError], whatever the lists hold. *)
Definition length_mismatch_always_reported (σ : state) (c : cls)
    (msg : value) (le ls : loc) (xs ys : list value) : Prop :=
  heap σ !! le = Some (OList xs) →
  heap σ !! ls = Some (OList ys) →
  length xs ≠ length ys →
  (ExceptionGroup.new c msg (VRef le) (VRef ls) σ).1
  = Raised (ValueError_different_number (length ys) (length xs)).

(** A write to a slot of [BaseException] at [l]: the instance dictionary
    of the object stays. *)
Definition slot_write (l : loc) (σ σ' : state) : Prop :=
  ∃ o o', heap σ !! l = Some (OExc o) ∧ o_dict o' = o_dict o
          ∧ σ' = upd l (OExc o') σ.

(** The test that [find] and [findall] apply to a child for the argument
    [p]: the callable itself, or "the class of the child is one of
    these". *)
Definition satisfies (σ : state) (p : predicate) (x : value) : bool :=
  match p with
  | PCallable f => f σ x
  | PKind k => isinstance σ x k
  end.

Definition item_exception (it : item) : value :=
  match it with
  | Bare e => e
  | WithSource e _ => e
  end.

(** The cause that a raise is to record for the argument
    [from_exception] of [maybe_reraise]: the exception being handled for
    the default [0], and the argument itself when it is [None] or an
    exception. *)
Definition expected_cause (σ : state) (from_exception : value)
  : option (option loc) :=
  match from_exception with
  | VInt 0 => Some (exc_info σ)
  | VNone => Some None
  | VRef e => if conforms σ (VRef e) then Some (Some e) else None
  | _ => None
  end.

(** [None] or the exception, as a value. *)
Definition cause_value (cause : option loc) : value :=
  match cause with
  | Some l => VRef l
  | None => VNone
  end.

Definition cause_of (σ : state) (l : loc) : option (option loc) :=
  o_cause <$> exc_at σ l.

Definition suppress_context_of (σ : state) (l : loc) : option bool :=
  o_suppress_context <$> exc_at σ l.

(** What is being handled is an exception. *)
Definition handling_ok (σ : state) : Prop :=
  ∀ h, exc_info σ = Some h → conforms σ (VRef h) = true.

(** What the instance [g'] of [σ'], returned by an operation on the
    original [o] in [σ], takes from the original: its class and the four
    magic attributes.  Its [args] are the message and the two list objects
    that were passed to the class, which hold the children [xs] and the
    sources [ys] of the new group; its instance dictionary has the three
    entries that [__init__] writes, over list objects that did not exist
    in [σ]. *)
Definition taken_from (o : exc_obj) (msg : value) (xs ys : list value)
    (σ σ' : state) (g' : loc) : Prop :=
  ∃ o',
    heap σ !! g' = None
    ∧ heap σ' !! g' = Some (OExc o')
    ∧ o_class o' = o_class o
    ∧ o_traceback o' = o_traceback o
    ∧ o_context o' = o_context o
    ∧ o_cause o' = o_cause o
    ∧ o_suppress_context o' = o_suppress_context o
    ∧ (∃ a1 a2,
         o_args o' = [msg; VRef a1; VRef a2]
         ∧ heap σ' !! a1 = Some (OList xs)
         ∧ heap σ' !! a2 = Some (OList ys))
    ∧ (∃ l1 l2,
         o_dict o' = group_dict msg l1 l2
         ∧ heap σ !! l1 = None ∧ heap σ !! l2 = None
         ∧ heap σ' !! l1 = Some (OList xs)
         ∧ heap σ' !! l2 = Some (OList ys)).

(** [i] is the position that [xs.index(x)] returns: the item there is [x]
    or equal to [x], and no item before it is. *)
Definition first_match (σ : state) (xs : list value) (x : value) (i : nat)
  : Prop :=
  ∃ item,
    xs !! i = Some item
    ∧ item_matches σ item x = Some true
    ∧ ∀ j other, j < i → xs !! j = Some other →
                 item_matches σ other x = Some false.

(** No item of [xs] other than [x] itself is equal to [x], as when the
    classes of the items inherit [object.__eq__]. *)
Definition only_itself (σ : state) (xs : list value) (x : value) : Prop :=
  ∀ y, y ∈ xs → y ≠ x → py_eq σ y x = Some false.

(** [s] occurs in [t]. *)
Definition is_substring (s t : string) : Prop :=
  ∃ pre post, t = pre +:+ s +:+ post.

(** The handling loop of the class docstring,
    [for exc in eg.findall(T): eg = eg.remove(exc)].  The generator reads
    the children of the group that [eg] named when the loop started, which
    no [remove] changes, and the test [isinstance(exc, T)] does not depend
    on when it is made, so the loop runs over what [findall] yields at the
    start. *)
Fixpoint remove_each (eg : loc) (found : list value) : M loc :=
  match found with
  | [] => ret eg
  | exc :: found =>
      let* eg := ExceptionGroup.remove eg exc in
      remove_each eg found
  end.

Definition handle_all (eg : loc) (exc_type : kind) : M loc :=
  let* found := ExceptionGroup.findall eg (PKind exc_type) false in
  remove_each eg (map item_exception found).

(** The [repr] of the two exceptions of the concrete stores. *)
Definition test_repr (σ : state) (v : value) : string :=
  match v with
  | VRef 1 => "ValueError('A')"
  | VRef 2 => "RuntimeError('B')"
  | _ => "?"
  end.

Arguments upd : simpl never.
Arguments fresh_loc : simpl never.

(** * Proofs *)

(** ** Running the monad *)

Lemma bind_normal {A B} (m : M A) (k : A → M B) σ a σ' :
  m σ = (Normal a, σ') → bind m k σ = k a σ'.
Proof. unfold bind. by intros ->. Qed.

Lemma bind_raised {A B} (m : M A) (k : A → M B) σ e σ' :
  m σ = (Raised e, σ') → bind m k σ = (Raised e, σ').
Proof. unfold bind. by intros ->. Qed.

Lemma fresh_loc_None σ : heap σ !! fresh_loc σ = None.
Proof.
  unfold fresh_loc. apply (not_elem_of_dom (D := gset positive)).
  apply is_fresh.
Qed.

Lemma load_exc_run σ l o :
  heap σ !! l = Some (OExc o) → load_exc l σ = (Normal o, σ).
Proof. unfold load_exc. by intros ->. Qed.

Lemma getattr_run σ l o name v :
  heap σ !! l = Some (OExc o) → o_dict o !! name = Some v →
  getattr l name σ = (Normal v, σ).
Proof.
  intros Hl Hv. unfold getattr.
  rewrite (bind_normal _ _ _ _ _ (load_exc_run _ _ _ Hl)). by rewrite Hv.
Qed.

Lemma setattr_run σ l o name v :
  heap σ !! l = Some (OExc o) →
  setattr l name v σ
  = (Normal tt,
     upd l (OExc (ExcObj (o_class o) (o_args o) (o_traceback o)
                         (o_context o) (o_cause o) (o_suppress_context o)
                         (<[name := v]> (o_dict o)))) σ).
Proof.
  intros Hl. unfold setattr.
  by rewrite (bind_normal _ _ _ _ _ (load_exc_run _ _ _ Hl)).
Qed.

Lemma items_of_run σ l xs :
  heap σ !! l = Some (OList xs) → items_of (VRef l) σ = (Normal xs, σ).
Proof. unfold items_of. by intros ->. Qed.

Lemma list_attr_run σ g o name l xs :
  heap σ !! g = Some (OExc o) → o_dict o !! name = Some (VRef l) →
  heap σ !! l = Some (OList xs) →
  (let* v := getattr g name in items_of v) σ = (Normal xs, σ).
Proof.
  intros Hg Hn Hl.
  rewrite (bind_normal _ _ _ _ _ (getattr_run _ _ _ _ _ Hg Hn)).
  by apply items_of_run.
Qed.

(** What an observation says about the store. *)
Lemma getattr_returns σ g name v :
  returns (getattr g name) σ = Some v →
  ∃ o, heap σ !! g = Some (OExc o) ∧ o_dict o !! name = Some v.
Proof.
  unfold returns, getattr, bind, load_exc.
  destruct (heap σ !! g) as [[|o]|] eqn:Hg; try done.
  destruct (o_dict o !! name) as [w|] eqn:Hw; simpl; [|done].
  intros [= <-]. eauto.
Qed.

Lemma list_attr_returns σ g name xs :
  returns (let* v := getattr g name in items_of v) σ = Some xs →
  ∃ o l, heap σ !! g = Some (OExc o) ∧ o_dict o !! name = Some (VRef l)
         ∧ heap σ !! l = Some (OList xs).
Proof.
  unfold returns, getattr, bind, load_exc.
  destruct (heap σ !! g) as [[|o]|] eqn:Hg; try done.
  destruct (o_dict o !! name) as [w|] eqn:Hw; simpl; [|done].
  destruct w as [| | | |l]; simpl; try done.
  destruct (heap σ !! l) as [[ys|]|] eqn:Hl; try done.
  intros [= <-]. eauto 10.
Qed.

Lemma group_at_inv σ g msg xs ys :
  group_at σ g msg xs ys →
  ∃ o le ls,
    heap σ !! g = Some (OExc o)
    ∧ o_dict o !! "message" = Some msg
    ∧ o_dict o !! "exceptions" = Some (VRef le)
    ∧ o_dict o !! "sources" = Some (VRef ls)
    ∧ heap σ !! le = Some (OList xs)
    ∧ heap σ !! ls = Some (OList ys).
Proof.
  intros (Hm & Hx & Hy & _ & _).
  apply getattr_returns in Hm as (o & Hg & Hm).
  apply list_attr_returns in Hx as (o1 & le & Hg1 & He & Hle).
  apply list_attr_returns in Hy as (o2 & ls & Hg2 & Hs & Hls).
  simplify_eq. eauto 10.
Qed.

Lemma group_at_intro σ g o msg le ls xs ys :
  heap σ !! g = Some (OExc o) →
  o_dict o !! "message" = Some msg →
  o_dict o !! "exceptions" = Some (VRef le) →
  o_dict o !! "sources" = Some (VRef ls) →
  heap σ !! le = Some (OList xs) →
  heap σ !! ls = Some (OList ys) →
  Forall (λ x, conforms σ x = true) xs →
  length xs = length ys →
  group_at σ g msg xs ys.
Proof.
  intros Hg Hm He Hs Hle Hls Hc Hlen. unfold group_at, message, exceptions,
    sources, returns, ExceptionGroup.exceptions_of, ExceptionGroup.sources_of.
  rewrite (getattr_run _ _ _ _ _ Hg Hm).
  rewrite (list_attr_run _ _ _ _ _ _ Hg He Hle).
  by rewrite (list_attr_run _ _ _ _ _ _ Hg Hs Hls).
Qed.

(** ** Types of objects are stable *)

Lemma extends_refl σ : extends σ σ.
Proof. by intros v c. Qed.

Lemma extends_trans σ1 σ2 σ3 :
  extends σ1 σ2 → extends σ2 σ3 → extends σ1 σ3.
Proof. intros H12 H23 v c Hv. by apply H23, H12. Qed.

Lemma extends_alloc σ l o : heap σ !! l = None → extends σ (upd l o σ).
Proof.
  intros Hl [| | | |k] c; simpl; try done.
  destruct (decide (l = k)) as [->|Hne].
  - by rewrite Hl.
  - by rewrite lookup_insert_ne.
Qed.

Lemma extends_store σ l o o' :
  heap σ !! l = Some (OExc o) → o_class o' = o_class o →
  extends σ (upd l (OExc o') σ).
Proof.
  intros Hl Hc [| | | |k] c; simpl; try done.
  destruct (decide (l = k)) as [->|Hne].
  - rewrite Hl, lookup_insert_eq. by rewrite Hc.
  - by rewrite lookup_insert_ne.
Qed.

Lemma extends_mutate σ l items : extends σ (mutate_list l items σ).
Proof.
  unfold mutate_list.
  destruct (heap σ !! l) as [[ys|o]|] eqn:Hl; try apply extends_refl.
  intros [| | | |k] c; simpl; try done.
  destruct (decide (l = k)) as [->|Hne].
  - by rewrite Hl, lookup_insert_eq.
  - by rewrite lookup_insert_ne.
Qed.

Lemma isinstance_extends σ σ' v k :
  extends σ σ' → isinstance σ v k = true → isinstance σ' v k = true.
Proof.
  unfold isinstance. intros Hext.
  destruct (type_of σ v) as [c|] eqn:Hv; [|done].
  by rewrite (Hext _ _ Hv).
Qed.

Lemma isinstance_denotes σ σ' v k :
  extends σ σ' → denotes σ v → isinstance σ' v k = isinstance σ v k.
Proof.
  unfold isinstance. intros Hext [c Hv]. by rewrite (Hext _ _ Hv), Hv.
Qed.

Lemma conforms_extends σ σ' xs :
  extends σ σ' →
  Forall (λ x, conforms σ x = true) xs →
  Forall (λ x, conforms σ' x = true) xs.
Proof.
  intros Hext Hxs. eapply Forall_impl; [done|].
  intros x. by apply isinstance_extends.
Qed.

Lemma conforms_denotes σ v : conforms σ v = true → denotes σ v.
Proof.
  unfold conforms, isinstance, denotes.
  destruct (type_of σ v); [eauto | done].
Qed.

(** A conforming value is a reference to an exception object. *)
Lemma conforms_ref σ v :
  conforms σ v = true → ∃ l o, v = VRef l ∧ heap σ !! l = Some (OExc o).
Proof.
  unfold conforms, isinstance. destruct v as [| | | |l]; simpl; try done.
  destruct (heap σ !! l) as [[ys|o]|] eqn:Hl; try done. eauto.
Qed.

(** ** The loop over the children in [__init__] *)

Lemma check_all_ok σ xs :
  Forall (λ x, conforms σ x = true) xs →
  for_each xs ExceptionGroup.check_child σ = (Normal tt, σ).
Proof.
  induction 1 as [|x xs Hx _ IH]; [done|].
  simpl. unfold bind at 1, ExceptionGroup.check_child at 1, bind at 1, read_state.
  unfold conforms in Hx. by rewrite Hx.
Qed.

Lemma check_first_bad σ pre v post :
  Forall (λ x, conforms σ x = true) pre →
  conforms σ v = false →
  for_each (pre ++ v :: post) ExceptionGroup.check_child σ
  = (Raised (TypeError_expected_exception v), σ).
Proof.
  intros Hpre Hv. induction Hpre as [|x xs Hx _ IH]; simpl.
  - unfold bind at 1, ExceptionGroup.check_child at 1, bind at 1, read_state.
    unfold conforms in Hv. by rewrite Hv.
  - unfold bind at 1, ExceptionGroup.check_child at 1, bind at 1, read_state.
    unfold conforms in Hx. by rewrite Hx.
Qed.

(** Every list is all-conforming or has a first non-conforming item. *)
Lemma first_bad_or_all σ (xs : list value) :
  Forall (λ x, conforms σ x = true) xs
  ∨ ∃ pre v post, xs = pre ++ v :: post
                  ∧ Forall (λ x, conforms σ x = true) pre
                  ∧ conforms σ v = false.
Proof.
  induction xs as [|x xs IH]; [by left|].
  destruct (conforms σ x) eqn:Hx.
  - destruct IH as [IH|(pre & v & post & -> & Hpre & Hv)].
    + left. by constructor.
    + right. exists (x :: pre), v, post. split_and!; [done| |done].
      by constructor.
  - right. exists [], x, xs. by split_and!.
Qed.

(** ** Stores written as chains of updates *)

Lemma heap_upd_eq l o σ : heap (upd l o σ) !! l = Some o.
Proof. apply lookup_insert_eq. Qed.

Lemma heap_upd_ne l k o σ : l ≠ k → heap (upd l o σ) !! k = heap σ !! k.
Proof. intros Hne. by apply lookup_insert_ne. Qed.

Lemma heap_upd_None l k o σ :
  heap (upd k o σ) !! l = None → l ≠ k ∧ heap σ !! l = None.
Proof.
  unfold upd; simpl. rewrite lookup_insert_None.
  intros [Hl Hne]. split; [congruence | done].
Qed.

Lemma state_eq σ1 σ2 :
  (∀ l, heap σ1 !! l = heap σ2 !! l) →
  exc_info σ1 = exc_info σ2 →
  user_eq σ1 = user_eq σ2 →
  σ1 = σ2.
Proof.
  destruct σ1 as [h1 e1 u1], σ2 as [h2 e2 u2]; simpl. intros Hh -> ->.
  f_equal. by apply map_eq.
Qed.

Lemma new_list_run σ xs :
  new_list xs σ
  = (Normal (VRef (fresh_loc σ)), upd (fresh_loc σ) (OList xs) σ).
Proof. done. Qed.

Lemma py_list_run σ l xs :
  heap σ !! l = Some (OList xs) →
  py_list (VRef l) σ
  = (Normal (VRef (fresh_loc σ)), upd (fresh_loc σ) (OList xs) σ).
Proof.
  intros Hl. unfold py_list.
  by rewrite (bind_normal _ _ _ _ _ (items_of_run _ _ _ Hl)).
Qed.

Lemma set_args_run σ l o args :
  heap σ !! l = Some (OExc o) →
  set_args l args σ
  = (Normal tt,
     upd l (OExc (ExcObj (o_class o) args (o_traceback o) (o_context o)
                         (o_cause o) (o_suppress_context o) (o_dict o))) σ).
Proof.
  intros Hl. unfold set_args.
  by rewrite (bind_normal _ _ _ _ _ (load_exc_run _ _ _ Hl)).
Qed.

(** One step of a computation: run the first statement with [tac]. *)
Ltac mstep tac :=
  lazymatch goal with
  | |- bind ?m ?k ?σ = _ → _ =>
      let H := fresh "Hstep" in
      eassert (m σ = (Normal _, _)) as H by tac;
      rewrite (bind_normal m k σ _ _ H); clear H; cbv beta
  | |- bind ?m ?k ?σ = _ =>
      let H := fresh "Hstep" in
      eassert (m σ = (Normal _, _)) as H by tac;
      rewrite (bind_normal m k σ _ _ H); clear H; cbv beta
  end.

Ltac mraise tac :=
  lazymatch goal with
  | |- bind ?m ?k ?σ = _ → _ =>
      let H := fresh "Hstep" in
      eassert (m σ = (Raised _, _)) as H by tac;
      rewrite (bind_raised m k σ _ _ H); clear H; cbv beta
  end.

(** A lookup in a chain of updates. *)
Ltac lookup :=
  repeat first
    [ rewrite heap_upd_eq
    | rewrite heap_upd_ne by congruence ];
  first [ reflexivity | eassumption ].

(** Name the location that the next allocation returns. *)
Ltac name_fresh l H :=
  lazymatch goal with
  | |- context [fresh_loc ?s] =>
      pose proof (fresh_loc_None s) as H;
      set (l := fresh_loc s) in *; clearbody l
  end.

Ltac obj_simpl :=
  cbn [o_class o_args o_traceback o_context o_cause o_suppress_context
       o_dict].

(** Pairwise distinct locations, from the disequalities in the context. *)
Ltac nodup :=
  repeat (apply NoDup_cons_2;
          [ rewrite ?not_elem_of_cons; split_and?;
            first [ congruence | apply not_elem_of_nil ] | ]);
  apply NoDup_nil_2.

Ltac nodup_inv H :=
  repeat (rewrite NoDup_cons in H || rewrite not_elem_of_cons in H);
  destruct_and!.

(** Equality of two stores written as chains of updates. *)
Ltac state_eq :=
  apply state_eq; [|reflexivity|reflexivity];
  let k := fresh "k" in
  intros k; unfold upd; cbn [heap];
  rewrite !lookup_insert; repeat case_decide; congruence.

Ltac ext :=
  lazymatch goal with
  | |- extends ?s ?s => apply extends_refl
  | |- extends ?s (upd ?l ?o ?s') =>
      apply (extends_trans s s');
      [ ext
      | first [ apply extends_alloc; lookup
              | eapply extends_store; [lookup | reflexivity] ] ]
  end.

(** ** The constructor *)

Lemma init_run_ok σ self o msg le ls xs ys :
  heap σ !! self = Some (OExc o) →
  heap σ !! le = Some (OList xs) →
  heap σ !! ls = Some (OList ys) →
  Forall (λ x, conforms σ x = true) xs →
  length xs = length ys →
  ∃ l1 l2,
    heap σ !! l1 = None ∧ heap σ !! l2 = None ∧ l1 ≠ l2
    ∧ ExceptionGroup.__init__ self msg (VRef le) (VRef ls) σ
      = (Normal tt,
         upd self
           (OExc (ExcObj (o_class o) [msg; VRef le; VRef ls] (o_traceback o)
                         (o_context o) (o_cause o) (o_suppress_context o)
                         (<["sources" := VRef l2]>
                            (<["message" := msg]>
                               (<["exceptions" := VRef l1]> (o_dict o))))))
           (upd l2 (OList ys) (upd l1 (OList xs) σ))).
Proof.
  intros Hself Hle Hls Hxs Hlen.
  destruct (ExceptionGroup.__init__ _ _ _ _ σ) as [r σ'] eqn:Hrun.
  revert Hrun. unfold ExceptionGroup.__init__.
  mstep ltac:(apply set_args_run; lookup).
  mstep ltac:(eapply py_list_run; lookup).
  name_fresh l1 Hl1. apply heap_upd_None in Hl1 as [Hl1s Hl1].
  mstep ltac:(eapply setattr_run; lookup).
  obj_simpl.
  unfold ExceptionGroup.exceptions_of at 1.
  mstep ltac:(eapply list_attr_run; [lookup| apply lookup_insert_eq | lookup]).
  mstep ltac:(apply check_all_ok; eapply conforms_extends; [|exact Hxs]; ext).
  mstep ltac:(eapply setattr_run; lookup).
  obj_simpl.
  mstep ltac:(eapply py_list_run; lookup).
  name_fresh l2 Hl2.
  do 4 (apply heap_upd_None in Hl2 as [? Hl2]).
  mstep ltac:(eapply setattr_run; lookup).
  obj_simpl.
  unfold ExceptionGroup.sources_of at 1.
  mstep ltac:(eapply list_attr_run; [lookup| apply lookup_insert_eq | lookup]).
  unfold ExceptionGroup.exceptions_of at 1.
  mstep ltac:(eapply list_attr_run; [lookup| by simplify_map_eq | lookup]).
  rewrite Hlen, Nat.eqb_refl. cbn [negb]. intros [= <- <-].
  exists l1, l2. split_and!; [done..|]. f_equal. state_eq.
Qed.

Lemma new_run_ok σ c msg le ls xs ys :
  heap σ !! le = Some (OList xs) →
  heap σ !! ls = Some (OList ys) →
  Forall (λ x, conforms σ x = true) xs →
  length xs = length ys →
  ∃ g l1 l2,
    heap σ !! g = None ∧ heap σ !! l1 = None ∧ heap σ !! l2 = None
    ∧ g ≠ l1 ∧ g ≠ l2 ∧ l1 ≠ l2
    ∧ ExceptionGroup.new c msg (VRef le) (VRef ls) σ
      = (Normal g,
         upd g (OExc (new_object c msg (VRef le) (VRef ls) l1 l2))
           (upd l2 (OList ys) (upd l1 (OList xs) σ))).
Proof.
  intros Hle Hls Hxs Hlen.
  destruct (ExceptionGroup.new _ _ _ _ σ) as [r σ'] eqn:Hrun.
  revert Hrun. unfold ExceptionGroup.new.
  mstep ltac:(reflexivity).
  name_fresh g Hg.
  set (o0 := ExcObj c _ None None None false ∅).
  destruct (init_run_ok (upd g (OExc o0) σ) g o0 msg le ls xs ys)
    as (l1 & l2 & Hl1 & Hl2 & Hne & Hinit).
  { lookup. }
  { lookup. }
  { lookup. }
  { eapply conforms_extends; [|done]. ext. }
  { done. }
  apply heap_upd_None in Hl1 as [? Hl1].
  apply heap_upd_None in Hl2 as [? Hl2].
  mstep ltac:(exact Hinit).
  intros [= <- <-]. exists g, l1, l2. split_and!; try done.
  f_equal. unfold new_object, group_dict. subst o0. obj_simpl. state_eq.
Qed.

Lemma frame_refl σ : frame σ σ.
Proof. by split. Qed.

Lemma frame_alloc σ σ' l o :
  frame σ σ' → heap σ !! l = None → frame σ (upd l o σ').
Proof.
  intros [Hh He] Hl. split; [|done].
  intros k [x Hk]. rewrite heap_upd_ne by congruence. apply Hh. by exists x.
Qed.

Lemma frame_trans σ1 σ2 σ3 : frame σ1 σ2 → frame σ2 σ3 → frame σ1 σ3.
Proof.
  intros (H1 & E1 & U1) (H2 & E2 & U2). split_and!; [|congruence..].
  intros l Hl. rewrite H2; [by apply H1|]. by rewrite H1.
Qed.

Lemma init_run_TypeError σ self o msg le sources pre v post :
  heap σ !! self = Some (OExc o) →
  heap σ !! le = Some (OList (pre ++ v :: post)) →
  Forall (λ x, conforms σ x = true) pre →
  conforms σ v = false →
  denotes σ v →
  ∃ σ',
    ExceptionGroup.__init__ self msg (VRef le) sources σ
    = (Raised (TypeError_expected_exception v), σ')
    ∧ (∀ l, l ≠ self → is_Some (heap σ !! l) → heap σ' !! l = heap σ !! l)
    ∧ exc_info σ' = exc_info σ ∧ user_eq σ' = user_eq σ.
Proof.
  intros Hself Hle Hpre Hv Hden.
  destruct (ExceptionGroup.__init__ _ _ _ _ σ) as [r σ'] eqn:Hrun.
  revert Hrun. unfold ExceptionGroup.__init__.
  mstep ltac:(apply set_args_run; lookup).
  mstep ltac:(eapply py_list_run; lookup).
  name_fresh l1 Hl1. apply heap_upd_None in Hl1 as [Hl1s Hl1].
  mstep ltac:(eapply setattr_run; lookup).
  obj_simpl.
  unfold ExceptionGroup.exceptions_of at 1.
  mstep ltac:(eapply list_attr_run; [lookup| apply lookup_insert_eq | lookup]).
  lazymatch goal with
  | |- bind _ _ ?s = _ → _ => assert (extends σ s) as Hext by ext
  end.
  mraise ltac:(apply check_first_bad;
               [ by eapply conforms_extends
               | unfold conforms;
                 rewrite (isinstance_denotes _ _ _ _ Hext Hden);
                 exact Hv ]).
  intros [= <- <-]. eexists. split_and!; [done| |done..].
  intros k Hk [x Hx]. by repeat (rewrite heap_upd_ne by congruence).
Qed.

Lemma new_run_TypeError σ c msg le sources pre v post :
  heap σ !! le = Some (OList (pre ++ v :: post)) →
  Forall (λ x, conforms σ x = true) pre →
  conforms σ v = false →
  denotes σ v →
  ∃ σ',
    ExceptionGroup.new c msg (VRef le) sources σ
    = (Raised (TypeError_expected_exception v), σ')
    ∧ frame σ σ'.
Proof.
  intros Hle Hpre Hv Hden.
  destruct (ExceptionGroup.new _ _ _ _ σ) as [r σ'] eqn:Hrun.
  revert Hrun. unfold ExceptionGroup.new.
  mstep ltac:(reflexivity).
  name_fresh g Hg.
  set (o0 := ExcObj c _ None None None false ∅).
  assert (extends σ (upd g (OExc o0) σ)) as Hext by ext.
  destruct (init_run_TypeError (upd g (OExc o0) σ) g o0 msg le sources
              pre v post) as (σ1 & Hinit & Hframe & Hinfo).
  { lookup. }
  { lookup. }
  { by eapply conforms_extends. }
  { unfold conforms. by rewrite (isinstance_denotes _ _ _ _ Hext Hden). }
  { destruct Hden as [d Hd]. exists d. by apply Hext. }
  mraise ltac:(exact Hinit).
  intros [= <- <-]. eexists. split; [done|]. split; [|exact Hinfo].
  intros k [x Hx]. rewrite Hframe.
  - apply heap_upd_ne. congruence.
  - congruence.
  - rewrite heap_upd_ne by congruence. by exists x.
Qed.

Lemma init_run_ValueError σ self o msg le ls xs ys :
  heap σ !! self = Some (OExc o) →
  heap σ !! le = Some (OList xs) →
  heap σ !! ls = Some (OList ys) →
  Forall (λ x, conforms σ x = true) xs →
  length xs ≠ length ys →
  ∃ σ',
    ExceptionGroup.__init__ self msg (VRef le) (VRef ls) σ
    = (Raised (ValueError_different_number (length ys) (length xs)), σ')
    ∧ (∀ l, l ≠ self → is_Some (heap σ !! l) → heap σ' !! l = heap σ !! l)
    ∧ exc_info σ' = exc_info σ ∧ user_eq σ' = user_eq σ.
Proof.
  intros Hself Hle Hls Hxs Hlen.
  destruct (ExceptionGroup.__init__ _ _ _ _ σ) as [r σ'] eqn:Hrun.
  revert Hrun. unfold ExceptionGroup.__init__.
  mstep ltac:(apply set_args_run; lookup).
  mstep ltac:(eapply py_list_run; lookup).
  name_fresh l1 Hl1. apply heap_upd_None in Hl1 as [Hl1s Hl1].
  mstep ltac:(eapply setattr_run; lookup).
  obj_simpl.
  unfold ExceptionGroup.exceptions_of at 1.
  mstep ltac:(eapply list_attr_run; [lookup| apply lookup_insert_eq | lookup]).
  mstep ltac:(apply check_all_ok; eapply conforms_extends; [|exact Hxs]; ext).
  mstep ltac:(eapply setattr_run; lookup).
  obj_simpl.
  mstep ltac:(eapply py_list_run; lookup).
  name_fresh l2 Hl2.
  do 4 (apply heap_upd_None in Hl2 as [? Hl2]).
  mstep ltac:(eapply setattr_run; lookup).
  obj_simpl.
  unfold ExceptionGroup.sources_of at 1.
  mstep ltac:(eapply list_attr_run; [lookup| apply lookup_insert_eq | lookup]).
  unfold ExceptionGroup.exceptions_of at 1.
  mstep ltac:(eapply list_attr_run; [lookup| by simplify_map_eq | lookup]).
  replace (length ys =? length xs)%nat with false
    by (symmetry; apply Nat.eqb_neq; congruence).
  cbn [negb]. intros [= <- <-]. eexists. split_and!; [done| |done..].
  intros k Hk [x Hx]. by repeat (rewrite heap_upd_ne by congruence).
Qed.

Lemma new_run_ValueError σ c msg le ls xs ys :
  heap σ !! le = Some (OList xs) →
  heap σ !! ls = Some (OList ys) →
  Forall (λ x, conforms σ x = true) xs →
  length xs ≠ length ys →
  ∃ σ',
    ExceptionGroup.new c msg (VRef le) (VRef ls) σ
    = (Raised (ValueError_different_number (length ys) (length xs)), σ')
    ∧ frame σ σ'.
Proof.
  intros Hle Hls Hxs Hlen.
  destruct (ExceptionGroup.new _ _ _ _ σ) as [r σ'] eqn:Hrun.
  revert Hrun. unfold ExceptionGroup.new.
  mstep ltac:(reflexivity).
  name_fresh g Hg.
  set (o0 := ExcObj c _ None None None false ∅).
  destruct (init_run_ValueError (upd g (OExc o0) σ) g o0 msg le ls xs ys)
    as (σ1 & Hinit & Hframe & Hinfo).
  { lookup. }
  { lookup. }
  { lookup. }
  { eapply conforms_extends; [|done]. ext. }
  { done. }
  mraise ltac:(exact Hinit).
  intros [= <- <-]. eexists. split; [done|]. split; [|exact Hinfo].
  intros k [x Hx]. rewrite Hframe.
  - apply heap_upd_ne. congruence.
  - congruence.
  - rewrite heap_upd_ne by congruence. by exists x.
Qed.

(** ** Copying the magic attributes *)

Lemma set_traceback_run σ l o t :
  heap σ !! l = Some (OExc o) →
  set_traceback l t σ
  = (Normal tt,
     upd l (OExc (ExcObj (o_class o) (o_args o) t (o_context o) (o_cause o)
                         (o_suppress_context o) (o_dict o))) σ).
Proof.
  intros Hl. unfold set_traceback.
  by rewrite (bind_normal _ _ _ _ _ (load_exc_run _ _ _ Hl)).
Qed.

Lemma set_context_run σ l o c :
  heap σ !! l = Some (OExc o) →
  set_context l c σ
  = (Normal tt,
     upd l (OExc (ExcObj (o_class o) (o_args o) (o_traceback o) c (o_cause o)
                         (o_suppress_context o) (o_dict o))) σ).
Proof.
  intros Hl. unfold set_context.
  by rewrite (bind_normal _ _ _ _ _ (load_exc_run _ _ _ Hl)).
Qed.

Lemma set_cause_run σ l o c :
  heap σ !! l = Some (OExc o) →
  set_cause l c σ
  = (Normal tt,
     upd l (OExc (ExcObj (o_class o) (o_args o) (o_traceback o) (o_context o)
                         c true (o_dict o))) σ).
Proof.
  intros Hl. unfold set_cause.
  by rewrite (bind_normal _ _ _ _ _ (load_exc_run _ _ _ Hl)).
Qed.

Lemma set_suppress_context_run σ l o b :
  heap σ !! l = Some (OExc o) →
  set_suppress_context l b σ
  = (Normal tt,
     upd l (OExc (ExcObj (o_class o) (o_args o) (o_traceback o) (o_context o)
                         (o_cause o) b (o_dict o))) σ).
Proof.
  intros Hl. unfold set_suppress_context.
  by rewrite (bind_normal _ _ _ _ _ (load_exc_run _ _ _ Hl)).
Qed.

Lemma copy_magic_run σ self dst o d :
  self ≠ dst →
  heap σ !! self = Some (OExc o) →
  heap σ !! dst = Some (OExc d) →
  ExceptionGroup._copy_magic_attrs self dst σ
  = (Normal tt,
     upd dst (OExc (ExcObj (o_class d) (o_args d) (o_traceback o)
                           (o_context o) (o_cause o) (o_suppress_context o)
                           (o_dict d))) σ).
Proof.
  intros Hne Hself Hdst. unfold ExceptionGroup._copy_magic_attrs.
  mstep ltac:(apply load_exc_run; lookup).
  mstep ltac:(eapply set_traceback_run; lookup).
  mstep ltac:(apply load_exc_run; lookup).
  mstep ltac:(eapply set_context_run; lookup).
  mstep ltac:(apply load_exc_run; lookup).
  mstep ltac:(eapply set_cause_run; lookup).
  mstep ltac:(apply load_exc_run; lookup).
  erewrite set_suppress_context_run by lookup.
  obj_simpl. f_equal. state_eq.
Qed.

(** ** [__copy__], [add] and [remove] on a group *)

Lemma copy_run σ self o msg le ls xs ys :
  heap σ !! self = Some (OExc o) →
  o_dict o !! "message" = Some msg →
  o_dict o !! "exceptions" = Some (VRef le) →
  o_dict o !! "sources" = Some (VRef ls) →
  heap σ !! le = Some (OList xs) →
  heap σ !! ls = Some (OList ys) →
  Forall (λ x, conforms σ x = true) xs →
  length xs = length ys →
  ∃ g l1 l2,
    heap σ !! g = None ∧ heap σ !! l1 = None ∧ heap σ !! l2 = None
    ∧ g ≠ l1 ∧ g ≠ l2 ∧ l1 ≠ l2
    ∧ ExceptionGroup.__copy__ self σ
      = (Normal g,
         upd g (OExc (copied_object o msg (VRef le) (VRef ls) l1 l2))
           (upd l2 (OList ys) (upd l1 (OList xs) σ))).
Proof.
  intros Hself Hm He Hs Hle Hls Hxs Hlen.
  destruct (ExceptionGroup.__copy__ self σ) as [r σ'] eqn:Hrun.
  revert Hrun. unfold ExceptionGroup.__copy__.
  mstep ltac:(apply load_exc_run; lookup).
  mstep ltac:(eapply getattr_run; [lookup|done]).
  mstep ltac:(eapply getattr_run; [lookup|done]).
  mstep ltac:(eapply getattr_run; [lookup|done]).
  destruct (new_run_ok σ (o_class o) msg le ls xs ys)
    as (g & l1 & l2 & Hg & Hl1 & Hl2 & ? & ? & ? & Hnew); [done..|].
  mstep ltac:(exact Hnew).
  mstep ltac:(eapply copy_magic_run; [congruence | lookup | lookup]).
  intros [= <- <-]. exists g, l1, l2. split_and!; [done..|].
  f_equal. unfold copied_object, new_object. obj_simpl. state_eq.
Qed.

Lemma add_run σ self o msg le ls xs ys x s :
  heap σ !! self = Some (OExc o) →
  o_dict o !! "message" = Some msg →
  o_dict o !! "exceptions" = Some (VRef le) →
  o_dict o !! "sources" = Some (VRef ls) →
  heap σ !! le = Some (OList xs) →
  heap σ !! ls = Some (OList ys) →
  Forall (λ x, conforms σ x = true) xs →
  length xs = length ys →
  conforms σ x = true →
  ∃ g t1 t2 l1 l2,
    heap σ !! g = None ∧ heap σ !! t1 = None ∧ heap σ !! t2 = None
    ∧ heap σ !! l1 = None ∧ heap σ !! l2 = None
    ∧ NoDup [g; t1; t2; l1; l2]
    ∧ ExceptionGroup.add self x s σ
      = (Normal g,
         upd g (OExc (copied_object o msg (VRef t1) (VRef t2) l1 l2))
           (upd l2 (OList (ys ++ [s]))
              (upd l1 (OList (xs ++ [x]))
                 (upd t2 (OList (ys ++ [s]))
                    (upd t1 (OList (xs ++ [x])) σ))))).
Proof.
  intros Hself Hm He Hs Hle Hls Hxs Hlen Hx.
  destruct (ExceptionGroup.add self x s σ) as [r σ'] eqn:Hrun.
  revert Hrun. unfold ExceptionGroup.add.
  mstep ltac:(apply load_exc_run; lookup).
  mstep ltac:(eapply getattr_run; [lookup|done]).
  unfold ExceptionGroup.exceptions_of at 1.
  mstep ltac:(eapply list_attr_run; [lookup|done|lookup]).
  mstep ltac:(apply new_list_run).
  name_fresh t1 Ht1.
  unfold ExceptionGroup.sources_of at 1.
  mstep ltac:(eapply list_attr_run; [lookup|done|lookup]).
  mstep ltac:(apply new_list_run).
  name_fresh t2 Ht2. apply heap_upd_None in Ht2 as [? Ht2].
  set (σ2 := upd t2 _ (upd t1 _ σ)).
  assert (extends σ σ2) as Hext by (subst σ2; ext).
  destruct (new_run_ok σ2 (o_class o) msg t1 t2 (xs ++ [x]) (ys ++ [s]))
    as (g & l1 & l2 & Hg & Hl1 & Hl2 & ? & ? & ? & Hnew).
  { subst σ2. lookup. }
  { subst σ2. lookup. }
  { eapply conforms_extends; [done|]. apply Forall_app. split; [done|].
    by constructor. }
  { rewrite !length_app. simpl. lia. }
  subst σ2.
  do 2 (apply heap_upd_None in Hg as [? Hg]).
  do 2 (apply heap_upd_None in Hl1 as [? Hl1]).
  do 2 (apply heap_upd_None in Hl2 as [? Hl2]).
  mstep ltac:(exact Hnew).
  mstep ltac:(eapply copy_magic_run; [congruence | lookup | lookup]).
  intros [= <- <-]. exists g, t1, t2, l1, l2. split_and!; [done..| |].
  - nodup.
  - f_equal. unfold copied_object, new_object. obj_simpl. state_eq.
Qed.

(** ** Searching the children *)

(** The comparison of an exception object with anything has an answer. *)
Lemma item_matches_total σ item x :
  conforms σ item = true → ∃ b, item_matches σ item x = Some b.
Proof.
  intros Hc. apply conforms_ref in Hc as (a & o & -> & Ha).
  unfold item_matches. case_decide as Hx; [by exists true|].
  destruct x as [| | | |k]; simpl; try by eexists.
  rewrite Ha. destruct (heap σ !! k) as [[items|ob]|] eqn:Hk.
  - rewrite decide_False by congruence.
    unfold is_list_object. rewrite Ha. by eexists.
  - destruct (user_eq σ o ob); by eexists.
  - rewrite decide_False by congruence.
    unfold is_list_object. rewrite Ha. by eexists.
Qed.

(** Exception objects whose classes do not answer compare by
    identity. *)
Lemma item_matches_only_itself σ xs item x :
  only_itself σ xs x → item ∈ xs →
  item_matches σ item x = Some (bool_decide (item = x)).
Proof.
  intros Hid Hin. unfold item_matches. case_decide as Hx.
  - by rewrite bool_decide_eq_true_2.
  - rewrite bool_decide_eq_false_2 by done. by apply Hid.
Qed.

Lemma only_itself_default σ xs x :
  user_eq σ = (λ _ _, None) →
  Forall (λ y, conforms σ y = true) xs →
  only_itself σ xs x.
Proof.
  intros Hu Hxs y Hy Hne. rewrite Forall_forall in Hxs.
  destruct (conforms_ref _ _ (Hxs y Hy)) as (a & o & -> & Ha).
  destruct x as [| | | |b]; simpl; try done.
  rewrite Ha, Hu. destruct (heap σ !! b) as [[items|ob]|] eqn:Hb.
  - rewrite decide_False by congruence.
    unfold is_list_object. by rewrite Ha.
  - rewrite bool_decide_eq_false_2; [done|congruence].
  - rewrite decide_False by congruence.
    unfold is_list_object. by rewrite Ha.
Qed.

(** Objects of [σ] compare in a later store as they do in [σ]. *)
Lemma py_eq_frame σ σ' v w :
  frame σ σ' → denotes σ v → denotes σ w → py_eq σ' v w = py_eq σ v w.
Proof.
  intros (Hh & _ & Hu) [cv Hv] [cw Hw].
  destruct v as [|vb|vn|vs|a], w as [|wb|wn|ws|b]; try done.
  simpl in Hv, Hw. unfold py_eq, is_list_object.
  destruct (heap σ !! a) as [oa|] eqn:Ha; [|done].
  destruct (heap σ !! b) as [ob|] eqn:Hb; [|done].
  rewrite (Hh a), (Hh b), Ha, Hb, Hu by (rewrite ?Ha, ?Hb; eauto).
  done.
Qed.

Lemma item_matches_frame σ σ' v w :
  frame σ σ' → denotes σ v → denotes σ w →
  item_matches σ' v w = item_matches σ v w.
Proof.
  intros Hf Hv Hw. unfold item_matches. by rewrite (py_eq_frame σ σ').
Qed.

(** What [index] returns is the first position that matches. *)
Lemma index_from_Normal σ xs x n k :
  index_from σ xs x n = Normal k →
  ∃ i item,
    k = n + i
    ∧ xs !! i = Some item
    ∧ item_matches σ item x = Some true
    ∧ ∀ j other, j < i → xs !! j = Some other →
                 item_matches σ other x = Some false.
Proof.
  revert n. induction xs as [|y xs IH]; intros n; simpl; [done|].
  destruct (item_matches σ y x) as [[|]|] eqn:Hy; [| |done].
  - intros [= <-]. exists 0, y. split_and!; [lia|done..|].
    intros j other Hj. lia.
  - intros Hk. apply IH in Hk as (i & item & -> & Hi & Hm & Hfirst).
    exists (S i), item. split_and!; [lia|done..|].
    intros [|j] other Hj; simpl.
    + by intros [= <-].
    + apply Hfirst. lia.
Qed.

(** On exception objects [index] returns the first match, or raises when
    nothing matches. *)
Lemma index_from_cases σ xs x n :
  Forall (λ y, conforms σ y = true) xs →
  (∃ i, index_from σ xs x n = Normal (n + i) ∧ first_match σ xs x i)
  ∨ (index_from σ xs x n = Raised (ValueError_not_in_list x)
     ∧ Forall (λ y, item_matches σ y x = Some false) xs).
Proof.
  intros Hxs. revert n.
  induction Hxs as [|y xs Hy _ IH]; intros n; [by right|].
  simpl. destruct (item_matches_total σ y x Hy) as [[|] Hm]; rewrite Hm.
  - left. exists 0. split; [f_equal; lia|]. exists y. split_and!; [done..|].
    intros j other Hj. lia.
  - destruct (IH (S n)) as [(i & Hrun & item & Hi & Hmi & Hfirst)|[Hrun Hno]].
    + left. exists (S i). split; [rewrite Hrun; f_equal; lia|].
      exists item. split_and!; [done..|].
      intros [|j] other Hj; simpl; [by intros [= <-]|].
      apply Hfirst. lia.
    + right. split; [done|]. by constructor.
Qed.

(** A member is found, at its position or before. *)
Lemma index_from_member σ xs x n :
  Forall (λ y, conforms σ y = true) xs →
  x ∈ xs →
  ∃ i, index_from σ xs x n = Normal (n + i) ∧ first_match σ xs x i.
Proof.
  intros Hxs Hx.
  destruct (index_from_cases σ xs x n Hxs) as [?|[_ Hno]]; [done|].
  rewrite Forall_forall in Hno. specialize (Hno x Hx).
  unfold item_matches in Hno. by rewrite decide_True in Hno.
Qed.

Lemma first_match_only_itself σ xs x i :
  only_itself σ xs x → first_match σ xs x i →
  xs !! i = Some x ∧ ∀ j, j < i → xs !! j ≠ Some x.
Proof.
  intros Hid (item & Hi & Hm & Hfirst).
  rewrite (item_matches_only_itself σ xs item x Hid) in Hm
    by (by eapply list_elem_of_lookup_2).
  injection Hm as Hm. apply bool_decide_eq_true in Hm as ->.
  split; [done|]. intros j Hj Hjx.
  specialize (Hfirst j x Hj Hjx). unfold item_matches in Hfirst.
  by rewrite decide_True in Hfirst.
Qed.

(** [in] answers whether some item matches. *)
Lemma contains_from_cases σ xs x :
  Forall (λ y, conforms σ y = true) xs →
  (contains_from σ xs x = Normal true
   ∧ ∃ y, y ∈ xs ∧ item_matches σ y x = Some true)
  ∨ (contains_from σ xs x = Normal false
     ∧ Forall (λ y, item_matches σ y x = Some false) xs).
Proof.
  induction 1 as [|y xs Hy _ IH]; cbn [contains_from]; [by right|].
  destruct (item_matches_total σ y x Hy) as [[|] Hm]; rewrite Hm.
  - left. split; [done|]. exists y. split; [|done]. apply elem_of_cons.
    by left.
  - destruct IH as [[Hrun (z & Hz & Hmz)]|[Hrun Hno]].
    + left. split; [done|]. exists z. split; [|done]. apply elem_of_cons.
      by right.
    + right. split; [done|]. by constructor.
Qed.

Lemma contains_from_index σ xs x n :
  Forall (λ y, conforms σ y = true) xs →
  (contains_from σ xs x = Normal true
   ∧ ∃ i, index_from σ xs x n = Normal (n + i) ∧ first_match σ xs x i)
  ∨ (contains_from σ xs x = Normal false
     ∧ index_from σ xs x n = Raised (ValueError_not_in_list x)
     ∧ Forall (λ y, item_matches σ y x = Some false) xs).
Proof.
  intros Hxs.
  destruct (contains_from_cases σ xs x Hxs) as [[Hc (y & Hy & Hm)]|[Hc Hno]];
    destruct (index_from_cases σ xs x n Hxs) as [Hidx|[Hidx Hno']].
  - by left.
  - rewrite Forall_forall in Hno'. specialize (Hno' y Hy). congruence.
  - destruct Hidx as (i & _ & item & Hi & Hm & _).
    rewrite Forall_forall in Hno.
    specialize (Hno item (list_elem_of_lookup_2 _ _ _ Hi)). congruence.
  - by right.
Qed.

Lemma contains_from_member σ xs x :
  Forall (λ y, conforms σ y = true) xs →
  x ∈ xs → contains_from σ xs x = Normal true.
Proof.
  intros Hxs Hx.
  destruct (contains_from_cases σ xs x Hxs) as [[Hc _]|[_ Hno]]; [done|].
  rewrite Forall_forall in Hno. specialize (Hno x Hx).
  unfold item_matches in Hno. by rewrite decide_True in Hno.
Qed.

Lemma contains_from_only_itself σ xs x :
  Forall (λ y, conforms σ y = true) xs →
  only_itself σ xs x →
  contains_from σ xs x = Normal (bool_decide (x ∈ xs)).
Proof.
  intros Hxs Hid.
  destruct (contains_from_cases σ xs x Hxs) as [[Hc (y & Hy & Hm)]|[Hc Hno]];
    rewrite Hc; f_equal; symmetry.
  - apply bool_decide_eq_true_2.
    rewrite (item_matches_only_itself σ xs y x Hid Hy) in Hm.
    injection Hm as Hm. by apply bool_decide_eq_true in Hm as <-.
  - apply bool_decide_eq_false_2. intros Hx.
    rewrite Forall_forall in Hno. specialize (Hno x Hx).
    unfold item_matches in Hno. by rewrite decide_True in Hno.
Qed.

Lemma index_from_app σ xs more x n k :
  index_from σ xs x n = Normal k → index_from σ (xs ++ more) x n = Normal k.
Proof.
  revert n. induction xs as [|y xs IH]; intros n; simpl; [done|].
  destruct (item_matches σ y x) as [[|]|]; [done| |done]. apply IH.
Qed.

Lemma index_from_frame σ σ' xs x n :
  frame σ σ' →
  Forall (λ y, conforms σ y = true) xs →
  denotes σ x →
  index_from σ' xs x n = index_from σ xs x n.
Proof.
  intros Hf Hxs Hx. revert n.
  induction Hxs as [|y xs Hy _ IH]; intros n; simpl; [done|].
  rewrite (item_matches_frame σ σ' y x Hf (conforms_denotes _ _ Hy) Hx).
  by rewrite IH.
Qed.

Lemma only_itself_frame σ σ' xs x :
  frame σ σ' →
  Forall (λ y, conforms σ y = true) xs →
  denotes σ x →
  only_itself σ xs x → only_itself σ' xs x.
Proof.
  intros Hf Hxs Hx Hid y Hy Hne. rewrite Forall_forall in Hxs.
  rewrite (py_eq_frame σ σ' y x Hf (conforms_denotes _ _ (Hxs y Hy)) Hx).
  by apply Hid.
Qed.

Lemma only_itself_sub σ xs xs' x :
  (∀ y, y ∈ xs' → y ∈ xs) → only_itself σ xs x → only_itself σ xs' x.
Proof. intros Hsub Hid y Hy. apply Hid. by apply Hsub. Qed.

(** An item that nothing before it matches is found where it stands. *)
Lemma index_from_middle σ pre x post n :
  Forall (λ y, item_matches σ y x = Some false) pre →
  index_from σ (pre ++ x :: post) x n = Normal (n + length pre).
Proof.
  intros Hpre. revert n.
  induction Hpre as [|y pre Hy _ IH]; intros n; simpl.
  - unfold item_matches. rewrite decide_True by done. f_equal. lia.
  - rewrite Hy, IH. f_equal. lia.
Qed.

Lemma length_delete_eq {A B} (xs : list A) (ys : list B) i :
  length xs = length ys → length (delete i xs) = length (delete i ys).
Proof.
  revert ys i. induction xs as [|x xs IH]; intros [|y ys] i Hlen;
    simplify_eq/=; [by destruct i|].
  destruct i as [|i]; simpl; [done|]. f_equal. by apply IH.
Qed.

Lemma try_except_normal {A} (m : M A) c h σ a σ' :
  m σ = (Normal a, σ') → try_except m c h σ = (Normal a, σ').
Proof. unfold try_except. by intros ->. Qed.

Lemma try_except_caught {A} (m : M A) c h σ e σ' d :
  m σ = (Raised e, σ') → error_class σ' e = Some d → issubclass d c = true →
  try_except m c h σ = h σ'.
Proof. unfold try_except. by intros -> -> ->. Qed.

Lemma remove_run σ self o msg le ls xs ys x i :
  heap σ !! self = Some (OExc o) →
  o_dict o !! "message" = Some msg →
  o_dict o !! "exceptions" = Some (VRef le) →
  o_dict o !! "sources" = Some (VRef ls) →
  heap σ !! le = Some (OList xs) →
  heap σ !! ls = Some (OList ys) →
  Forall (λ x, conforms σ x = true) xs →
  length xs = length ys →
  index_from σ xs x 0 = Normal i →
  ∃ g t1 t2 l1 l2,
    heap σ !! g = None ∧ heap σ !! t1 = None ∧ heap σ !! t2 = None
    ∧ heap σ !! l1 = None ∧ heap σ !! l2 = None
    ∧ NoDup [g; t1; t2; l1; l2]
    ∧ ExceptionGroup.remove self x σ
      = (Normal g,
         upd g (OExc (copied_object o msg (VRef t1) (VRef t2) l1 l2))
           (upd l2 (OList (delete i ys))
              (upd l1 (OList (delete i xs))
                 (upd t2 (OList (delete i ys))
                    (upd t1 (OList (delete i xs)) σ))))).
Proof.
  intros Hself Hm He Hs Hle Hls Hxs Hlen Hidx.
  destruct (ExceptionGroup.remove self x σ) as [r σ'] eqn:Hrun.
  revert Hrun. unfold ExceptionGroup.remove.
  mstep ltac:(
    apply try_except_normal;
    unfold ExceptionGroup.exceptions_of;
    mstep ltac:(eapply list_attr_run; [lookup|done|lookup]);
    unfold list_index; rewrite Hidx; reflexivity).
  mstep ltac:(apply load_exc_run; lookup).
  mstep ltac:(eapply getattr_run; [lookup|done]).
  unfold ExceptionGroup.exceptions_of at 1.
  mstep ltac:(eapply list_attr_run; [lookup|done|lookup]).
  unfold ExceptionGroup.exceptions_of at 1.
  mstep ltac:(eapply list_attr_run; [lookup|done|lookup]).
  mstep ltac:(apply new_list_run).
  name_fresh t1 Ht1.
  unfold ExceptionGroup.sources_of at 1.
  mstep ltac:(eapply list_attr_run; [lookup|done|lookup]).
  unfold ExceptionGroup.sources_of at 1.
  mstep ltac:(eapply list_attr_run; [lookup|done|lookup]).
  mstep ltac:(apply new_list_run).
  name_fresh t2 Ht2. apply heap_upd_None in Ht2 as [? Ht2].
  replace (i + 1) with (S i) by lia. rewrite <- !delete_take_drop.
  set (σ2 := upd t2 _ (upd t1 _ σ)).
  assert (extends σ σ2) as Hext by (subst σ2; ext).
  destruct (new_run_ok σ2 (o_class o) msg t1 t2 (delete i xs) (delete i ys))
    as (g & l1 & l2 & Hg & Hl1 & Hl2 & ? & ? & ? & Hnew).
  { subst σ2. lookup. }
  { subst σ2. lookup. }
  { eapply conforms_extends; [done|]. by apply Forall_delete. }
  { by apply length_delete_eq. }
  subst σ2.
  do 2 (apply heap_upd_None in Hg as [? Hg]).
  do 2 (apply heap_upd_None in Hl1 as [? Hl1]).
  do 2 (apply heap_upd_None in Hl2 as [? Hl2]).
  mstep ltac:(exact Hnew).
  mstep ltac:(eapply copy_magic_run; [congruence | lookup | lookup]).
  intros [= <- <-]. exists g, t1, t2, l1, l2. split_and!; [done..| |].
  - nodup.
  - f_equal. unfold copied_object, new_object. obj_simpl. state_eq.
Qed.

Lemma remove_run_missing σ self o le xs x :
  heap σ !! self = Some (OExc o) →
  o_dict o !! "exceptions" = Some (VRef le) →
  heap σ !! le = Some (OList xs) →
  index_from σ xs x 0 = Raised (ValueError_not_in_list x) →
  ExceptionGroup.remove self x σ
  = (Raised (ValueError_not_contained x self), σ).
Proof.
  intros Hself He Hle Hidx. unfold ExceptionGroup.remove.
  apply bind_raised.
  apply (try_except_caught _ _ _ _ (ValueError_not_in_list x) σ ValueError);
    [|reflexivity|reflexivity].
  unfold ExceptionGroup.exceptions_of.
  mstep ltac:(eapply list_attr_run; [lookup|done|lookup]).
  unfold list_index. by rewrite Hidx.
Qed.

(** ** Groups in a store *)

Lemma group_dict_message msg l1 l2 :
  group_dict msg l1 l2 !! "message" = Some msg.
Proof. done. Qed.

Lemma group_dict_exceptions msg l1 l2 :
  group_dict msg l1 l2 !! "exceptions" = Some (VRef l1).
Proof. done. Qed.

Lemma group_dict_sources msg l1 l2 :
  group_dict msg l1 l2 !! "sources" = Some (VRef l2).
Proof. done. Qed.

(** A group whose instance dictionary is [group_dict msg l1 l2]. *)
Lemma group_at_dict σ g o msg l1 l2 xs ys :
  heap σ !! g = Some (OExc o) →
  o_dict o = group_dict msg l1 l2 →
  heap σ !! l1 = Some (OList xs) →
  heap σ !! l2 = Some (OList ys) →
  Forall (λ x, conforms σ x = true) xs →
  length xs = length ys →
  group_at σ g msg xs ys.
Proof.
  intros Hg Hd Hl1 Hl2 Hxs Hlen.
  eapply (group_at_intro σ g o msg l1 l2); try done; rewrite Hd.
  - apply group_dict_message.
  - apply group_dict_exceptions.
  - apply group_dict_sources.
Qed.

Lemma frame_lookup σ σ' l x :
  frame σ σ' → heap σ !! l = Some x → heap σ' !! l = Some x.
Proof. intros [Hh _] Hl. rewrite Hh; [done|]. by exists x. Qed.

(** ** Construction *)

Lemma mutate_list_run σ l xs ys :
  heap σ !! l = Some (OList xs) → mutate_list l ys σ = upd l (OList ys) σ.
Proof. unfold mutate_list. by intros ->. Qed.

(** C5.  Given a list object of children that are all instances of
    [BaseException] and a list object of sources of the same length, the
    call of the class returns a new group whose message is the argument and
    whose children and sources are the items of the two lists, in order.
    The lists of the instance are copies: whatever items the caller then
    assigns to the two original list objects, the children and the sources
    of the instance stay as they were. *)
Theorem construct_copies σ c msg le ls xs ys :
  heap σ !! le = Some (OList xs) →
  heap σ !! ls = Some (OList ys) →
  Forall (λ x, conforms σ x = true) xs →
  length xs = length ys →
  ∃ g σ',
    ExceptionGroup.new c msg (VRef le) (VRef ls) σ = (Normal g, σ')
    ∧ heap σ !! g = None
    ∧ message σ' g = Some msg
    ∧ exceptions σ' g = Some xs
    ∧ sources σ' g = Some ys
    ∧ ∀ xs' ys',
        let σ'' := mutate_list ls ys' (mutate_list le xs' σ') in
        heap σ'' !! ls = Some (OList ys')
        ∧ (le ≠ ls → heap σ'' !! le = Some (OList xs'))
        ∧ message σ'' g = Some msg
        ∧ exceptions σ'' g = Some xs
        ∧ sources σ'' g = Some ys.
Proof.
  intros Hle Hls Hxs Hlen.
  destruct (new_run_ok σ c msg le ls xs ys)
    as (g & l1 & l2 & Hg & Hl1 & Hl2 & ? & ? & ? & Hnew); [done..|].
  eexists g, _. split; [exact Hnew|]. split; [done|].
  set (σ' := upd g _ _).
  assert (extends σ σ') as Hext by (subst σ'; ext).
  assert (group_at σ' g msg xs ys) as (Hm & Hx & Hy & _).
  { eapply (group_at_dict σ' g _ msg l1 l2); subst σ';
      [lookup|reflexivity|lookup|lookup| |done].
    by eapply conforms_extends. }
  split_and!; [done..|].
  intros xs' ys' σ''.
  assert (∃ zs, heap (mutate_list le xs' σ') !! ls = Some (OList zs))
    as [zs Hzs].
  { rewrite (mutate_list_run _ _ xs) by (subst σ'; lookup).
    destruct (decide (le = ls)) as [->|Hne].
    - exists xs'. lookup.
    - exists ys. subst σ'. lookup. }
  assert (σ'' = upd ls (OList ys') (upd le (OList xs') σ')) as Hσ''.
  { subst σ''. rewrite (mutate_list_run _ _ zs) by done.
    by rewrite (mutate_list_run _ _ xs) by (subst σ'; lookup). }
  assert (group_at σ'' g msg xs ys) as (Hm' & Hx' & Hy' & _).
  { eapply (group_at_dict σ'' g _ msg l1 l2);
      [rewrite Hσ''; subst σ'; lookup | reflexivity
      |rewrite Hσ''; subst σ'; lookup | rewrite Hσ''; subst σ'; lookup
      | | done].
    eapply conforms_extends; [|exact Hxs].
    eapply extends_trans; [exact Hext|]. subst σ''.
    eapply extends_trans; apply extends_mutate. }
  split_and!; try done.
  - rewrite Hσ''. lookup.
  - intros Hne. rewrite Hσ''. lookup.
Qed.

Lemma construct_copies_witness :
  heap test_store !! 4%positive = Some (OList [VRef 1; VRef 2])
  ∧ heap test_store !! 3%positive = Some (OList [VStr "A"; VStr "B"])
  ∧ Forall (λ x, conforms test_store x = true) [VRef 1; VRef 2]
  ∧ ∃ g σ',
      ExceptionGroup.new ExceptionGroupClass (VStr "many error.")
        (VRef 4) (VRef 3) test_store = (Normal g, σ')
      ∧ exceptions σ' g = Some [VRef 1; VRef 2]
      ∧ sources σ' g = Some [VStr "A"; VStr "B"]
      ∧ heap (mutate_list 3 [] (mutate_list 4 [] σ')) !! 4%positive
        = Some (OList [])
      ∧ exceptions (mutate_list 3 [] (mutate_list 4 [] σ')) g
        = Some [VRef 1; VRef 2].
Proof.
  assert (Forall (λ x, conforms test_store x = true) [VRef 1; VRef 2]) as Hc
    by (repeat constructor).
  split_and!; [reflexivity | reflexivity | exact Hc |].
  destruct (construct_copies test_store ExceptionGroupClass (VStr "many error.")
              4 3 [VRef 1; VRef 2] [VStr "A"; VStr "B"]
              eq_refl eq_refl Hc eq_refl)
    as (g & σ' & Hnew & _ & _ & Hx & Hy & Hmut).
  exists g, σ'. split_and!; [exact Hnew | exact Hx | exact Hy | |].
  - destruct (Hmut [] []) as (_ & Hle & _). by apply Hle.
  - by destruct (Hmut [] []) as (_ & _ & _ & Hx' & _).
Defined.

Lemma first_bad σ (xs : list value) :
  Exists (λ x, conforms σ x = false) xs →
  ∃ pre v post, xs = pre ++ v :: post
                ∧ Forall (λ x, conforms σ x = true) pre
                ∧ conforms σ v = false.
Proof.
  intros Hex. destruct (first_bad_or_all σ xs) as [Hall|Hbad]; [|done].
  apply Exists_exists in Hex as (x & Hx & Hbad).
  rewrite Forall_forall in Hall. specialize (Hall x Hx). congruence.
Qed.

(** C6, as the code has it.  When some child is not an instance of
    [BaseException], the call fails with the [TypeError] that names the
    first such child, whatever is passed as sources.  When every child
    conforms and the numbers of children and sources differ, it fails with
    the [ValueError] that reports both numbers.  In either case no instance
    is returned and every object that existed before the call is
    unchanged.  (With a non-conforming child and different lengths the
    failure is the [TypeError], so the length mismatch is not reported for
    all contents.) *)
Theorem construct_fails σ c msg le xs :
  heap σ !! le = Some (OList xs) →
  Forall (denotes σ) xs →
  (Exists (λ x, conforms σ x = false) xs →
   ∃ pre v post,
     xs = pre ++ v :: post
     ∧ Forall (λ x, conforms σ x = true) pre
     ∧ conforms σ v = false
     ∧ ∀ sources, ∃ σ',
         ExceptionGroup.new c msg (VRef le) sources σ
         = (Raised (TypeError_expected_exception v), σ')
         ∧ frame σ σ')
  ∧ (∀ ls ys,
       Forall (λ x, conforms σ x = true) xs →
       heap σ !! ls = Some (OList ys) →
       length xs ≠ length ys →
       ∃ σ',
         ExceptionGroup.new c msg (VRef le) (VRef ls) σ
         = (Raised (ValueError_different_number (length ys) (length xs)), σ')
         ∧ frame σ σ').
Proof.
  intros Hle Hden. split.
  - intros Hex. destruct (first_bad σ xs Hex) as (pre & v & post & -> & Hpre & Hv).
    exists pre, v, post. split_and!; [done..|].
    intros sources. apply (new_run_TypeError σ c msg le sources pre v post);
      try done.
    rewrite Forall_forall in Hden. apply Hden.
    apply elem_of_app. right. by left.
  - intros ls ys Hall Hls Hlen. by apply new_run_ValueError.
Qed.

Lemma construct_fails_witness :
  (∃ σ', ExceptionGroup.new ExceptionGroupClass (VStr "error")
           (VRef 5) (VRef 3) test_store
         = (Raised (TypeError_expected_exception (VStr "error2")), σ')
         ∧ frame test_store σ')
  ∧ (∃ σ', ExceptionGroup.new ExceptionGroupClass (VStr "many error.")
             (VRef 4) (VRef 6) test_store
           = (Raised (ValueError_different_number 1 2), σ')
           ∧ frame test_store σ').
Proof.
  split.
  - destruct (construct_fails test_store ExceptionGroupClass (VStr "error") 5
                [VRef 1; VStr "error2"] eq_refl) as [Hbad _].
    { repeat constructor; by eexists. }
    destruct Hbad as (pre & v & post & Heq & Hpre & Hv & Hrun).
    { apply Exists_cons_tl, Exists_cons_hd. reflexivity. }
    destruct pre as [|x [|y pre]]; simplify_eq/=;
      [apply Hrun | by destruct pre].
  - destruct (construct_fails test_store ExceptionGroupClass (VStr "many error.")
                4 [VRef 1; VRef 2] eq_refl) as [_ Hlen].
    { repeat constructor; by eexists. }
    apply (Hlen 6%positive [VStr "A"]).
    + by repeat constructor.
    + reflexivity.
    + simpl. lia.
Defined.

(** C6 as stated fails: with a child that is not an exception and lists of
    different lengths the failure is not the [ValueError]. *)
Lemma length_mismatch_not_always_reported :
  ¬ length_mismatch_always_reported test_store ExceptionGroupClass (VStr "error")
      5 6 [VRef 1; VStr "error2"] [VStr "A"].
Proof.
  intros H. specialize (H eq_refl eq_refl).
  assert (length [VRef 1; VStr "error2"] ≠ length [VStr "A"]) as Hlen
    by (simpl; lia).
  specialize (H Hlen). vm_compute in H. discriminate H.
Qed.

(** C9.  When some child is not an instance of [BaseException] and the
    numbers of children and sources differ, the failure is the [TypeError]
    for the first such child, not the [ValueError]: the loop over the
    children comes before the sources are even read, so the outcome is the
    same for every value passed as sources. *)
Theorem invalid_member_takes_precedence σ c msg le ls xs ys :
  heap σ !! le = Some (OList xs) →
  heap σ !! ls = Some (OList ys) →
  Forall (denotes σ) xs →
  Exists (λ x, conforms σ x = false) xs →
  length xs ≠ length ys →
  ∃ v σ',
    v ∈ xs
    ∧ conforms σ v = false
    ∧ ExceptionGroup.new c msg (VRef le) (VRef ls) σ
      = (Raised (TypeError_expected_exception v), σ')
    ∧ ∀ sources,
        (ExceptionGroup.new c msg (VRef le) sources σ).1
        = Raised (TypeError_expected_exception v).
Proof.
  intros Hle Hls Hden Hex Hlen.
  destruct (first_bad σ xs Hex) as (pre & v & post & -> & Hpre & Hv).
  assert (denotes σ v) as Hdv.
  { rewrite Forall_forall in Hden. apply Hden.
    apply elem_of_app. right. by left. }
  destruct (new_run_TypeError σ c msg le (VRef ls) pre v post)
    as (σ' & Hrun & _); [done..|].
  exists v, σ'. split_and!; [|done..|].
  - apply elem_of_app. right. by left.
  - intros sources.
    destruct (new_run_TypeError σ c msg le sources pre v post)
      as (σ1 & Hrun1 & _); [done..|].
    by rewrite Hrun1.
Qed.

Lemma invalid_member_takes_precedence_witness :
  length [VRef 1; VStr "error2"] ≠ length [VStr "A"]
  ∧ ∃ v σ',
      ExceptionGroup.new ExceptionGroupClass (VStr "error") (VRef 5) (VRef 6)
        test_store
      = (Raised (TypeError_expected_exception v), σ').
Proof.
  assert (length [VRef 1; VStr "error2"] ≠ length [VStr "A"]) as Hlen
    by (simpl; lia).
  split; [exact Hlen|].
  destruct (invalid_member_takes_precedence test_store ExceptionGroupClass
              (VStr "error") 5 6 [VRef 1; VStr "error2"] [VStr "A"]
              eq_refl eq_refl)
    as (v & σ' & _ & _ & Hrun & _).
  - repeat constructor; by eexists.
  - apply Exists_cons_tl, Exists_cons_hd. reflexivity.
  - exact Hlen.
  - by exists v, σ'.
Defined.

(** ** The invariant of the class *)

Lemma bind_Normal_inv {A B} (m : M A) (k : A → M B) σ b σ' :
  bind m k σ = (Normal b, σ') →
  ∃ a σ1, m σ = (Normal a, σ1) ∧ k a σ1 = (Normal b, σ').
Proof.
  unfold bind. destruct (m σ) as [[a|e|] σ1]; [|done..]. eauto.
Qed.

Lemma load_exc_inv σ l o σ' :
  load_exc l σ = (Normal o, σ') → σ' = σ ∧ heap σ !! l = Some (OExc o).
Proof.
  unfold load_exc. destruct (heap σ !! l) as [[ys|o']|]; [done| |done].
  by intros [= <- <-].
Qed.

Lemma getattr_inv σ l name v σ' :
  getattr l name σ = (Normal v, σ') → σ' = σ.
Proof.
  unfold getattr. intros H.
  apply bind_Normal_inv in H as (o & σ1 & Ho & H).
  apply load_exc_inv in Ho as [-> _].
  destruct (o_dict o !! name); [|done]. by injection H as _ <-.
Qed.

Lemma items_of_inv σ v xs σ' :
  items_of v σ = (Normal xs, σ') → σ' = σ.
Proof.
  unfold items_of. destruct v as [| | | |l]; try done.
  destruct (heap σ !! l) as [[ys|o']|]; [|done..]. by intros [= _ <-].
Qed.

Lemma list_attr_inv σ g name xs σ' :
  (let* v := getattr g name in items_of v) σ = (Normal xs, σ') → σ' = σ.
Proof.
  intros H. apply bind_Normal_inv in H as (v & σ1 & Hv & H).
  apply getattr_inv in Hv as ->. by apply items_of_inv in H.
Qed.

Lemma slot_write_list_attr l σ σ' g name :
  slot_write l σ σ' →
  returns (let* v := getattr g name in items_of v) σ'
  = returns (let* v := getattr g name in items_of v) σ.
Proof.
  intros (o & o' & Hl & Hd & ->).
  unfold returns, getattr, bind, load_exc, items_of.
  destruct (decide (l = g)) as [->|Hne].
  - rewrite heap_upd_eq, Hl, Hd.
    destruct (o_dict o !! name) as [[| | | |k]|]; simpl; try done.
    destruct (decide (g = k)) as [->|Hne].
    + by rewrite lookup_insert_eq, Hl.
    + rewrite lookup_insert_ne by done.
      by destruct (heap σ !! k) as [[zs|ok]|].
  - rewrite heap_upd_ne by done.
    destruct (heap σ !! g) as [[ys|og]|]; try done.
    destruct (o_dict og !! name) as [[| | | |k]|]; simpl; try done.
    destruct (decide (l = k)) as [->|Hnek].
    + by rewrite lookup_insert_eq, Hl.
    + rewrite lookup_insert_ne by done.
      by destruct (heap σ !! k) as [[zs|ok]|].
Qed.

Lemma slot_write_same_length l σ σ' g :
  slot_write l σ σ' → same_length σ g → same_length σ' g.
Proof.
  intros Hw (xs & ys & Hx & Hy & Hlen). exists xs, ys.
  unfold exceptions, sources, ExceptionGroup.exceptions_of,
    ExceptionGroup.sources_of in *.
  by rewrite !(slot_write_list_attr _ _ _ _ _ Hw).
Qed.

Lemma store_slot_inv σ l (f : exc_obj → exc_obj) σ' :
  (∀ o, o_dict (f o) = o_dict o) →
  (let* o := load_exc l in store_exc l (f o)) σ = (Normal tt, σ') →
  slot_write l σ σ'.
Proof.
  intros Hf H. apply bind_Normal_inv in H as (o & σ1 & Ho & H).
  apply load_exc_inv in Ho as [-> Ho]. injection H as <-.
  exists o, (f o). by split_and!.
Qed.

Lemma set_traceback_inv σ l t σ' :
  set_traceback l t σ = (Normal tt, σ') → slot_write l σ σ'.
Proof.
  apply (store_slot_inv σ l
           (λ o, ExcObj (o_class o) (o_args o) t (o_context o) (o_cause o)
                        (o_suppress_context o) (o_dict o))).
  done.
Qed.

Lemma set_context_inv σ l c σ' :
  set_context l c σ = (Normal tt, σ') → slot_write l σ σ'.
Proof.
  apply (store_slot_inv σ l
           (λ o, ExcObj (o_class o) (o_args o) (o_traceback o) c (o_cause o)
                        (o_suppress_context o) (o_dict o))).
  done.
Qed.

Lemma set_cause_inv σ l c σ' :
  set_cause l c σ = (Normal tt, σ') → slot_write l σ σ'.
Proof.
  apply (store_slot_inv σ l
           (λ o, ExcObj (o_class o) (o_args o) (o_traceback o) (o_context o)
                        c true (o_dict o))).
  done.
Qed.

Lemma set_suppress_context_inv σ l b σ' :
  set_suppress_context l b σ = (Normal tt, σ') → slot_write l σ σ'.
Proof.
  apply (store_slot_inv σ l
           (λ o, ExcObj (o_class o) (o_args o) (o_traceback o) (o_context o)
                        (o_cause o) b (o_dict o))).
  done.
Qed.

Lemma copy_magic_same_length σ self dst u σ' g :
  ExceptionGroup._copy_magic_attrs self dst σ = (Normal u, σ') →
  same_length σ g → same_length σ' g.
Proof.
  unfold ExceptionGroup._copy_magic_attrs. destruct u. intros H Hg.
  apply bind_Normal_inv in H as (o1 & σ1 & H1 & H).
  apply load_exc_inv in H1 as [-> _].
  apply bind_Normal_inv in H as ([] & σ2 & H2 & H).
  apply set_traceback_inv in H2.
  apply bind_Normal_inv in H as (o3 & σ3 & H3 & H).
  apply load_exc_inv in H3 as [-> _].
  apply bind_Normal_inv in H as ([] & σ4 & H4 & H).
  apply set_context_inv in H4.
  apply bind_Normal_inv in H as (o5 & σ5 & H5 & H).
  apply load_exc_inv in H5 as [-> _].
  apply bind_Normal_inv in H as ([] & σ6 & H6 & H).
  apply set_cause_inv in H6.
  apply bind_Normal_inv in H as (o7 & σ7 & H7 & H).
  apply load_exc_inv in H7 as [-> _].
  apply set_suppress_context_inv in H.
  eauto using slot_write_same_length.
Qed.

(** The last statement of [__init__] compares the two lengths. *)
Lemma init_same_length σ self msg ve vs σ' :
  ExceptionGroup.__init__ self msg ve vs σ = (Normal tt, σ') →
  same_length σ' self.
Proof.
  unfold ExceptionGroup.__init__. intros H.
  do 8 (apply bind_Normal_inv in H as (? & ? & _ & H)).
  apply bind_Normal_inv in H as (ys & σ1 & Hy & H).
  pose proof (list_attr_inv _ _ _ _ _ Hy) as ->.
  apply bind_Normal_inv in H as (xs & σ2 & Hx & H).
  pose proof (list_attr_inv _ _ _ _ _ Hx) as ->.
  destruct (length ys =? length xs)%nat eqn:Hlen; [|done].
  injection H as <-. apply Nat.eqb_eq in Hlen.
  exists xs, ys. unfold exceptions, sources, returns.
  by rewrite Hx, Hy.
Qed.

Lemma new_same_length σ c msg ve vs g σ' :
  ExceptionGroup.new c msg ve vs σ = (Normal g, σ') → same_length σ' g.
Proof.
  unfold ExceptionGroup.new. intros H.
  apply bind_Normal_inv in H as (self & σ1 & _ & H).
  apply bind_Normal_inv in H as ([] & σ2 & Hinit & H).
  injection H as <- <-. by eapply init_same_length.
Qed.

(** The methods that return a group end with a call of the class followed
    by [_copy_magic_attrs]. *)
Ltac invert_to_new H :=
  repeat (apply bind_Normal_inv in H as (? & ? & ? & H));
  injection H as <- <-;
  lazymatch goal with
  | Hnew : ExceptionGroup.new _ _ _ _ _ = _,
    Hcopy : ExceptionGroup._copy_magic_attrs _ _ _ = _ |- _ =>
      apply new_same_length in Hnew;
      destruct_and?; simplify_eq;
      exact (copy_magic_same_length _ _ _ _ _ _ Hcopy Hnew)
  end.

(** C7.  Every group that an operation returns has as many sources as
    children: this holds for the result of every successful call of the
    class, and for every group that [add], [remove] and [__copy__] return,
    from any store. *)
Theorem same_length_invariant σ σ' g' :
  (∀ c msg exceptions sources,
     ExceptionGroup.new c msg exceptions sources σ = (Normal g', σ') →
     same_length σ' g')
  ∧ (∀ g x s,
       ExceptionGroup.add g x s σ = (Normal g', σ') → same_length σ' g')
  ∧ (∀ g x,
       ExceptionGroup.remove g x σ = (Normal g', σ') → same_length σ' g')
  ∧ (∀ g,
       ExceptionGroup.__copy__ g σ = (Normal g', σ') → same_length σ' g').
Proof.
  split_and!.
  - intros c msg ve vs H. by eapply new_same_length.
  - intros g x s H. unfold ExceptionGroup.add in H. invert_to_new H.
  - intros g x H. unfold ExceptionGroup.remove in H. invert_to_new H.
  - intros g H. unfold ExceptionGroup.__copy__ in H. invert_to_new H.
Qed.

Lemma same_length_invariant_witness :
  (∃ g' σ',
     ExceptionGroup.new ExceptionGroupClass (VStr "many error.")
       (VRef 4) (VRef 3) test_store = (Normal g', σ')
     ∧ same_length σ' g')
  ∧ (∃ g' σ',
       ExceptionGroup.add 7 (VRef 5) (VStr "C") group_store
       = (Normal g', σ')
       ∧ same_length σ' g')
  ∧ (∃ g' σ',
       ExceptionGroup.remove 7 (VRef 2) group_store = (Normal g', σ')
       ∧ same_length σ' g')
  ∧ (∃ g' σ',
       ExceptionGroup.__copy__ 7 group_store = (Normal g', σ')
       ∧ same_length σ' g').
Proof.
  split_and!.
  - destruct (ExceptionGroup.new ExceptionGroupClass (VStr "many error.")
                (VRef 4) (VRef 3) test_store) as [[g'|e|] σ'] eqn:Hrun;
      [|vm_compute in Hrun; discriminate Hrun..].
    exists g', σ'. split; [reflexivity|].
    destruct (same_length_invariant test_store σ' g') as (Hn & _).
    exact (Hn _ _ _ _ Hrun).
  - destruct (ExceptionGroup.add 7 (VRef 5) (VStr "C") group_store)
      as [[g'|e|] σ'] eqn:Hrun; [|vm_compute in Hrun; discriminate Hrun..].
    exists g', σ'. split; [reflexivity|].
    destruct (same_length_invariant group_store σ' g') as (_ & Ha & _).
    exact (Ha _ _ _ Hrun).
  - destruct (ExceptionGroup.remove 7 (VRef 2) group_store)
      as [[g'|e|] σ'] eqn:Hrun; [|vm_compute in Hrun; discriminate Hrun..].
    exists g', σ'. split; [reflexivity|].
    destruct (same_length_invariant group_store σ' g') as (_ & _ & Hr & _).
    exact (Hr _ _ Hrun).
  - destruct (ExceptionGroup.__copy__ 7 group_store)
      as [[g'|e|] σ'] eqn:Hrun; [|vm_compute in Hrun; discriminate Hrun..].
    exists g', σ'. split; [reflexivity|].
    destruct (same_length_invariant group_store σ' g') as (_ & _ & _ & Hc).
    exact (Hc _ Hrun).
Defined.

(** ** What the operations return *)


Lemma add_spec σ g o msg xs ys x s :
  heap σ !! g = Some (OExc o) →
  group_at σ g msg xs ys →
  conforms σ x = true →
  ∃ g' σ',
    ExceptionGroup.add g x s σ = (Normal g', σ')
    ∧ taken_from o msg (xs ++ [x]) (ys ++ [s]) σ σ' g'
    ∧ group_at σ' g' msg (xs ++ [x]) (ys ++ [s])
    ∧ frame σ σ'.
Proof.
  intros Hg Hgrp Hx.
  pose proof Hgrp as (_ & _ & _ & Hxs & Hlen).
  apply group_at_inv in Hgrp as (o1 & le & ls & Hg1 & Hm & He & Hs & Hle & Hls).
  simplify_eq.
  destruct (add_run σ g o msg le ls xs ys x s)
    as (g' & t1 & t2 & l1 & l2 & Hg' & Ht1 & Ht2 & Hl1 & Hl2 & Hnd & Hrun);
    [done..|].
  nodup_inv Hnd.
  eexists g', _. split; [exact Hrun|].
  set (σ' := upd g' _ _).
  assert (extends σ σ') as Hext by (subst σ'; ext).
  split_and!.
  - exists (copied_object o msg (VRef t1) (VRef t2) l1 l2).
    split_and!; [done | subst σ'; lookup | done..| |].
    + exists t1, t2. split_and!; [done | subst σ'; lookup..].
    + exists l1, l2. split_and!; [done..| subst σ'; lookup | subst σ'; lookup].
  - eapply (group_at_dict σ' g' _ msg l1 l2); subst σ';
      [lookup | reflexivity | lookup | lookup | | ].
    + eapply conforms_extends; [done|]. apply Forall_app. split; [done|].
      by constructor.
    + rewrite !length_app. simpl. lia.
  - subst σ'. repeat (apply frame_alloc; [|done]). apply frame_refl.
Qed.

Lemma remove_spec σ g o msg xs ys x i :
  heap σ !! g = Some (OExc o) →
  group_at σ g msg xs ys →
  index_from σ xs x 0 = Normal i →
  ∃ g' σ',
    ExceptionGroup.remove g x σ = (Normal g', σ')
    ∧ taken_from o msg (delete i xs) (delete i ys) σ σ' g'
    ∧ group_at σ' g' msg (delete i xs) (delete i ys)
    ∧ frame σ σ'.
Proof.
  intros Hg Hgrp Hidx.
  pose proof Hgrp as (_ & _ & _ & Hxs & Hlen).
  apply group_at_inv in Hgrp as (o1 & le & ls & Hg1 & Hm & He & Hs & Hle & Hls).
  simplify_eq.
  destruct (remove_run σ g o msg le ls xs ys x i)
    as (g' & t1 & t2 & l1 & l2 & Hg' & Ht1 & Ht2 & Hl1 & Hl2 & Hnd & Hrun);
    [done..|].
  nodup_inv Hnd.
  eexists g', _. split; [exact Hrun|].
  set (σ' := upd g' _ _).
  assert (extends σ σ') as Hext by (subst σ'; ext).
  split_and!.
  - exists (copied_object o msg (VRef t1) (VRef t2) l1 l2).
    split_and!; [done | subst σ'; lookup | done..| |].
    + exists t1, t2. split_and!; [done | subst σ'; lookup..].
    + exists l1, l2. split_and!; [done..| subst σ'; lookup | subst σ'; lookup].
  - eapply (group_at_dict σ' g' _ msg l1 l2); subst σ';
      [lookup | reflexivity | lookup | lookup | | ].
    + eapply conforms_extends; [done|]. by apply Forall_delete.
    + by apply length_delete_eq.
  - subst σ'. repeat (apply frame_alloc; [|done]). apply frame_refl.
Qed.

Lemma taken_from_chain o msg xs ys σ σ' g g' :
  heap σ !! g = Some (OExc o) →
  taken_from o msg xs ys σ σ' g' →
  chain_of σ' g' = chain_of σ g
  ∧ traceback_of σ' g' = traceback_of σ g.
Proof.
  intros Hg (o' & _ & Hg' & _ & Htb & Hctx & Hcause & Hsup & _).
  unfold chain_of, traceback_of, exc_at. rewrite Hg, Hg'. simpl.
  by rewrite Htb, Hctx, Hcause, Hsup.
Qed.

Lemma group_at_exc σ g msg xs ys :
  group_at σ g msg xs ys → ∃ o, heap σ !! g = Some (OExc o).
Proof.
  intros H. apply group_at_inv in H as (o & ? & ? & Hg & _). eauto.
Qed.

Lemma group_at_frame σ σ' g msg xs ys :
  frame σ σ' → extends σ σ' →
  group_at σ g msg xs ys → group_at σ' g msg xs ys.
Proof.
  intros Hf Hext Hgrp.
  pose proof Hgrp as (_ & _ & _ & Hxs & Hlen).
  apply group_at_inv in Hgrp as (o & le & ls & Hg & Hm & He & Hs & Hle & Hls).
  eapply (group_at_intro σ' g o msg le ls); eauto using frame_lookup.
  by eapply conforms_extends.
Qed.

Lemma frame_extends σ σ' : frame σ σ' → extends σ σ'.
Proof.
  intros [Hh _] [| | | |l] c; simpl; try done.
  destruct (heap σ !! l) as [x|] eqn:Hl; [|done].
  rewrite Hh by eauto. by rewrite Hl.
Qed.

(** ** The causal chain survives the copies *)

(** Assigning [__cause__] sets [__suppress_context__]: writing the flag
    before the cause would lose a flag that is [False]. *)
Lemma set_cause_sets_flag σ l o c :
  heap σ !! l = Some (OExc o) →
  ∃ σ', set_cause l c σ = (Normal tt, σ')
        ∧ chain_of σ' l = Some (c, o_context o, true).
Proof.
  intros Hl. eexists. split; [by apply set_cause_run|].
  unfold chain_of, exc_at. by rewrite heap_upd_eq.
Qed.




Lemma group_store_group :
  group_at group_store 7 (VStr "many error.") [VRef 1; VRef 2]
    [VStr "A"; VStr "B"].
Proof.
  apply (group_at_intro group_store 7 test_group (VStr "many error.") 8 9);
    try reflexivity.
  repeat constructor.
Qed.



(** ** Removal *)

Lemma contains_run σ g msg xs ys x :
  group_at σ g msg xs ys →
  ExceptionGroup.__contains__ g x σ = (contains_from σ xs x, σ).
Proof.
  intros Hgrp.
  apply group_at_inv in Hgrp as (o & le & ls & Hg & _ & He & _ & Hle & _).
  unfold ExceptionGroup.__contains__, ExceptionGroup.exceptions_of.
  by mstep ltac:(eapply list_attr_run; [lookup|done|lookup]).
Qed.

Lemma contains_true σ g msg xs ys x :
  group_at σ g msg xs ys → x ∈ xs →
  ExceptionGroup.__contains__ g x σ = (Normal true, σ).
Proof.
  intros Hgrp Hx. pose proof Hgrp as (_ & _ & _ & Hxs & _).
  rewrite (contains_run _ _ _ _ _ _ Hgrp).
  by rewrite contains_from_member.
Qed.

Lemma contains_only_itself σ g msg xs ys x :
  group_at σ g msg xs ys → only_itself σ xs x →
  ExceptionGroup.__contains__ g x σ = (Normal (bool_decide (x ∈ xs)), σ).
Proof.
  intros Hgrp Hid. pose proof Hgrp as (_ & _ & _ & Hxs & _).
  rewrite (contains_run _ _ _ _ _ _ Hgrp).
  by rewrite contains_from_only_itself.
Qed.

Lemma eq_store_group :
  group_at eq_store 7 (VStr "many error.") [VRef 1; VRef 2]
    [VStr "A"; VStr "B"].
Proof.
  apply (group_at_intro eq_store 7 test_group (VStr "many error.") 8 9);
    try reflexivity.
  repeat constructor.
Qed.

Lemma group_store_only_itself x :
  only_itself group_store [VRef 1; VRef 2] x.
Proof.
  apply only_itself_default; [reflexivity|].
  by destruct group_store_group as (_ & _ & _ & Hxs & _).
Qed.

(** C3.  [x in g] and [g.remove(x)] look [x] up with the test of [in]
    and [list.index]: an item matches when it is [x] or equal to [x].
    [x in g] answers whether some child matches, which is the case for
    every child.  When one does, [remove] returns a new group whose
    children and sources are those of the original without the position
    [i] of the first child that matches (before [i] the items stay where
    they are, from [i] on each item is the next one of the original),
    with the causal chain of the original; the original is as it was.
    When none does, [remove] fails with the [ValueError] that carries the
    value and the group, and the store is unchanged.  When no other child
    is equal to [x], as for the builtin exception classes, which compare
    by identity, [x in g] is membership in the list of children and the
    position removed is that of the first occurrence of [x]. *)
Theorem remove_first_occurrence σ g msg xs ys x :
  group_at σ g msg xs ys →
  ∃ present,
    ExceptionGroup.__contains__ g x σ = (Normal present, σ)
    ∧ (present = true ↔ ∃ y, y ∈ xs ∧ item_matches σ y x = Some true)
    ∧ (x ∈ xs → present = true)
    ∧ (only_itself σ xs x → present = bool_decide (x ∈ xs))
    ∧ (present = true →
       ∃ i g' σ' xs' ys',
         first_match σ xs x i
         ∧ (only_itself σ xs x →
            xs !! i = Some x ∧ ∀ j, j < i → xs !! j ≠ Some x)
         ∧ ExceptionGroup.remove g x σ = (Normal g', σ')
         ∧ g' ≠ g
         ∧ group_at σ' g' msg xs' ys'
         ∧ xs' = take i xs ++ drop (S i) xs
         ∧ ys' = take i ys ++ drop (S i) ys
         ∧ (∀ j, j < i → xs' !! j = xs !! j ∧ ys' !! j = ys !! j)
         ∧ (∀ j, (i ≤ j)%nat → xs' !! j = xs !! S j ∧ ys' !! j = ys !! S j)
         ∧ chain_of σ' g' = chain_of σ g
         ∧ group_at σ' g msg xs ys)
    ∧ (present = false →
       ExceptionGroup.remove g x σ
       = (Raised (ValueError_not_contained x g), σ)).
Proof.
  intros Hgrp.
  pose proof Hgrp as (_ & _ & _ & Hxs & _).
  destruct (group_at_exc _ _ _ _ _ Hgrp) as [o Hg].
  pose proof (contains_run _ _ _ _ _ x Hgrp) as Hrun.
  destruct (contains_from_index σ xs x 0 Hxs)
    as [[Hc (i & Hidx & Hfm)]|(Hc & Hidx & Hno)]; rewrite Hc in Hrun.
  - exists true. split; [done|]. split_and!.
    + split; [|done]. intros _. destruct Hfm as (item & Hi & Hm & _).
      exists item. split; [|done]. by eapply list_elem_of_lookup_2.
    + done.
    + intros Hid. symmetry. apply bool_decide_eq_true_2.
      destruct (first_match_only_itself σ xs x i Hid Hfm) as [Hi _].
      by eapply list_elem_of_lookup_2.
    + intros _.
      destruct (remove_spec σ g o msg xs ys x i)
        as (g' & σ' & Hrem & Htk & Hgrp' & Hframe); [done..|].
      exists i, g', σ', (delete i xs), (delete i ys).
      split_and!; try done.
      * intros Hid. exact (first_match_only_itself σ xs x i Hid Hfm).
      * destruct Htk as (? & Hfresh & _). congruence.
      * apply delete_take_drop.
      * apply delete_take_drop.
      * intros j Hj. by rewrite !list_lookup_delete_lt.
      * intros j Hj. by rewrite !list_lookup_delete_ge.
      * by destruct (taken_from_chain _ _ _ _ _ _ _ _ Hg Htk).
      * eapply group_at_frame; [done| |done]. by apply frame_extends.
    + done.
  - exists false. split; [done|]. split_and!.
    + split; [done|]. intros (y & Hy & Hm).
      rewrite Forall_forall in Hno. specialize (Hno y Hy). congruence.
    + intros Hx. rewrite Forall_forall in Hno. specialize (Hno x Hx).
      unfold item_matches in Hno. by rewrite decide_True in Hno.
    + intros Hid. symmetry. apply bool_decide_eq_false_2. intros Hx.
      rewrite Forall_forall in Hno. specialize (Hno x Hx).
      unfold item_matches in Hno. by rewrite decide_True in Hno.
    + done.
    + intros _.
      apply group_at_inv in Hgrp
        as (o1 & le & ls & Hg1 & _ & He & _ & Hle & _).
      by apply (remove_run_missing σ g o1 le xs x Hg1 He Hle).
Qed.

Lemma remove_first_occurrence_witness :
  group_at group_store 7 (VStr "many error.") [VRef 1; VRef 2]
    [VStr "A"; VStr "B"]
  ∧ (∃ g' σ',
       ExceptionGroup.remove 7 (VRef 1) group_store = (Normal g', σ')
       ∧ group_at σ' g' (VStr "many error.") [VRef 2] [VStr "B"])
  ∧ ExceptionGroup.remove 7 (VRef 3) group_store
    = (Raised (ValueError_not_contained (VRef 3) 7), group_store)
  ∧ (VRef 2 ∈ [VRef 1; VRef 2]
     ∧ item_matches eq_store (VRef 1) (VRef 2) = Some true
     ∧ ∃ g' σ',
         ExceptionGroup.remove 7 (VRef 2) eq_store = (Normal g', σ')
         ∧ group_at σ' g' (VStr "many error.") [VRef 2] [VStr "B"]).
Proof.
  pose proof group_store_group as Hgrp. split; [exact Hgrp|]. split_and!.
  - destruct (remove_first_occurrence group_store 7 _ _ _ (VRef 1) Hgrp)
      as (present & _ & _ & Hin & _ & Hmember & _).
    destruct Hmember
      as (i & g' & σ' & xs' & ys' & Hfm & _ & Hrun & _ & Hgrp'
          & -> & -> & _).
    { apply Hin. apply elem_of_cons. by left. }
    exists g', σ'. split; [exact Hrun|].
    destruct i as [|i]; [exact Hgrp'|].
    exfalso. destruct Hfm as (item & _ & _ & Hfirst).
    assert (item_matches group_store (VRef 1) (VRef 1) = Some true) as Hm
      by (vm_compute; reflexivity).
    rewrite (Hfirst 0 (VRef 1)) in Hm; [discriminate|lia|reflexivity].
  - destruct (remove_first_occurrence group_store 7 _ _ _ (VRef 3) Hgrp)
      as (present & _ & _ & _ & Hid & _ & Hmissing).
    apply Hmissing. rewrite Hid by apply group_store_only_itself.
    apply bool_decide_eq_false_2. intros Hin.
    rewrite !elem_of_cons, elem_of_nil in Hin.
    destruct Hin as [?|[?|[]]]; discriminate.
  - apply elem_of_cons. right. apply elem_of_cons. by left.
  - vm_compute. reflexivity.
  - destruct (remove_first_occurrence eq_store 7 _ _ _ (VRef 2)
                eq_store_group)
      as (present & _ & _ & Hin & _ & Hmember & _).
    destruct Hmember
      as (i & g' & σ' & xs' & ys' & Hfm & _ & Hrun & _ & Hgrp'
          & -> & -> & _).
    { apply Hin. apply elem_of_cons. right. apply elem_of_cons. by left. }
    exists g', σ'. split; [exact Hrun|].
    destruct i as [|i]; [exact Hgrp'|].
    exfalso. destruct Hfm as (item & _ & _ & Hfirst).
    assert (item_matches eq_store (VRef 1) (VRef 2) = Some true) as Hm
      by (vm_compute; reflexivity).
    rewrite (Hfirst 0 (VRef 1)) in Hm; [discriminate|lia|reflexivity].
Defined.

(** ** Adding, then removing *)

Lemma delete_last {A} (l : list A) x : delete (length l) (l ++ [x]) = l.
Proof. by rewrite delete_middle, app_nil_r. Qed.

(** C4.  For a group [g], an exception [x] that is not a member of [g]
    ([x in g] is [False]) and any source [s], removing [x] from [g.add(x,
    s)] succeeds and gives a group with the message, the children and the
    sources of [g]. *)
Theorem add_remove_round_trip σ g msg xs ys x s :
  group_at σ g msg xs ys →
  conforms σ x = true →
  ExceptionGroup.__contains__ g x σ = (Normal false, σ) →
  ∃ g1 σ1 g2 σ2,
    ExceptionGroup.add g x s σ = (Normal g1, σ1)
    ∧ ExceptionGroup.remove g1 x σ1 = (Normal g2, σ2)
    ∧ message σ2 g2 = Some msg
    ∧ exceptions σ2 g2 = Some xs
    ∧ sources σ2 g2 = Some ys.
Proof.
  intros Hgrp Hx Hnot.
  pose proof Hgrp as (_ & _ & _ & Hxs & Hlen).
  rewrite (contains_run _ _ _ _ _ _ Hgrp) in Hnot.
  injection Hnot as Hnot.
  assert (Forall (λ y, item_matches σ y x = Some false) xs) as Hno.
  { destruct (contains_from_cases σ xs x Hxs) as [[Hc _]|[_ Hno]];
      [congruence|done]. }
  destruct (group_at_exc _ _ _ _ _ Hgrp) as [o Hg].
  destruct (add_spec σ g o msg xs ys x s)
    as (g1 & σ1 & Hadd & Htk & Hgrp1 & Hframe); [done..|].
  destruct (group_at_exc _ _ _ _ _ Hgrp1) as [o1 Hg1].
  assert (index_from σ1 (xs ++ [x]) x 0 = Normal (length xs)) as Hidx.
  { apply (index_from_middle σ1 xs x [] 0).
    rewrite Forall_forall in Hno, Hxs. apply Forall_forall. intros y Hy.
    rewrite (item_matches_frame σ σ1) by
      (try done; apply conforms_denotes; auto).
    by apply Hno. }
  destruct (remove_spec σ1 g1 o1 msg (xs ++ [x]) (ys ++ [s]) x (length xs))
    as (g2 & σ2 & Hrem & _ & Hgrp2 & _); [done..|].
  rewrite delete_last in Hgrp2. rewrite Hlen, delete_last in Hgrp2.
  destruct Hgrp2 as (Hm2 & Hx2 & Hy2 & _).
  by exists g1, σ1, g2, σ2.
Qed.

Lemma add_remove_round_trip_witness :
  conforms group_store (VRef 5) = true
  ∧ ExceptionGroup.__contains__ 7 (VRef 5) group_store
    = (Normal false, group_store)
  ∧ ∃ g1 σ1 g2 σ2,
      ExceptionGroup.add 7 (VRef 5) (VStr "C") group_store
      = (Normal g1, σ1)
      ∧ ExceptionGroup.remove g1 (VRef 5) σ1 = (Normal g2, σ2)
      ∧ exceptions σ2 g2 = Some [VRef 1; VRef 2]
      ∧ sources σ2 g2 = Some [VStr "A"; VStr "B"].
Proof.
  assert (conforms group_store (VRef 5) = true) as Hc
    by (vm_compute; reflexivity).
  assert (ExceptionGroup.__contains__ 7 (VRef 5) group_store
          = (Normal false, group_store)) as Hnot
    by (vm_compute; reflexivity).
  split; [exact Hc|]. split; [exact Hnot|].
  destruct (add_remove_round_trip group_store 7 _ _ _ (VRef 5) (VStr "C")
              group_store_group Hc Hnot)
    as (g1 & σ1 & g2 & σ2 & Hadd & Hrem & _ & Hx & Hy).
  exists g1, σ1, g2, σ2. split_and!; assumption.
Defined.

(** ** Searching *)

Lemma filter_zip_fst {A B} (P : A → bool) (xs : list A) (ys : list B) :
  length xs = length ys →
  map fst (List.filter (λ p, P p.1) (zip xs ys)) = List.filter P xs.
Proof.
  revert ys. induction xs as [|x xs IH]; intros [|y ys] Hlen;
    simplify_eq/=; [done|].
  destruct (P x); simpl; [f_equal|]; by apply IH.
Qed.

Lemma filter_nil_Forall {A} (P : A → bool) (xs : list A) :
  List.filter P xs = [] ↔ Forall (λ x, P x = false) xs.
Proof.
  induction xs as [|x xs IH]; simpl; [by split|].
  destruct (P x) eqn:Hx.
  - split; [done|]. intros H. apply Forall_cons in H as [H _]. congruence.
  - rewrite IH. split; [by constructor|]. by intros [_ H]%Forall_cons.
Qed.

Lemma head_map_None {A B} (f : A → B) (l : list A) :
  head (map f l) = None ↔ l = [].
Proof. by destruct l. Qed.

Lemma findall_run σ g msg xs ys p :
  group_at σ g msg xs ys →
  ExceptionGroup.findall g p false σ
  = (Normal (map Bare (List.filter (satisfies σ p) xs)), σ)
  ∧ ExceptionGroup.findall g p true σ
    = (Normal (map (λ es, WithSource es.1 es.2)
                   (List.filter (λ es, satisfies σ p es.1) (zip xs ys))), σ).
Proof.
  intros Hgrp.
  apply group_at_inv in Hgrp as (o & le & ls & Hg & _ & He & Hs & Hle & Hls).
  unfold ExceptionGroup.findall, ExceptionGroup.exceptions_of,
    ExceptionGroup.sources_of.
  split.
  - mstep ltac:(eapply list_attr_run; [lookup|done|lookup]).
    by destruct p.
  - mstep ltac:(eapply list_attr_run; [lookup|done|lookup]).
    mstep ltac:(eapply list_attr_run; [lookup|done|lookup]).
    by destruct p.
Qed.

(** C8.  On a group with children [xs] and sources [ys], [findall] yields,
    in the order of the children, exactly the children that satisfy the
    predicate, where a type or tuple of types stands for the [isinstance]
    test; with [with_source] it yields the same children in the same
    order, each in a pair with the source at its position.  [find] returns
    the first of what [findall] yields, and [None] exactly when no child
    satisfies the predicate.  Neither changes the store. *)
Theorem findall_in_order σ g msg xs ys p :
  group_at σ g msg xs ys →
  ∃ bare paired,
    ExceptionGroup.findall g p false σ = (Normal bare, σ)
    ∧ ExceptionGroup.findall g p true σ = (Normal paired, σ)
    ∧ bare = map Bare (List.filter (satisfies σ p) xs)
    ∧ paired = map (λ es, WithSource es.1 es.2)
                   (List.filter (λ es, satisfies σ p es.1) (zip xs ys))
    ∧ map item_exception paired = List.filter (satisfies σ p) xs
    ∧ (∀ it, it ∈ paired →
         ∃ i e s, it = WithSource e s ∧ xs !! i = Some e ∧ ys !! i = Some s)
    ∧ (length bare ≤ length xs)%nat
    ∧ length paired = length bare
    ∧ (∀ k x, p = PKind k → satisfies σ p x = isinstance σ x k)
    ∧ ExceptionGroup.find g p false σ = (Normal (head bare), σ)
    ∧ ExceptionGroup.find g p true σ = (Normal (head paired), σ)
    ∧ (head bare = None ↔ Forall (λ x, satisfies σ p x = false) xs)
    ∧ (head paired = None ↔ Forall (λ x, satisfies σ p x = false) xs).
Proof.
  intros Hgrp. pose proof Hgrp as (_ & _ & _ & _ & Hlen).
  destruct (findall_run σ g msg xs ys p Hgrp) as [Hbare Hpaired].
  eexists _, _. split; [exact Hbare|]. split; [exact Hpaired|].
  assert (map item_exception
            (map (λ es : value * value, WithSource es.1 es.2)
               (List.filter (λ es, satisfies σ p es.1) (zip xs ys)))
          = List.filter (satisfies σ p) xs) as Hsame.
  { rewrite <- (filter_zip_fst (satisfies σ p) xs ys Hlen).
    rewrite map_map. by apply map_ext. }
  split_and!.
  - done.
  - done.
  - exact Hsame.
  - intros it Hit. apply list_elem_of_fmap in Hit as ([e s] & -> & Hes).
    apply list_elem_of_In, filter_In in Hes as [Hes _].
    apply list_elem_of_In, list_elem_of_lookup in Hes as [i Hi].
    apply lookup_zip_with_Some in Hi as (e' & s' & [= <- <-] & He & Hs).
    by exists i, e, s.
  - rewrite length_map. apply filter_length_le.
  - rewrite <- (length_map item_exception), Hsame. by rewrite length_map.
  - by intros k x ->.
  - unfold ExceptionGroup.find. by rewrite (bind_normal _ _ _ _ _ Hbare).
  - unfold ExceptionGroup.find. by rewrite (bind_normal _ _ _ _ _ Hpaired).
  - by rewrite head_map_None, filter_nil_Forall.
  - rewrite head_map_None, <- filter_nil_Forall.
    rewrite <- (filter_zip_fst (satisfies σ p) xs ys Hlen).
    split; [by intros ->|]. by intros ?%map_eq_nil.
Qed.

Lemma findall_in_order_witness :
  group_at group_store 7 (VStr "many error.") [VRef 1; VRef 2]
    [VStr "A"; VStr "B"]
  ∧ ExceptionGroup.findall 7 (PKind (KTuple [KType KeyError;
                                               KType RuntimeError]))
      true group_store
    = (Normal [WithSource (VRef 2) (VStr "B")], group_store)
  ∧ ExceptionGroup.find 7 (PKind (KType Exception)) false group_store
    = (Normal (Some (Bare (VRef 1))), group_store)
  ∧ ExceptionGroup.find 7 (PKind (KType KeyError)) false group_store
    = (Normal None, group_store).
Proof.
  pose proof group_store_group as Hgrp. split; [exact Hgrp|]. split_and!.
  - destruct (findall_in_order group_store 7 _ _ _
                (PKind (KTuple [KType KeyError; KType RuntimeError])) Hgrp)
      as (bare & paired & _ & Hp & _ & -> & _).
    rewrite Hp. vm_compute. reflexivity.
  - destruct (findall_in_order group_store 7 _ _ _
                (PKind (KType Exception)) Hgrp)
      as (bare & paired & _ & _ & -> & _ & _ & _ & _ & _ & _ & Hf & _).
    rewrite Hf. vm_compute. reflexivity.
  - destruct (findall_in_order group_store 7 _ _ _
                (PKind (KType KeyError)) Hgrp)
      as (bare & paired & _ & _ & -> & _ & _ & _ & _ & _ & _ & Hf & _).
    rewrite Hf. vm_compute. reflexivity.
Defined.

(** ** Raising *)

Lemma chain_context_run σ e oe :
  heap σ !! e = Some (OExc oe) →
  ∃ σ' oe',
    chain_context e σ = (Normal tt, σ')
    ∧ heap σ' !! e = Some (OExc oe')
    ∧ o_cause oe' = o_cause oe
    ∧ o_suppress_context oe' = o_suppress_context oe.
Proof.
  intros He. unfold chain_context.
  rewrite (bind_normal read_state _ σ σ σ eq_refl).
  destruct (exc_info σ) as [h|]; [|by exists σ, oe].
  case_decide; [by exists σ, oe|].
  eexists _, _. split; [by apply set_context_run|].
  by rewrite heap_upd_eq.
Qed.

Lemma raise_from_run {A} σ e oe cause :
  heap σ !! e = Some (OExc oe) →
  conforms σ (VRef e) = true →
  (∀ c, cause = Some c → conforms σ (VRef c) = true) →
  ∃ σ',
    @raise_from A (VRef e) (cause_value cause) σ
    = (Raised (Propagating e), σ')
    ∧ cause_of σ' e = Some cause
    ∧ suppress_context_of σ' e = Some true.
Proof.
  intros He Hce Hcause. unfold raise_from.
  rewrite (bind_normal read_state _ σ σ σ eq_refl).
  unfold conforms in Hce. rewrite Hce.
  set (oe1 := ExcObj (o_class oe) (o_args oe) (o_traceback oe) (o_context oe)
                     cause true (o_dict oe)).
  destruct (chain_context_run (upd e (OExc oe1) σ) e oe1)
    as (σ' & oe' & Hctx & He' & Hc' & Hs'); [lookup|].
  assert (cause_of σ' e = Some cause ∧ suppress_context_of σ' e = Some true)
    as Hres.
  { unfold cause_of, suppress_context_of, exc_at. rewrite He'. simpl.
    by rewrite Hc', Hs'. }
  exists σ'. split; [|done].
  destruct cause as [c|]; simpl.
  - specialize (Hcause c eq_refl). unfold conforms in Hcause.
    rewrite Hcause.
    rewrite (bind_normal _ _ _ _ _ (set_cause_run _ _ _ (Some c) He)).
    by rewrite (bind_normal _ _ _ _ _ Hctx).
  - rewrite (bind_normal _ _ _ _ _ (set_cause_run _ _ _ None He)).
    by rewrite (bind_normal _ _ _ _ _ Hctx).
Qed.

(** The default [0] stands for the exception being handled; [None] and
    an exception stand for themselves. *)
Lemma resolve_from_exception {A} σ from_exception cause (k : value → M A) :
  handling_ok σ →
  expected_cause σ from_exception = Some cause →
  (let* is_default := eq_M from_exception (VInt 0) in
   let* from_exception :=
     (if is_default then sys_exc_info_1 else ret from_exception) in
   k from_exception) σ
  = k (cause_value cause) σ
  ∧ ∀ c, cause = Some c → conforms σ (VRef c) = true.
Proof.
  intros Hok Hexp.
  destruct from_exception as [|b|n|s|e]; simpl in Hexp; try done.
  - injection Hexp as <-. by split.
  - destruct n as [|n|n]; [|done..]. injection Hexp as <-.
    split; [|by intros c; apply Hok]. done.
  - destruct (conforms σ (VRef e)) eqn:He; [|done]. injection Hexp as <-.
    split; [done|]. by intros c [= <-].
Qed.

(** C1.  On a group with children [xs], for [from_exception] the default
    [0], [None] or an exception: [maybe_reraise] returns and leaves the
    store as it is when there is no child; with one child and [unwrap] it
    raises that child; with [unwrap] false, or with two or more children,
    it raises the group.  What is raised has as [__cause__] the exception
    being handled when [from_exception] is the default, and the argument
    otherwise, and its [__suppress_context__] is set. *)
Theorem maybe_reraise_raises σ g msg xs ys from_exception unwrap cause :
  group_at σ g msg xs ys →
  conforms σ (VRef g) = true →
  handling_ok σ →
  expected_cause σ from_exception = Some cause →
  (xs = [] →
   ExceptionGroup.maybe_reraise g from_exception unwrap σ = (Normal tt, σ))
  ∧ (∀ x, xs = [x] → unwrap = true →
     ∃ child σ',
       x = VRef child
       ∧ ExceptionGroup.maybe_reraise g from_exception unwrap σ
         = (Raised (Propagating child), σ')
       ∧ cause_of σ' child = Some cause
       ∧ suppress_context_of σ' child = Some true)
  ∧ (unwrap = false ∧ xs ≠ [] ∨ (2 ≤ length xs)%nat →
     ∃ σ',
       ExceptionGroup.maybe_reraise g from_exception unwrap σ
       = (Raised (Propagating g), σ')
       ∧ cause_of σ' g = Some cause
       ∧ suppress_context_of σ' g = Some true).
Proof.
  intros Hgrp Hcg Hok Hexp.
  pose proof Hgrp as (_ & _ & _ & Hxs & _).
  apply group_at_inv in Hgrp as (o & le & ls & Hg & _ & He & _ & Hle & _).
  assert (ExceptionGroup.exceptions_of g σ = (Normal xs, σ)) as Hread.
  { unfold ExceptionGroup.exceptions_of.
    eapply list_attr_run; [lookup|done|lookup]. }
  split_and!.
  - intros ->. unfold ExceptionGroup.maybe_reraise.
    by rewrite (bind_normal _ _ _ _ _ Hread).
  - intros x -> ->.
    apply Forall_cons in Hxs as [Hx _].
    destruct (conforms_ref _ _ Hx) as (child & oc & -> & Hchild).
    destruct (resolve_from_exception σ from_exception cause
                (@raise_from unit (VRef child)) Hok Hexp) as [Hres Hcause].
    destruct (@raise_from_run unit σ child oc cause Hchild Hx Hcause)
      as (σ' & Hraise & Hc & Hs).
    exists child, σ'. split_and!; [done| |done..].
    unfold ExceptionGroup.maybe_reraise.
    rewrite (bind_normal _ _ _ _ _ Hread). simpl.
    rewrite (bind_normal _ (λ exc, bind _ _) σ (VRef child) σ).
    + by rewrite Hres.
    + rewrite (bind_normal _ _ _ _ _ Hread). simpl.
      by rewrite (bind_normal _ _ _ _ _ Hread).
  - intros Hcase.
    destruct (resolve_from_exception σ from_exception cause
                (@raise_from unit (VRef g)) Hok Hexp) as [Hres Hcause].
    destruct (@raise_from_run unit σ g o cause Hg Hcg Hcause)
      as (σ' & Hraise & Hc & Hs).
    exists σ'. split_and!; [|done..].
    unfold ExceptionGroup.maybe_reraise.
    rewrite (bind_normal _ _ _ _ _ Hread).
    assert ((length xs =? 0)%nat = false) as ->.
    { apply Nat.eqb_neq. destruct xs; [|done].
      destruct Hcase as [[_ ?]|?]; [done | simpl in *; lia]. }
    rewrite (bind_normal _ (λ exc, bind _ _) σ (VRef g) σ).
    + by rewrite Hres.
    + destruct unwrap; [|done].
      rewrite (bind_normal _ _ _ _ _ Hread).
      assert ((length xs =? 1)%nat = false) as ->; [|done].
      apply Nat.eqb_neq. destruct Hcase as [[? _]|?]; [done | lia].
Qed.

Lemma maybe_reraise_raises_witness :
  (∃ σ',
     ExceptionGroup.maybe_reraise 7 (VInt 0) true group_store
     = (Raised (Propagating 7), σ')
     ∧ cause_of σ' 7 = Some (Some 2%positive))
  ∧ (∃ σ',
       ExceptionGroup.maybe_reraise 7 (VRef 5) true single_store
       = (Raised (Propagating 1), σ')
       ∧ cause_of σ' 1 = Some (Some 5%positive))
  ∧ (∃ σ',
       ExceptionGroup.maybe_reraise 7 VNone false single_store
       = (Raised (Propagating 7), σ')
       ∧ cause_of σ' 7 = Some None)
  ∧ ExceptionGroup.maybe_reraise 7 (VInt 0) true empty_store
    = (Normal tt, empty_store).
Proof.
  assert (∀ σ, exc_info σ = Some 2%positive →
               conforms σ (VRef 2) = true → handling_ok σ) as Hok.
  { intros σ Hi Hc h Hh. rewrite Hi in Hh. by injection Hh as <-. }
  assert (group_at single_store 7 (VStr "many error.") [VRef 1] [VStr "A"])
    as Hsingle.
  { apply (group_at_intro single_store 7 test_group (VStr "many error.") 8 9);
      try reflexivity.
    repeat constructor. }
  assert (group_at empty_store 7 (VStr "many error.") [] [])
    as Hempty.
  { apply (group_at_intro empty_store 7 test_group (VStr "many error.") 8 9);
      try reflexivity.
    constructor. }
  split_and!.
  - destruct (maybe_reraise_raises group_store 7 _ _ _ (VInt 0) true
                (Some 2%positive) group_store_group eq_refl
                (Hok group_store eq_refl eq_refl) eq_refl)
      as (_ & _ & Hgroup).
    destruct Hgroup as (σ' & Hrun & Hc & _); [right; simpl; lia|].
    by exists σ'.
  - destruct (maybe_reraise_raises single_store 7 _ _ _ (VRef 5) true
                (Some 5%positive) Hsingle eq_refl
                (Hok single_store eq_refl eq_refl) eq_refl)
      as (_ & Hchild & _).
    destruct (Hchild (VRef 1) eq_refl eq_refl)
      as (child & σ' & [= <-] & Hrun & Hc & _).
    by exists σ'.
  - destruct (maybe_reraise_raises single_store 7 _ _ _ VNone false
                None Hsingle eq_refl
                (Hok single_store eq_refl eq_refl) eq_refl)
      as (_ & _ & Hgroup).
    destruct Hgroup as (σ' & Hrun & Hc & _); [by left|].
    by exists σ'.
  - destruct (maybe_reraise_raises empty_store 7 _ _ _ (VInt 0) true
                (Some 2%positive) Hempty eq_refl
                (Hok empty_store eq_refl eq_refl) eq_refl)
      as (Hnone & _).
    by apply Hnone.
Defined.

(** ** The tests of the repository, on the concrete stores *)

Example test_exception_group_init :
  ∃ σ',
    ExceptionGroup.new ExceptionGroupClass (VStr "many error.")
      (VRef 4) (VRef 3) test_store = (Normal 7%positive, σ')
    ∧ exceptions σ' 7 = Some [VRef 1; VRef 2]
    ∧ message σ' 7 = Some (VStr "many error.")
    ∧ sources σ' 7 = Some [VStr "A"; VStr "B"]
    ∧ o_args <$> exc_at σ' 7
      = Some [VStr "many error."; VRef 4; VRef 3].
Proof. eexists. split; [vm_compute; reflexivity|]. by vm_compute. Qed.

Example test_exception_group_when_members_are_not_exceptions :
  (ExceptionGroup.new ExceptionGroupClass (VStr "error") (VRef 5) (VRef 3)
     test_store).1
  = Raised (TypeError_expected_exception (VStr "error2")).
Proof. vm_compute. reflexivity. Qed.

Example test_exception_group_init_when_exceptions_messages_not_equal :
  (ExceptionGroup.new ExceptionGroupClass (VStr "many error.")
     (VRef 4) (VRef 6) test_store).1
  = Raised (ValueError_different_number 1 2).
Proof. vm_compute. reflexivity. Qed.

Example test_exception_group_bool :
  (ExceptionGroup.__bool__ 7 empty_store).1 = Normal false
  ∧ (ExceptionGroup.__bool__ 7 single_store).1 = Normal true.
Proof. split; vm_compute; reflexivity. Qed.

Example test_exception_group_contains :
  (ExceptionGroup.__contains__ 7 (VRef 1) single_store).1 = Normal true
  ∧ (ExceptionGroup.__contains__ 7 (VRef 5) single_store).1 = Normal false.
Proof. split; vm_compute; reflexivity. Qed.

Example test_exception_group_find_with_source :
  (ExceptionGroup.find 7 (PKind (KType ValueError)) true single_store).1
  = Normal (Some (WithSource (VRef 1) (VStr "A")))
  ∧ (ExceptionGroup.find 7 (PKind (KType TypeError)) true single_store).1
    = Normal None.
Proof. split; vm_compute; reflexivity. Qed.

Example test_exception_group_find_callable_predicate :
  (ExceptionGroup.find 7 (PCallable (λ _ e, bool_decide (e = VRef 1))) false
     single_store).1
  = Normal (Some (Bare (VRef 1)))
  ∧ (ExceptionGroup.find 7 (PCallable (λ _ _, false)) false single_store).1
    = Normal None.
Proof. split; vm_compute; reflexivity. Qed.

Example test_exception_group_findall :
  (ExceptionGroup.findall 7 (PKind (KType ValueError)) false group_store).1
  = Normal [Bare (VRef 1)]
  ∧ (ExceptionGroup.findall 7
       (PKind (KTuple [KType ValueError; KType RuntimeError])) false
       group_store).1
    = Normal [Bare (VRef 1); Bare (VRef 2)].
Proof. split; vm_compute; reflexivity. Qed.

Example test_exception_group_iter :
  (ExceptionGroup.__iter__ 7 group_store).1
  = Normal [(VRef 1, VStr "A"); (VRef 2, VStr "B")].
Proof. vm_compute. reflexivity. Qed.

Example test_exception_group_len :
  (ExceptionGroup.__len__ 7 empty_store).1 = Normal 0
  ∧ (ExceptionGroup.__len__ 7 single_store).1 = Normal 1.
Proof. split; vm_compute; reflexivity. Qed.

Example test_exception_group_maybe_reraise_empty :
  (ExceptionGroup.maybe_reraise 7 (VInt 0) true empty_store).1 = Normal tt.
Proof. vm_compute. reflexivity. Qed.

Example test_exception_group_maybe_reraise_unwrap :
  (ExceptionGroup.maybe_reraise 7 (VInt 0) true single_store).1
  = Raised (Propagating 1)
  ∧ (ExceptionGroup.maybe_reraise 7 (VInt 0) false single_store).1
    = Raised (Propagating 7).
Proof. split; vm_compute; reflexivity. Qed.

Example test_exception_group_maybe_reraise_from_exception :
  cause_of (ExceptionGroup.maybe_reraise 7 (VInt 0) true single_store).2 1
  = Some (Some 2%positive)
  ∧ cause_of (ExceptionGroup.maybe_reraise 7 (VRef 5) true single_store).2 1
    = Some (Some 5%positive).
Proof. split; vm_compute; reflexivity. Qed.

Example test_exception_group_copy :
  ∃ g' σ',
    ExceptionGroup.__copy__ 7 group_store = (Normal g', σ')
    ∧ message σ' g' = message group_store 7
    ∧ exceptions σ' g' = exceptions group_store 7
    ∧ sources σ' g' = sources group_store 7
    ∧ traceback_of σ' g' = traceback_of group_store 7
    ∧ chain_of σ' g' = chain_of group_store 7
    ∧ suppress_context_of σ' g' = Some false.
Proof. eexists _, _. split; [vm_compute; reflexivity|]. by vm_compute. Qed.

(** * Further properties of the class *)

(** ** Reading a group *)

Lemma exceptions_of_run σ g msg xs ys :
  group_at σ g msg xs ys →
  ExceptionGroup.exceptions_of g σ = (Normal xs, σ).
Proof.
  intros Hgrp.
  apply group_at_inv in Hgrp as (o & le & ls & Hg & _ & He & _ & Hle & _).
  unfold ExceptionGroup.exceptions_of.
  eapply list_attr_run; [lookup|done|lookup].
Qed.

Lemma sources_of_run σ g msg xs ys :
  group_at σ g msg xs ys →
  ExceptionGroup.sources_of g σ = (Normal ys, σ).
Proof.
  intros Hgrp.
  apply group_at_inv in Hgrp as (o & le & ls & Hg & _ & _ & Hs & _ & Hls).
  unfold ExceptionGroup.sources_of.
  eapply list_attr_run; [lookup|done|lookup].
Qed.

Lemma len_run σ g msg xs ys :
  group_at σ g msg xs ys →
  ExceptionGroup.__len__ g σ = (Normal (length xs), σ).
Proof.
  intros Hgrp. unfold ExceptionGroup.__len__.
  by rewrite (bind_normal _ _ _ _ _ (exceptions_of_run _ _ _ _ _ Hgrp)).
Qed.

Lemma bool_run σ g msg xs ys :
  group_at σ g msg xs ys →
  ExceptionGroup.__bool__ g σ = (Normal (negb (length xs =? 0)%nat), σ).
Proof.
  intros Hgrp. unfold ExceptionGroup.__bool__.
  by rewrite (bind_normal _ _ _ _ _ (exceptions_of_run _ _ _ _ _ Hgrp)).
Qed.

Lemma iter_run σ g msg xs ys :
  group_at σ g msg xs ys →
  ExceptionGroup.__iter__ g σ = (Normal (zip xs ys), σ).
Proof.
  intros Hgrp. unfold ExceptionGroup.__iter__.
  rewrite (bind_normal _ _ _ _ _ (exceptions_of_run _ _ _ _ _ Hgrp)).
  by rewrite (bind_normal _ _ _ _ _ (sources_of_run _ _ _ _ _ Hgrp)).
Qed.

(** What [maybe_reraise] raises: nothing for no child, the child for one
    child under [unwrap], the group otherwise. *)
Lemma maybe_reraise_run σ g msg xs ys from_exception unwrap cause :
  group_at σ g msg xs ys →
  conforms σ (VRef g) = true →
  handling_ok σ →
  expected_cause σ from_exception = Some cause →
  (xs = [] ∧
   ExceptionGroup.maybe_reraise g from_exception unwrap σ = (Normal tt, σ))
  ∨ (∃ e oe σ',
       xs ≠ []
       ∧ heap σ !! e = Some (OExc oe)
       ∧ ExceptionGroup.maybe_reraise g from_exception unwrap σ
         = (Raised (Propagating e), σ')
       ∧ (VRef e = VRef g ∨ xs = [VRef e] ∧ unwrap = true)
       ∧ cause_of σ' e = Some cause).
Proof.
  intros Hgrp Hcg Hok Hexp.
  pose proof Hgrp as (_ & _ & _ & Hxs & _).
  pose proof (exceptions_of_run _ _ _ _ _ Hgrp) as Hread.
  destruct (group_at_exc _ _ _ _ _ Hgrp) as [o Hg].
  destruct xs as [|x xs']; [left|right].
  - split; [done|]. unfold ExceptionGroup.maybe_reraise.
    by rewrite (bind_normal _ _ _ _ _ Hread).
  - assert (∃ e oe, heap σ !! e = Some (OExc oe)
                    ∧ conforms σ (VRef e) = true
                    ∧ (VRef e = VRef g ∨ x :: xs' = [VRef e] ∧ unwrap = true)
                    ∧ (if unwrap then
                         let* xs := ExceptionGroup.exceptions_of g in
                         if (length xs =? 1)%nat then
                           let* xs := ExceptionGroup.exceptions_of g in
                           match xs with
                           | x :: _ => ret x
                           | [] => raise IndexError_list_index
                           end
                         else ret (VRef g)
                       else ret (VRef g)) σ = (Normal (VRef e), σ))
      as (e & oe & He & Hce & Hwhich & Hsel).
    { destruct unwrap; [|by exists g, o; split_and!; auto].
      destruct xs' as [|x2 xs'].
      - apply Forall_cons in Hxs as [Hx _].
        destruct (conforms_ref _ _ Hx) as (child & oc & -> & Hchild).
        exists child, oc. split_and!; [done..|by right|].
        rewrite (bind_normal _ _ _ _ _ Hread). simpl.
        by rewrite (bind_normal _ _ _ _ _ Hread).
      - exists g, o. split_and!; [done..|by left|].
        by rewrite (bind_normal _ _ _ _ _ Hread). }
    destruct (resolve_from_exception σ from_exception cause
                (@raise_from unit (VRef e)) Hok Hexp) as [Hres Hcause].
    destruct (@raise_from_run unit σ e oe cause He Hce Hcause)
      as (σ' & Hraise & Hc & _).
    exists e, oe, σ'. split_and!; [done..| |done|done].
    unfold ExceptionGroup.maybe_reraise.
    rewrite (bind_normal _ _ _ _ _ Hread).
    change (length (x :: xs') =? 0)%nat with false. cbv iota.
    rewrite (bind_normal _ (λ exc, bind _ _) σ (VRef e) σ Hsel).
    by rewrite Hres.
Qed.

(** ** Truthiness, length and re-raising *)

(** X1.  On a group, [len(g)] is the number of children, [bool(g)] is
    [False] exactly when there is no child, and that is exactly when
    [maybe_reraise] returns instead of raising: a truthy group always
    raises.  None of the three reads changes the store. *)
Theorem falsy_iff_no_raise σ g msg xs ys from_exception unwrap cause :
  group_at σ g msg xs ys →
  conforms σ (VRef g) = true →
  handling_ok σ →
  expected_cause σ from_exception = Some cause →
  ∃ b,
    ExceptionGroup.__bool__ g σ = (Normal b, σ)
    ∧ ExceptionGroup.__len__ g σ = (Normal (length xs), σ)
    ∧ (b = false ↔ length xs = 0)
    ∧ (b = false ↔
       ExceptionGroup.maybe_reraise g from_exception unwrap σ
       = (Normal tt, σ))
    ∧ (b = true ↔
       ∃ e σ', ExceptionGroup.maybe_reraise g from_exception unwrap σ
               = (Raised (Propagating e), σ')).
Proof.
  intros Hgrp Hcg Hok Hexp.
  exists (negb (length xs =? 0)%nat).
  split; [by eapply bool_run|]. split; [by eapply len_run|].
  destruct (maybe_reraise_run σ g msg xs ys from_exception unwrap cause)
    as [[-> Hrun]|(e & oe & σ' & Hne & _ & Hrun & _)]; [done..| |].
  - simpl. split_and!; [done|done|].
    split; [done|]. intros (e & σ' & Hr). congruence.
  - destruct xs as [|x xs']; [done|]. simpl. split_and!.
    + split; [done|lia].
    + split; [done|]. intros Hr. congruence.
    + split; [|done]. intros _. by exists e, σ'.
Qed.

Lemma single_store_group :
  group_at single_store 7 (VStr "many error.") [VRef 1] [VStr "A"].
Proof.
  apply (group_at_intro single_store 7 test_group (VStr "many error.") 8 9);
    try reflexivity.
  repeat constructor.
Qed.

Lemma empty_store_group :
  group_at empty_store 7 (VStr "many error.") [] [].
Proof.
  apply (group_at_intro empty_store 7 test_group (VStr "many error.") 8 9);
    try reflexivity.
  constructor.
Qed.

Lemma handling_ok_2 σ :
  exc_info σ = Some 2%positive → conforms σ (VRef 2) = true → handling_ok σ.
Proof. intros Hi Hc h Hh. rewrite Hi in Hh. by injection Hh as <-. Qed.

Lemma falsy_iff_no_raise_witness :
  (ExceptionGroup.__bool__ 7 empty_store = (Normal false, empty_store)
   ∧ ExceptionGroup.maybe_reraise 7 (VInt 0) true empty_store
     = (Normal tt, empty_store))
  ∧ (ExceptionGroup.__bool__ 7 group_store = (Normal true, group_store)
     ∧ ∃ e σ', ExceptionGroup.maybe_reraise 7 VNone true group_store
               = (Raised (Propagating e), σ')).
Proof.
  split.
  - destruct (falsy_iff_no_raise empty_store 7 _ _ _ (VInt 0) true
                (Some 2%positive) empty_store_group eq_refl
                (handling_ok_2 empty_store eq_refl eq_refl) eq_refl)
      as (b & Hb & _ & Hlen & Hret & _).
    assert (b = false) as -> by (by apply Hlen).
    split; [exact Hb|]. by apply Hret.
  - destruct (falsy_iff_no_raise group_store 7 _ _ _ VNone true
                None group_store_group eq_refl
                (handling_ok_2 group_store eq_refl eq_refl) eq_refl)
      as (b & Hb & _ & Hlen & _ & Hraise).
    assert (b = true) as ->.
    { destruct b; [done|]. destruct Hlen as [Hlen _].
      specialize (Hlen eq_refl). simpl in Hlen. lia. }
    split; [exact Hb|]. by apply Hraise.
Defined.

(** ** Adding *)

(** X2.  For an exception [x], [add] returns a new group, at a new
    location, with the message of the original, its children followed by
    [x] and its sources followed by the source: [x] and every old child
    are members of it, it has one more child, and iterating it gives the
    pairs of the original followed by [(x, source)].  The original group
    and every other object are as they were. *)
Theorem add_appends σ g msg xs ys x s :
  group_at σ g msg xs ys →
  conforms σ x = true →
  ∃ g' σ',
    ExceptionGroup.add g x s σ = (Normal g', σ')
    ∧ heap σ !! g' = None
    ∧ group_at σ' g' msg (xs ++ [x]) (ys ++ [s])
    ∧ ExceptionGroup.__contains__ g' x σ' = (Normal true, σ')
    ∧ (∀ y, y ∈ xs → ExceptionGroup.__contains__ g' y σ' = (Normal true, σ'))
    ∧ ExceptionGroup.__len__ g' σ' = (Normal (S (length xs)), σ')
    ∧ ExceptionGroup.__iter__ g' σ' = (Normal (zip xs ys ++ [(x, s)]), σ')
    ∧ group_at σ' g msg xs ys
    ∧ frame σ σ'.
Proof.
  intros Hgrp Hx. pose proof Hgrp as (_ & _ & _ & _ & Hlen).
  destruct (group_at_exc _ _ _ _ _ Hgrp) as [o Hg].
  destruct (add_spec σ g o msg xs ys x s)
    as (g' & σ' & Hrun & Htk & Hgrp' & Hframe); [done..|].
  exists g', σ'. split_and!; try done.
  - by destruct Htk as (? & ? & _).
  - eapply contains_true; [done|]. apply elem_of_app. right. by left.
  - intros y Hy. eapply contains_true; [done|]. apply elem_of_app. by left.
  - rewrite (len_run _ _ _ _ _ Hgrp'). rewrite length_app. simpl.
    do 2 f_equal. lia.
  - rewrite (iter_run _ _ _ _ _ Hgrp').
    by rewrite (zip_with_app pair xs [x] ys [s] Hlen).
  - eapply group_at_frame; [done| |done]. by apply frame_extends.
Qed.

Lemma add_appends_witness :
  conforms group_store (VRef 5) = true
  ∧ ∃ g' σ',
      ExceptionGroup.add 7 (VRef 5) (VStr "C") group_store = (Normal g', σ')
      ∧ ExceptionGroup.__iter__ g' σ'
        = (Normal [(VRef 1, VStr "A"); (VRef 2, VStr "B");
                   (VRef 5, VStr "C")], σ')
      ∧ group_at σ' 7 (VStr "many error.") [VRef 1; VRef 2]
          [VStr "A"; VStr "B"].
Proof.
  assert (conforms group_store (VRef 5) = true) as Hc
    by (vm_compute; reflexivity).
  split; [exact Hc|].
  destruct (add_appends group_store 7 _ _ _ (VRef 5) (VStr "C")
              group_store_group Hc)
    as (g' & σ' & Hrun & _ & _ & _ & _ & _ & Hiter & Horig & _).
  exists g', σ'. split_and!; [exact Hrun | exact Hiter | exact Horig].
Defined.

(** X3.  For a value [x] that is not an exception, [add] fails with the
    [TypeError] of the constructor, which names [x]: the check that
    [__init__] makes on construction also guards [add].  No group is
    returned, and the original group and every other object are as they
    were. *)
Theorem add_rejects_non_exception σ g msg xs ys x s :
  group_at σ g msg xs ys →
  denotes σ x →
  conforms σ x = false →
  ∃ σ',
    ExceptionGroup.add g x s σ
    = (Raised (TypeError_expected_exception x), σ')
    ∧ group_at σ' g msg xs ys
    ∧ frame σ σ'.
Proof.
  intros Hgrp Hden Hx.
  pose proof Hgrp as (_ & _ & _ & Hxs & Hlen).
  pose proof Hgrp as Hgrp0.
  apply group_at_inv in Hgrp as (o & le & ls & Hg & Hm & He & Hs & Hle & Hls).
  destruct (ExceptionGroup.add g x s σ) as [r σ'] eqn:Hrun.
  revert Hrun. unfold ExceptionGroup.add.
  mstep ltac:(apply load_exc_run; lookup).
  mstep ltac:(eapply getattr_run; [lookup|done]).
  unfold ExceptionGroup.exceptions_of at 1.
  mstep ltac:(eapply list_attr_run; [lookup|done|lookup]).
  mstep ltac:(apply new_list_run).
  name_fresh t1 Ht1.
  unfold ExceptionGroup.sources_of at 1.
  mstep ltac:(eapply list_attr_run; [lookup|done|lookup]).
  mstep ltac:(apply new_list_run).
  name_fresh t2 Ht2. apply heap_upd_None in Ht2 as [? Ht2].
  set (σ2 := upd t2 _ (upd t1 _ σ)).
  assert (extends σ σ2) as Hext by (subst σ2; ext).
  assert (frame σ σ2) as Hf2.
  { subst σ2. repeat (apply frame_alloc; [|done]). apply frame_refl. }
  destruct (new_run_TypeError σ2 (o_class o) msg t1 (VRef t2) xs x [])
    as (σ3 & Hnew & Hf3).
  { subst σ2. lookup. }
  { by eapply conforms_extends. }
  { unfold conforms. by rewrite (isinstance_denotes _ _ _ _ Hext Hden). }
  { destruct Hden as [d Hd]. exists d. by apply Hext. }
  mraise ltac:(exact Hnew).
  intros [= <- <-].
  assert (frame σ σ3) as Hf by (by apply (frame_trans σ σ2 σ3)).
  eexists. split_and!; [done| |done].
  eapply group_at_frame; [done| |done]. by apply frame_extends.
Qed.

Lemma add_rejects_non_exception_witness :
  conforms group_store (VStr "error2") = false
  ∧ ∃ σ',
      ExceptionGroup.add 7 (VStr "error2") (VStr "") group_store
      = (Raised (TypeError_expected_exception (VStr "error2")), σ')
      ∧ group_at σ' 7 (VStr "many error.") [VRef 1; VRef 2]
          [VStr "A"; VStr "B"].
Proof.
  split; [reflexivity|].
  destruct (add_rejects_non_exception group_store 7 _ _ _ (VStr "error2")
              (VStr "") group_store_group)
    as (σ' & Hrun & Horig & _).
  - by eexists.
  - reflexivity.
  - by exists σ'.
Defined.

(** ** Removing *)

Lemma zip_delete {A B} (xs : list A) (ys : list B) i :
  delete i (zip xs ys) = zip (delete i xs) (delete i ys).
Proof.
  revert ys i.
  induction xs as [|x xs IH]; intros [|y ys] [|i]; simpl; try done.
  - by destruct xs.
  - f_equal. apply IH.
Qed.

Lemma delete_app_lt {A} (l k : list A) i :
  i < length l → delete i (l ++ k) = delete i l ++ k.
Proof.
  revert i. induction l as [|x l IH]; intros i Hi; simpl in *; [lia|].
  destruct i as [|i]; simpl; [done|]. f_equal. apply IH. lia.
Qed.

(** X4.  [remove] of a member [x] takes out one child and nothing
    else: the child taken out is [x] or equal to [x], the children of the
    result together with it are the children of the original up to order,
    and likewise the pairs of child and source; the result has one child
    less and every other child is still a member.  When no other child
    is equal to [x], the child taken out is [x] itself, and [x] stays a
    member exactly when it occurred more than once, so it is no member
    when the children had no duplicate. *)
Theorem remove_one_occurrence σ g msg xs ys x :
  group_at σ g msg xs ys →
  x ∈ xs →
  ∃ g' σ' xs' ys' r s,
    ExceptionGroup.remove g x σ = (Normal g', σ')
    ∧ group_at σ' g' msg xs' ys'
    ∧ item_matches σ r x = Some true
    ∧ xs ≡ₚ r :: xs'
    ∧ zip xs ys ≡ₚ (r, s) :: zip xs' ys'
    ∧ ExceptionGroup.__len__ g' σ' = (Normal (length xs - 1), σ')
    ∧ (∀ y, y ∈ xs → y ≠ r →
         ExceptionGroup.__contains__ g' y σ' = (Normal true, σ'))
    ∧ (only_itself σ xs x →
       r = x
       ∧ ExceptionGroup.__contains__ g' x σ'
         = (Normal (bool_decide (x ∈ xs')), σ')
       ∧ (NoDup xs →
          ExceptionGroup.__contains__ g' x σ' = (Normal false, σ'))).
Proof.
  intros Hgrp Hx. pose proof Hgrp as (_ & _ & _ & Hxs & Hlen).
  destruct (group_at_exc _ _ _ _ _ Hgrp) as [o Hg].
  destruct (index_from_member σ xs x 0 Hxs Hx) as (i & Hidx & Hfm).
  pose proof Hfm as (r & Hi & Hm & _).
  destruct (remove_spec σ g o msg xs ys x i)
    as (g' & σ' & Hrun & _ & Hgrp' & Hframe); [done..|].
  assert (is_Some (ys !! i)) as [s Hs].
  { apply lookup_lt_is_Some. rewrite <- Hlen. by eapply lookup_lt_Some. }
  pose proof (delete_Permutation xs i r Hi) as Hperm.
  exists g', σ', (delete i xs), (delete i ys), r, s.
  split_and!; try done.
  - rewrite <- zip_delete. apply delete_Permutation.
    apply lookup_zip_with_Some. by exists r, s.
  - rewrite (len_run _ _ _ _ _ Hgrp'). do 2 f_equal.
    rewrite length_delete by eauto. done.
  - intros y Hy Hne. eapply contains_true; [done|].
    rewrite (elem_of_Permutation_proper y _ _ Hperm), elem_of_cons in Hy.
    by destruct Hy.
  - intros Hid.
    destruct (first_match_only_itself σ xs x i Hid Hfm) as [Hix _].
    assert (r = x) as -> by congruence.
    assert (only_itself σ' (delete i xs) x) as Hid'.
    { eapply only_itself_frame; [done| | |].
      - by apply Forall_delete.
      - apply conforms_denotes. rewrite Forall_forall in Hxs. by apply Hxs.
      - eapply only_itself_sub; [|done]. intros y Hy.
        rewrite (elem_of_Permutation_proper y _ _ Hperm), elem_of_cons.
        by right. }
    split_and!; [done|by eapply contains_only_itself|].
    intros Hnd. rewrite (contains_only_itself _ _ _ _ _ _ Hgrp' Hid').
    rewrite bool_decide_eq_false_2; [done|].
    apply (NoDup_Permutation_proper _ _ Hperm) in Hnd.
    by apply NoDup_cons in Hnd as [? _].
Qed.

Lemma remove_one_occurrence_witness :
  (∃ g' σ',
     ExceptionGroup.remove 7 (VRef 1) group_store = (Normal g', σ')
     ∧ ExceptionGroup.__len__ g' σ' = (Normal 1, σ')
     ∧ ExceptionGroup.__contains__ g' (VRef 1) σ' = (Normal false, σ')
     ∧ ExceptionGroup.__contains__ g' (VRef 2) σ' = (Normal true, σ'))
  ∧ (∃ g' σ' xs' r,
       ExceptionGroup.remove 7 (VRef 2) eq_store = (Normal g', σ')
       ∧ item_matches eq_store r (VRef 2) = Some true
       ∧ [VRef 1; VRef 2] ≡ₚ r :: xs').
Proof.
  split.
  - destruct (remove_one_occurrence group_store 7 _ _ _ (VRef 1)
                group_store_group)
      as (g' & σ' & xs' & ys' & r & s & Hrun & _ & _ & _ & _ & Hlen
          & Hother & Hid).
    { apply elem_of_cons. by left. }
    destruct (Hid (group_store_only_itself (VRef 1))) as (-> & _ & Hnd).
    exists g', σ'. split_and!; [exact Hrun | exact Hlen | |].
    + apply Hnd. apply NoDup_cons. split.
      * rewrite elem_of_cons, elem_of_nil. intros [?|[]]. discriminate.
      * apply NoDup_singleton.
    + apply Hother; [|discriminate].
      apply elem_of_cons. right. apply elem_of_cons. by left.
  - destruct (remove_one_occurrence eq_store 7 _ _ _ (VRef 2)
                eq_store_group)
      as (g' & σ' & xs' & ys' & r & s & Hrun & Hgrp' & Hm & Hperm & _).
    { apply elem_of_cons. right. apply elem_of_cons. by left. }
    exists g', σ', xs', r. split_and!; assumption.
Defined.

(** X5.  The round trip of [add] and [remove] needs a value that is not
    yet a member.  For a member [x], [add] succeeds (children may repeat)
    and the [remove] that follows takes out the first child that is [x]
    or equal to [x], which is an old one: the result has the children of
    the original without its position [i], followed by [x], with the
    sources moved in the same way, and [x] is still a member.  When no
    other child is equal to [x], [i] is the first occurrence of [x]. *)
Theorem add_remove_member σ g msg xs ys x s :
  group_at σ g msg xs ys →
  x ∈ xs →
  ∃ i g1 σ1 g2 σ2,
    first_match σ xs x i
    ∧ (only_itself σ xs x →
       xs !! i = Some x ∧ ∀ j, j < i → xs !! j ≠ Some x)
    ∧ ExceptionGroup.add g x s σ = (Normal g1, σ1)
    ∧ ExceptionGroup.remove g1 x σ1 = (Normal g2, σ2)
    ∧ group_at σ2 g2 msg (delete i xs ++ [x]) (delete i ys ++ [s])
    ∧ ExceptionGroup.__contains__ g2 x σ2 = (Normal true, σ2).
Proof.
  intros Hgrp Hx. pose proof Hgrp as (_ & _ & _ & Hxs & Hlen).
  assert (conforms σ x = true) as Hcx.
  { rewrite Forall_forall in Hxs. by apply Hxs. }
  destruct (group_at_exc _ _ _ _ _ Hgrp) as [o Hg].
  destruct (index_from_member σ xs x 0 Hxs Hx) as (i & Hidx & Hfm).
  assert (i < length xs) as Hlt.
  { destruct Hfm as (item & Hi & _). by eapply lookup_lt_Some. }
  destruct (add_spec σ g o msg xs ys x s)
    as (g1 & σ1 & Hadd & _ & Hgrp1 & Hframe); [done..|].
  destruct (group_at_exc _ _ _ _ _ Hgrp1) as [o1 Hg1].
  assert (index_from σ1 (xs ++ [x]) x 0 = Normal i) as Hidx1.
  { rewrite (index_from_frame σ σ1); [by apply index_from_app|done| |].
    - apply Forall_app. split; [done|]. by constructor.
    - by apply conforms_denotes. }
  destruct (remove_spec σ1 g1 o1 msg (xs ++ [x]) (ys ++ [s]) x i)
    as (g2 & σ2 & Hrem & _ & Hgrp2 & _); [done..|].
  rewrite !delete_app_lt in Hgrp2 by (done || by rewrite <- Hlen).
  exists i, g1, σ1, g2, σ2. split_and!; try done.
  - intros Hid. exact (first_match_only_itself σ xs x i Hid Hfm).
  - eapply contains_true; [done|]. apply elem_of_app. right. by left.
Qed.

Lemma add_remove_member_witness :
  ∃ g1 σ1 g2 σ2,
    ExceptionGroup.add 7 (VRef 1) (VStr "again") group_store
    = (Normal g1, σ1)
    ∧ ExceptionGroup.remove g1 (VRef 1) σ1 = (Normal g2, σ2)
    ∧ group_at σ2 g2 (VStr "many error.") [VRef 2; VRef 1]
        [VStr "B"; VStr "again"].
Proof.
  destruct (add_remove_member group_store 7 _ _ _ (VRef 1) (VStr "again")
              group_store_group)
    as (i & g1 & σ1 & g2 & σ2 & _ & Hid & Hadd & Hrem & Hgrp & _).
  { apply elem_of_cons. by left. }
  destruct (Hid (group_store_only_itself (VRef 1))) as [Hi Hfirst].
  exists g1, σ1, g2, σ2. split_and!; [exact Hadd | exact Hrem |].
  destruct i as [|i]; [exact Hgrp|].
  exfalso. apply (Hfirst 0); [lia | reflexivity].
Defined.

(** ** Copying *)

(** X6.  [__copy__] returns a new instance with the message, children
    and sources of the original, over list objects of its own; but its
    [args] hold the very list objects of the original ([self.exceptions]
    and [self.sources] are passed to the class, which keeps its arguments
    in [args] and copies them for the attributes).  So when the list of
    children of the original is assigned new items, the original and the
    [args] of the copy show them, while the children and sources of the
    copy stay. *)
Theorem copy_shares_only_args σ g msg xs ys :
  group_at σ g msg xs ys →
  ∃ g' σ' le ls,
    ExceptionGroup.__copy__ g σ = (Normal g', σ')
    ∧ heap σ !! g' = None
    ∧ getattr g "exceptions" σ = (Normal (VRef le), σ)
    ∧ getattr g "sources" σ = (Normal (VRef ls), σ)
    ∧ o_args <$> exc_at σ' g' = Some [msg; VRef le; VRef ls]
    ∧ group_at σ' g' msg xs ys
    ∧ group_at σ' g msg xs ys
    ∧ ∀ xs',
        let σ'' := mutate_list le xs' σ' in
        heap σ'' !! le = Some (OList xs')
        ∧ exceptions σ'' g = Some xs'
        ∧ exceptions σ'' g' = Some xs
        ∧ sources σ'' g' = Some ys.
Proof.
  intros Hgrp. pose proof Hgrp as (_ & _ & _ & Hxs & Hlen).
  pose proof Hgrp as Hgrp0.
  apply group_at_inv in Hgrp as (o & le & ls & Hg & Hm & He & Hs & Hle & Hls).
  destruct (copy_run σ g o msg le ls xs ys)
    as (g' & l1 & l2 & Hg' & Hl1 & Hl2 & ? & ? & ? & Hrun); [done..|].
  eexists g', _, le, ls. split; [exact Hrun|].
  set (σ' := upd g' _ _).
  assert (extends σ σ') as Hext by (subst σ'; ext).
  assert (frame σ σ') as Hframe.
  { subst σ'. repeat (apply frame_alloc; [|done]). apply frame_refl. }
  split_and!.
  - done.
  - by eapply getattr_run.
  - by eapply getattr_run.
  - unfold exc_at. subst σ'. by rewrite heap_upd_eq.
  - eapply (group_at_dict σ' g' _ msg l1 l2); subst σ';
      [lookup | reflexivity | lookup | lookup | | done].
    by eapply conforms_extends.
  - eapply group_at_frame; [done..|].  done.
  - intros xs' σ''.
    assert (σ'' = upd le (OList xs') σ') as ->.
    { subst σ''. apply (mutate_list_run _ _ xs). subst σ'. lookup. }
    split_and!.
    + lookup.
    + unfold exceptions, returns, ExceptionGroup.exceptions_of.
      erewrite list_attr_run; [done| |exact He|lookup].
      subst σ'. lookup.
    + unfold exceptions, returns, ExceptionGroup.exceptions_of.
      rewrite (list_attr_run _ g'
                 (copied_object o msg (VRef le) (VRef ls) l1 l2)
                 "exceptions" l1 xs); [done| |reflexivity|].
      * subst σ'. lookup.
      * subst σ'. lookup.
    + unfold sources, returns, ExceptionGroup.sources_of.
      rewrite (list_attr_run _ g'
                 (copied_object o msg (VRef le) (VRef ls) l1 l2)
                 "sources" l2 ys); [done| |reflexivity|].
      * subst σ'. lookup.
      * subst σ'. lookup.
Qed.

Lemma copy_shares_only_args_witness :
  ∃ g' σ',
    ExceptionGroup.__copy__ 7 group_store = (Normal g', σ')
    ∧ o_args <$> exc_at σ' g' = Some [VStr "many error."; VRef 8; VRef 9]
    ∧ exceptions (mutate_list 8 [] σ') 7 = Some []
    ∧ exceptions (mutate_list 8 [] σ') g' = Some [VRef 1; VRef 2].
Proof.
  destruct (copy_shares_only_args group_store 7 _ _ _ group_store_group)
    as (g' & σ' & le & ls & Hrun & _ & He & Hs & Hargs & _ & _ & Hmut).
  assert (le = 8%positive) as ->.
  { revert He. vm_compute. by intros [= <-]. }
  assert (ls = 9%positive) as ->.
  { revert Hs. vm_compute. by intros [= <-]. }
  destruct (Hmut []) as (_ & Horig & Hcopy & _).
  exists g', σ'.
  split_and!; [exact Hrun | exact Hargs | exact Horig | exact Hcopy].
Defined.

(** ** Iterating and searching *)

Lemma sublist_List_filter {A} (P : A → bool) (l : list A) :
  List.filter P l `sublist_of` l.
Proof.
  induction l as [|x l IH]; simpl; [constructor|].
  destruct (P x); by constructor.
Qed.

Lemma sublist_map {A B} (f : A → B) (l k : list A) :
  l `sublist_of` k → map f l `sublist_of` map f k.
Proof. induction 1; simpl; by constructor. Qed.

Lemma List_filter_all {A} (P : A → bool) (l : list A) :
  Forall (λ x, P x = true) l → List.filter P l = l.
Proof. induction 1 as [|x l Hx _ IH]; simpl; [done|]. by rewrite Hx, IH. Qed.

(** X7.  Iterating a group gives its pairs of child and source, position
    by position, and loses none of either (the two lists have the same
    length, so [zip] does not cut); a second iteration gives the same,
    since the store is unchanged.  What [findall] yields with
    [with_source] is a sub-sequence of the iteration, and for the type
    [BaseException] it is all of it: every child is found. *)
Theorem iter_pairs_all σ g msg xs ys p :
  group_at σ g msg xs ys →
  ∃ pairs found,
    ExceptionGroup.__iter__ g σ = (Normal pairs, σ)
    ∧ map fst pairs = xs
    ∧ map snd pairs = ys
    ∧ (∀ i e s, pairs !! i = Some (e, s) ↔ xs !! i = Some e ∧ ys !! i = Some s)
    ∧ ExceptionGroup.findall g p true σ = (Normal found, σ)
    ∧ found `sublist_of` map (λ es, WithSource es.1 es.2) pairs
    ∧ ExceptionGroup.findall g (PKind (KType BaseException)) true σ
      = (Normal (map (λ es, WithSource es.1 es.2) pairs), σ)
    ∧ ExceptionGroup.findall g (PKind (KType BaseException)) false σ
      = (Normal (map Bare xs), σ).
Proof.
  intros Hgrp. pose proof Hgrp as (_ & _ & _ & Hxs & Hlen).
  destruct (findall_run σ g msg xs ys p Hgrp) as [_ Hfound].
  destruct (findall_run σ g msg xs ys (PKind (KType BaseException)) Hgrp)
    as [Hall Hallp].
  eexists (zip xs ys), _. split; [by eapply iter_run|].
  split_and!.
  - apply fst_zip. lia.
  - apply snd_zip. lia.
  - intros i e s. rewrite lookup_zip_with_Some. split.
    + by intros (e' & s' & [= <- <-] & He & Hs).
    + intros [He Hs]. by exists e, s.
  - exact Hfound.
  - apply sublist_map, sublist_List_filter.
  - rewrite Hallp. do 3 f_equal. apply List_filter_all.
    apply Forall_forall. intros [e s] Hes. simpl.
    rewrite Forall_forall in Hxs. apply Hxs.
    apply list_elem_of_lookup in Hes as [i Hi].
    apply lookup_zip_with_Some in Hi as (e' & s' & [= <- <-] & He & _).
    by eapply list_elem_of_lookup_2.
  - rewrite Hall. do 3 f_equal. by apply List_filter_all.
Qed.

Lemma iter_pairs_all_witness :
  ExceptionGroup.__iter__ 7 group_store
  = (Normal [(VRef 1, VStr "A"); (VRef 2, VStr "B")], group_store)
  ∧ ExceptionGroup.findall 7 (PKind (KType BaseException)) false group_store
    = (Normal [Bare (VRef 1); Bare (VRef 2)], group_store).
Proof.
  destruct (iter_pairs_all group_store 7 _ _ _ (PKind (KType ValueError))
              group_store_group)
    as (pairs & found & Hiter & Hfst & Hsnd & _ & _ & _ & _ & Hall).
  split; [|exact Hall].
  rewrite Hiter. do 2 f_equal.
  destruct pairs as [|[e1 s1] [|[e2 s2] [|]]]; simplify_eq/=. done.
Defined.

Lemma head_filter_zip {A B} (P : A → bool) (xs : list A) (ys : list B) e :
  length xs = length ys →
  head (List.filter P xs) = Some e →
  ∃ i s,
    xs !! i = Some e
    ∧ ys !! i = Some s
    ∧ P e = true
    ∧ (∀ j y, j < i → xs !! j = Some y → P y = false)
    ∧ head (List.filter (λ es, P es.1) (zip xs ys)) = Some (e, s).
Proof.
  revert ys. induction xs as [|x xs IH]; intros [|y ys] Hlen Hhead;
    simplify_eq/=.
  destruct (P x) eqn:Hx; simpl in *.
  - injection Hhead as <-. exists 0, y. split_and!; try done.
    intros j z Hj. lia.
  - destruct (IH ys Hlen Hhead) as (i & s & Hi & Hs & He & Hfirst & Hz).
    exists (S i), s. split_and!; try done.
    intros [|j] z Hj; simpl.
    + by intros [= <-].
    + apply Hfirst. lia.
Qed.

(** X8.  What [find] returns is a child of the group that satisfies the
    predicate, and the first such: every child before it fails the
    predicate.  It is a member ([in] answers [True]), [find] with
    [with_source] returns it with the source at its position, and
    [remove] accepts it, so the handling idiom of the class docstring
    ([exc = eg.find(T)], then [eg.remove(exc)]) never fails with the
    [ValueError]. *)
Theorem find_returns_first_member σ g msg xs ys p e :
  group_at σ g msg xs ys →
  ExceptionGroup.find g p false σ = (Normal (Some (Bare e)), σ) →
  ∃ i s,
    xs !! i = Some e
    ∧ ys !! i = Some s
    ∧ satisfies σ p e = true
    ∧ (∀ j y, j < i → xs !! j = Some y → satisfies σ p y = false)
    ∧ ExceptionGroup.__contains__ g e σ = (Normal true, σ)
    ∧ ExceptionGroup.find g p true σ = (Normal (Some (WithSource e s)), σ)
    ∧ ∃ g' σ', ExceptionGroup.remove g e σ = (Normal g', σ').
Proof.
  intros Hgrp Hfind. pose proof Hgrp as (_ & _ & _ & Hxs & Hlen).
  destruct (findall_run σ g msg xs ys p Hgrp) as [Hbare Hpaired].
  unfold ExceptionGroup.find in Hfind.
  rewrite (bind_normal _ _ _ _ _ Hbare) in Hfind.
  injection Hfind as Hhead.
  assert (head (List.filter (satisfies σ p) xs) = Some e) as Hhead'.
  { destruct (List.filter (satisfies σ p) xs); simplify_eq/=. done. }
  destruct (head_filter_zip _ xs ys e Hlen Hhead')
    as (i & s & Hi & Hs & He & Hfirst & Hz).
  assert (e ∈ xs) as Hin by (by eapply list_elem_of_lookup_2).
  exists i, s. split_and!; try done.
  - by eapply contains_true.
  - unfold ExceptionGroup.find. rewrite (bind_normal _ _ _ _ _ Hpaired).
    unfold ret. do 2 f_equal.
    destruct (List.filter _ (zip xs ys)); simplify_eq/=. done.
  - destruct (group_at_exc _ _ _ _ _ Hgrp) as [o Hg].
    destruct (index_from_member σ xs e 0 Hxs Hin) as (k & Hidx & _).
    destruct (remove_spec σ g o msg xs ys e k)
      as (g' & σ' & Hrun & _); [done..|].
    by exists g', σ'.
Qed.

Lemma find_returns_first_member_witness :
  ExceptionGroup.find 7 (PKind (KType RuntimeError)) false group_store
  = (Normal (Some (Bare (VRef 2))), group_store)
  ∧ ExceptionGroup.find 7 (PKind (KType RuntimeError)) true group_store
    = (Normal (Some (WithSource (VRef 2) (VStr "B"))), group_store)
  ∧ ∃ g' σ', ExceptionGroup.remove 7 (VRef 2) group_store = (Normal g', σ').
Proof.
  assert (ExceptionGroup.find 7 (PKind (KType RuntimeError)) false group_store
          = (Normal (Some (Bare (VRef 2))), group_store)) as Hfind
    by (vm_compute; reflexivity).
  split; [exact Hfind|].
  destruct (find_returns_first_member group_store 7 _ _ _
              (PKind (KType RuntimeError)) (VRef 2) group_store_group Hfind)
    as (i & s & Hi & Hs & _ & _ & _ & Hsrc & Hrem).
  split; [|exact Hrem].
  destruct i as [|[|i]]; simplify_eq/=. exact Hsrc.
Defined.

(** ** Arguments that are not lists *)

Lemma py_list_scalar v :
  as_int v ≠ None ∨ v = VNone →
  py_list v = raise (TypeError_not_iterable v).
Proof.
  intros Hv. destruct v as [|b|n|s|l]; try done; destruct Hv as [Hv|Hv]; done.
Qed.

Lemma init_run_exceptions_scalar σ self o msg v sources :
  heap σ !! self = Some (OExc o) →
  as_int v ≠ None ∨ v = VNone →
  ∃ σ',
    ExceptionGroup.__init__ self msg v sources σ
    = (Raised (TypeError_not_iterable v), σ')
    ∧ (∀ l, l ≠ self → heap σ' !! l = heap σ !! l)
    ∧ exc_info σ' = exc_info σ ∧ user_eq σ' = user_eq σ.
Proof.
  intros Hself Hv.
  destruct (ExceptionGroup.__init__ _ _ _ _ σ) as [r σ'] eqn:Hrun.
  revert Hrun. unfold ExceptionGroup.__init__.
  mstep ltac:(apply set_args_run; lookup).
  rewrite (py_list_scalar v Hv). unfold bind at 1, raise at 1.
  intros [= <- <-]. eexists. split_and!; [done| |done..].
  intros k Hk. by rewrite heap_upd_ne by congruence.
Qed.

Lemma init_run_sources_scalar σ self o msg le xs v :
  heap σ !! self = Some (OExc o) →
  heap σ !! le = Some (OList xs) →
  Forall (λ x, conforms σ x = true) xs →
  as_int v ≠ None ∨ v = VNone →
  ∃ σ',
    ExceptionGroup.__init__ self msg (VRef le) v σ
    = (Raised (TypeError_not_iterable v), σ')
    ∧ (∀ l, l ≠ self → is_Some (heap σ !! l) → heap σ' !! l = heap σ !! l)
    ∧ exc_info σ' = exc_info σ ∧ user_eq σ' = user_eq σ.
Proof.
  intros Hself Hle Hxs Hv.
  destruct (ExceptionGroup.__init__ _ _ _ _ σ) as [r σ'] eqn:Hrun.
  revert Hrun. unfold ExceptionGroup.__init__.
  mstep ltac:(apply set_args_run; lookup).
  mstep ltac:(eapply py_list_run; lookup).
  name_fresh l1 Hl1. apply heap_upd_None in Hl1 as [Hl1s Hl1].
  mstep ltac:(eapply setattr_run; lookup).
  obj_simpl.
  unfold ExceptionGroup.exceptions_of at 1.
  mstep ltac:(eapply list_attr_run; [lookup| apply lookup_insert_eq | lookup]).
  mstep ltac:(apply check_all_ok; eapply conforms_extends; [|exact Hxs]; ext).
  mstep ltac:(eapply setattr_run; lookup).
  rewrite (py_list_scalar v Hv). unfold bind at 1, raise at 1.
  intros [= <- <-]. eexists. split_and!; [done| |done..].
  intros k Hk [x Hx]. by repeat (rewrite heap_upd_ne by congruence).
Qed.

(** X9.  [None], a [bool] and an [int] cannot be iterated: passed as
    exceptions, the call of the class fails in [list(exceptions)] with the
    [TypeError] of [list], whatever the sources are; passed as sources
    with children that all conform, it fails in [list(sources)], after the
    loop over the children.  No instance is returned and every object that
    existed before is unchanged. *)
Theorem construct_needs_iterables σ c msg v :
  as_int v ≠ None ∨ v = VNone →
  (∀ sources, ∃ σ',
     ExceptionGroup.new c msg v sources σ
     = (Raised (TypeError_not_iterable v), σ')
     ∧ frame σ σ')
  ∧ (∀ le xs,
       heap σ !! le = Some (OList xs) →
       Forall (λ x, conforms σ x = true) xs →
       ∃ σ',
         ExceptionGroup.new c msg (VRef le) v σ
         = (Raised (TypeError_not_iterable v), σ')
         ∧ frame σ σ').
Proof.
  intros Hv. split.
  - intros sources.
    destruct (ExceptionGroup.new c msg v sources σ) as [r σ'] eqn:Hrun.
    revert Hrun. unfold ExceptionGroup.new.
    mstep ltac:(reflexivity).
    name_fresh g Hg.
    set (o0 := ExcObj c _ None None None false ∅).
    destruct (init_run_exceptions_scalar (upd g (OExc o0) σ) g o0 msg v
                sources) as (σ1 & Hinit & Hframe & Hinfo);
      [lookup|done|].
    mraise ltac:(exact Hinit).
    intros [= <- <-]. eexists. split; [done|]. split; [|exact Hinfo].
    intros k [x Hx]. rewrite Hframe.
    + apply heap_upd_ne. congruence.
    + congruence.
  - intros le xs Hle Hxs.
    destruct (ExceptionGroup.new c msg (VRef le) v σ) as [r σ'] eqn:Hrun.
    revert Hrun. unfold ExceptionGroup.new.
    mstep ltac:(reflexivity).
    name_fresh g Hg.
    set (o0 := ExcObj c _ None None None false ∅).
    destruct (init_run_sources_scalar (upd g (OExc o0) σ) g o0 msg le xs v)
      as (σ1 & Hinit & Hframe & Hinfo).
    { lookup. }
    { lookup. }
    { eapply conforms_extends; [|done]. ext. }
    { done. }
    mraise ltac:(exact Hinit).
    intros [= <- <-]. eexists. split; [done|]. split; [|exact Hinfo].
    intros k [x Hx]. rewrite Hframe.
    + apply heap_upd_ne. congruence.
    + congruence.
    + rewrite heap_upd_ne by congruence. by exists x.
Qed.

Lemma construct_needs_iterables_witness :
  (∃ σ', ExceptionGroup.new ExceptionGroupClass (VStr "E") VNone (VRef 3)
           test_store
         = (Raised (TypeError_not_iterable VNone), σ'))
  ∧ (∃ σ', ExceptionGroup.new ExceptionGroupClass (VStr "E") (VRef 4)
             (VInt 2) test_store
           = (Raised (TypeError_not_iterable (VInt 2)), σ')).
Proof.
  split.
  - destruct (construct_needs_iterables test_store ExceptionGroupClass
                (VStr "E") VNone) as [Hfirst _]; [by right|].
    destruct (Hfirst (VRef 3)) as (σ' & Hrun & _). by exists σ'.
  - destruct (construct_needs_iterables test_store ExceptionGroupClass
                (VStr "E") (VInt 2)) as [_ Hsecond]; [by left|].
    destruct (Hsecond 4%positive [VRef 1; VRef 2] eq_refl)
      as (σ' & Hrun & _); [by repeat constructor|].
    by exists σ'.
Defined.

(** ** The argument [from_exception] of [maybe_reraise] *)

(** What a group with a child raises, and what is left to run. *)
Lemma maybe_reraise_select σ g msg x xs' ys unwrap :
  group_at σ g msg (x :: xs') ys →
  conforms σ (VRef g) = true →
  ∃ e oe,
    heap σ !! e = Some (OExc oe)
    ∧ conforms σ (VRef e) = true
    ∧ (VRef e = VRef g ∨ x :: xs' = [VRef e] ∧ unwrap = true)
    ∧ ∀ from_exception,
        ExceptionGroup.maybe_reraise g from_exception unwrap σ
        = (let* is_default := eq_M from_exception (VInt 0) in
           let* from_exception :=
             (if is_default then sys_exc_info_1 else ret from_exception) in
           raise_from (VRef e) from_exception) σ.
Proof.
  intros Hgrp Hcg.
  pose proof Hgrp as (_ & _ & _ & Hxs & _).
  pose proof (exceptions_of_run _ _ _ _ _ Hgrp) as Hread.
  destruct (group_at_exc _ _ _ _ _ Hgrp) as [o Hg].
  assert (∃ e oe, heap σ !! e = Some (OExc oe)
                  ∧ conforms σ (VRef e) = true
                  ∧ (VRef e = VRef g ∨ x :: xs' = [VRef e] ∧ unwrap = true)
                  ∧ (if unwrap then
                       let* xs := ExceptionGroup.exceptions_of g in
                       if (length xs =? 1)%nat then
                         let* xs := ExceptionGroup.exceptions_of g in
                         match xs with
                         | x :: _ => ret x
                         | [] => raise IndexError_list_index
                         end
                       else ret (VRef g)
                     else ret (VRef g)) σ = (Normal (VRef e), σ))
    as (e & oe & He & Hce & Hwhich & Hsel).
  { destruct unwrap; [|by exists g, o; split_and!; auto].
    destruct xs' as [|x2 xs'].
    - apply Forall_cons in Hxs as [Hx _].
      destruct (conforms_ref _ _ Hx) as (child & oc & -> & Hchild).
      exists child, oc. split_and!; [done..|by right|].
      rewrite (bind_normal _ _ _ _ _ Hread). simpl.
      by rewrite (bind_normal _ _ _ _ _ Hread).
    - exists g, o. split_and!; [done..|by left|].
      by rewrite (bind_normal _ _ _ _ _ Hread). }
  exists e, oe. split_and!; [done..|].
  intros from_exception. unfold ExceptionGroup.maybe_reraise.
  rewrite (bind_normal _ _ _ _ _ Hread).
  change (length (x :: xs') =? 0)%nat with false. cbv iota.
  by rewrite (bind_normal _ (λ exc, bind _ _) σ (VRef e) σ Hsel).
Qed.

Lemma eq_zero_run σ v :
  as_int v = Some 0%Z → eq_M v (VInt 0) σ = (Normal true, σ).
Proof.
  destruct v as [|[]|n|s|l]; try done. by intros [= ->].
Qed.

Lemma eq_nonzero_run σ v :
  as_int v ≠ Some 0%Z → eq_M v (VInt 0) σ = (Normal false, σ).
Proof.
  intros Hv. destruct v as [|[]|n|s|l]; try done.
  unfold eq_M, py_eq. simpl.
  rewrite bool_decide_eq_false_2; [done|]. intros ->. by apply Hv.
Qed.

(** X10.  [from_exception] is compared with [==], so [False], which is
    equal to [0], also selects the default: the call behaves as with [0],
    and on a group with a child what is raised gets the exception being
    handled as its [__cause__]. *)
Theorem zero_like_is_default σ g msg xs ys v unwrap :
  group_at σ g msg xs ys →
  xs ≠ [] →
  conforms σ (VRef g) = true →
  handling_ok σ →
  as_int v = Some 0%Z →
  ExceptionGroup.maybe_reraise g v unwrap σ
  = ExceptionGroup.maybe_reraise g (VInt 0) unwrap σ
  ∧ ∃ e σ',
      ExceptionGroup.maybe_reraise g v unwrap σ
      = (Raised (Propagating e), σ')
      ∧ (VRef e = VRef g ∨ xs = [VRef e] ∧ unwrap = true)
      ∧ cause_of σ' e = Some (exc_info σ).
Proof.
  intros Hgrp Hne Hcg Hok Hv.
  destruct xs as [|x xs']; [done|].
  destruct (maybe_reraise_select σ g msg x xs' ys unwrap Hgrp Hcg)
    as (e & oe & He & Hce & Hwhich & Hsel).
  destruct (@raise_from_run unit σ e oe (exc_info σ) He Hce)
    as (σ' & Hraise & Hc & _); [by intros c; apply Hok|].
  assert (∀ w, as_int w = Some 0%Z →
               ExceptionGroup.maybe_reraise g w unwrap σ
               = (Raised (Propagating e), σ')) as Hrun.
  { intros w Hw. rewrite Hsel.
    rewrite (bind_normal _ _ _ _ _ (eq_zero_run σ w Hw)).
    by rewrite (bind_normal sys_exc_info_1 _ σ
                  (cause_value (exc_info σ)) σ eq_refl). }
  split; [by rewrite !Hrun|].
  exists e, σ'. by rewrite Hrun.
Qed.

Lemma zero_like_is_default_witness :
  ∃ e σ',
    ExceptionGroup.maybe_reraise 7 (VBool false) true group_store
    = (Raised (Propagating e), σ')
    ∧ cause_of σ' e = Some (Some 2%positive).
Proof.
  destruct (zero_like_is_default group_store 7 _ _ _ (VBool false) true
              group_store_group) as (_ & e & σ' & Hrun & _ & Hcause);
    [done|reflexivity|exact (handling_ok_2 group_store eq_refl eq_refl)
    |reflexivity|].
  exists e, σ'. split; [exact Hrun|exact Hcause].
Defined.

(** X11.  A [from_exception] that is a string, a number other than [0],
    [True] or a list (of the values of the embedding, which has no
    classes as values: one that is not equal to [0], not [None] and no
    exception instance) is passed on to [raise ... from]: on a group with
    a child the call fails with the [TypeError] that this statement raises
    for a cause that is no exception, "exception causes must derive from
    BaseException", and the store is as before: neither the group nor its
    child was raised. *)
Theorem cause_must_be_exception σ g msg xs ys v unwrap :
  group_at σ g msg xs ys →
  xs ≠ [] →
  conforms σ (VRef g) = true →
  as_int v ≠ Some 0%Z →
  v ≠ VNone →
  conforms σ v = false →
  ExceptionGroup.maybe_reraise g v unwrap σ
  = (Raised TypeError_causes_must_derive, σ).
Proof.
  intros Hgrp Hne Hcg Hv Hnone Hcv.
  destruct xs as [|x xs']; [done|].
  destruct (maybe_reraise_select σ g msg x xs' ys unwrap Hgrp Hcg)
    as (e & oe & He & Hce & Hwhich & Hsel).
  rewrite Hsel.
  rewrite (bind_normal _ _ _ _ _ (eq_nonzero_run σ v Hv)).
  rewrite (bind_normal (ret v) _ σ v σ eq_refl).
  unfold raise_from.
  rewrite (bind_normal read_state _ σ σ σ eq_refl).
  unfold conforms in Hce, Hcv. rewrite Hce.
  destruct v as [|b|n|s|l]; try done. by rewrite Hcv.
Qed.

Lemma cause_must_be_exception_witness :
  ExceptionGroup.maybe_reraise 7 (VStr "cause") false group_store
  = (Raised TypeError_causes_must_derive, group_store)
  ∧ ExceptionGroup.maybe_reraise 7 (VRef 3) true group_store
    = (Raised TypeError_causes_must_derive, group_store).
Proof.
  split.
  - apply (cause_must_be_exception group_store 7 _ _ _ (VStr "cause") false
             group_store_group); done.
  - apply (cause_must_be_exception group_store 7 _ _ _ (VRef 3) true
             group_store_group); done.
Defined.

(** ** What [maybe_reraise] leaves of the group *)

Lemma group_at_slot σ e oe oe' g msg xs ys :
  heap σ !! e = Some (OExc oe) →
  o_class oe' = o_class oe →
  o_dict oe' = o_dict oe →
  group_at σ g msg xs ys →
  group_at (upd e (OExc oe') σ) g msg xs ys.
Proof.
  intros He Hc Hd Hgrp.
  pose proof Hgrp as (_ & _ & _ & Hxs & Hlen).
  apply group_at_inv in Hgrp as (o & le & ls & Hg & Hm & Hex & Hs & Hle & Hls).
  assert (e ≠ le) by congruence. assert (e ≠ ls) by congruence.
  assert (Forall (λ x, conforms (upd e (OExc oe') σ) x = true) xs) as Hxs'.
  { eapply conforms_extends; [|done]. by eapply extends_store. }
  destruct (decide (e = g)) as [->|Hne].
  - assert (oe = o) as -> by congruence.
    apply (group_at_intro _ g oe' msg le ls); try done;
      [lookup|by rewrite Hd..|lookup|lookup].
  - apply (group_at_intro _ g o msg le ls); try done; lookup.
Qed.

Lemma chain_context_effect σ e oe :
  heap σ !! e = Some (OExc oe) →
  ∃ oe',
    chain_context e σ = (Normal tt, upd e (OExc oe') σ)
    ∧ o_class oe' = o_class oe
    ∧ o_dict oe' = o_dict oe.
Proof.
  intros He. unfold chain_context.
  rewrite (bind_normal read_state _ σ σ σ eq_refl).
  assert (σ = upd e (OExc oe) σ) as Hsame.
  { apply state_eq; [|done..]. intros k. unfold upd; cbn [heap].
    rewrite lookup_insert. case_decide; congruence. }
  destruct (exc_info σ) as [h|].
  - case_decide.
    + exists oe. split; [|done]. unfold ret. by rewrite <- Hsame.
    + eexists. split; [by apply set_context_run|done].
  - exists oe. split; [|done]. unfold ret. by rewrite <- Hsame.
Qed.

(** The raise of an object writes its cause and context, nothing else. *)
Lemma raise_core_effect {A} σ e c :
  ((let* _ := set_cause e c in
    let* _ := chain_context e in
    @raise A (Propagating e)) σ).2 = σ
  ∨ ∃ oe oe',
      heap σ !! e = Some (OExc oe)
      ∧ ((let* _ := set_cause e c in
          let* _ := chain_context e in
          @raise A (Propagating e)) σ).2 = upd e (OExc oe') σ
      ∧ o_class oe' = o_class oe
      ∧ o_dict oe' = o_dict oe.
Proof.
  destruct (heap σ !! e) as [[items|oe]|] eqn:He.
  - left. unfold set_cause, load_exc, bind. by rewrite He.
  - right. exists oe.
    rewrite (bind_normal _ _ _ _ _ (set_cause_run _ _ _ c He)).
    set (oe1 := ExcObj _ _ _ _ _ _ _).
    destruct (chain_context_effect (upd e (OExc oe1) σ) e oe1)
      as (oe' & Hctx & Hc & Hd); [lookup|].
    rewrite (bind_normal _ _ _ _ _ Hctx).
    exists oe'. split_and!; [done| |by rewrite Hc|by rewrite Hd].
    unfold raise. cbn [snd]. state_eq.
  - left. unfold set_cause, load_exc, bind. by rewrite He.
Qed.

Lemma raise_from_effect {A} σ exc cause :
  (@raise_from A exc cause σ).2 = σ
  ∨ ∃ e oe oe',
      exc = VRef e
      ∧ heap σ !! e = Some (OExc oe)
      ∧ (@raise_from A exc cause σ).2 = upd e (OExc oe') σ
      ∧ o_class oe' = o_class oe
      ∧ o_dict oe' = o_dict oe.
Proof.
  unfold raise_from.
  rewrite (bind_normal read_state _ σ σ σ eq_refl).
  destruct exc as [| | | |e]; try by left.
  destruct (isinstance σ (VRef e) _); [|by left].
  destruct cause as [| | | |c]; try by left.
  - destruct (@raise_core_effect A σ e None) as [Hs|(oe & oe' & H)];
      [by left|right]. by exists e, oe, oe'.
  - destruct (isinstance σ (VRef c) _); [|by left].
    destruct (@raise_core_effect A σ e (Some c)) as [Hs|(oe & oe' & H)];
      [by left|right]. by exists e, oe, oe'.
Qed.

Lemma maybe_reraise_effect σ g msg xs ys from_exception unwrap :
  group_at σ g msg xs ys →
  conforms σ (VRef g) = true →
  (ExceptionGroup.maybe_reraise g from_exception unwrap σ).2 = σ
  ∨ ∃ e oe oe',
      heap σ !! e = Some (OExc oe)
      ∧ (ExceptionGroup.maybe_reraise g from_exception unwrap σ).2
        = upd e (OExc oe') σ
      ∧ o_class oe' = o_class oe
      ∧ o_dict oe' = o_dict oe.
Proof.
  intros Hgrp Hcg.
  destruct xs as [|x xs'].
  - left. unfold ExceptionGroup.maybe_reraise.
    by rewrite (bind_normal _ _ _ _ _ (exceptions_of_run _ _ _ _ _ Hgrp)).
  - destruct (maybe_reraise_select σ g msg x xs' ys unwrap Hgrp Hcg)
      as (e & oe & He & Hce & Hwhich & Hsel).
    rewrite Hsel.
    assert (∀ w,
      (@raise_from unit (VRef e) w σ).2 = σ
      ∨ ∃ e1 oe1 oe',
          heap σ !! e1 = Some (OExc oe1)
          ∧ (@raise_from unit (VRef e) w σ).2 = upd e1 (OExc oe') σ
          ∧ o_class oe' = o_class oe1
          ∧ o_dict oe' = o_dict oe1) as Hw.
    { intros w.
      destruct (@raise_from_effect unit σ (VRef e) w)
        as [Hs|(e' & oe1 & oe' & _ & H)]; [by left|right].
      by exists e', oe1, oe'. }
    destruct (py_eq σ from_exception (VInt 0)) as [[]|] eqn:Heq.
    + rewrite (bind_normal (eq_M from_exception (VInt 0)) _ σ true σ)
        by (unfold eq_M; by rewrite Heq).
      rewrite (bind_normal sys_exc_info_1 _ σ _ σ eq_refl). apply Hw.
    + rewrite (bind_normal (eq_M from_exception (VInt 0)) _ σ false σ)
        by (unfold eq_M; by rewrite Heq).
      rewrite (bind_normal (ret from_exception) _ σ _ σ eq_refl). apply Hw.
    + left. unfold bind at 1, eq_M. by rewrite Heq.
Qed.

(** X12.  However [maybe_reraise] ends (it returns, it raises the group
    or its only child, or the [raise] statement rejects the cause), the
    group has the message, the children and the sources that it had, the
    children are still exceptions, and the exception being handled is the
    same: raising does not consume the group. *)
Theorem reraise_keeps_group σ g msg xs ys from_exception unwrap :
  group_at σ g msg xs ys →
  conforms σ (VRef g) = true →
  group_at (ExceptionGroup.maybe_reraise g from_exception unwrap σ).2
    g msg xs ys
  ∧ conforms (ExceptionGroup.maybe_reraise g from_exception unwrap σ).2
      (VRef g) = true
  ∧ exc_info (ExceptionGroup.maybe_reraise g from_exception unwrap σ).2
    = exc_info σ.
Proof.
  intros Hgrp Hcg.
  destruct (maybe_reraise_effect σ g msg xs ys from_exception unwrap
              Hgrp Hcg) as [->|(e & oe & oe' & He & -> & Hc & Hd)]; [done|].
  split_and!; [by eapply group_at_slot| |done].
  eapply isinstance_extends; [|exact Hcg]. by eapply extends_store.
Qed.

Lemma reraise_keeps_group_witness :
  group_at (ExceptionGroup.maybe_reraise 7 VNone false group_store).2
    7 (VStr "many error.") [VRef 1; VRef 2] [VStr "A"; VStr "B"].
Proof.
  apply (reraise_keeps_group group_store 7 _ _ _ VNone false
           group_store_group eq_refl).
Defined.

(** ** Searching by type *)

Lemma mro_trans a d : d ∈ mro a → mro d ⊆ mro a.
Proof.
  induction a as [| | | | | | | | | | | | | | | | | | |n b IH]; intros Hd;
    simpl in Hd;
    repeat (apply elem_of_cons in Hd as [->|Hd]);
    try (by apply elem_of_nil in Hd); simpl; intros k Hk;
    first [ exact Hk
          | by apply elem_of_cons; right; apply (IH Hd)
          | repeat (apply elem_of_cons in Hk as [->|Hk]);
            try (by apply elem_of_nil in Hk); by repeat constructor ].
Qed.

Lemma issubclass_trans a d c :
  issubclass a d = true → issubclass d c = true → issubclass a c = true.
Proof.
  unfold issubclass. rewrite !bool_decide_eq_true.
  intros Hd Hc. by apply (mro_trans a d).
Qed.

Lemma isinstance_subclass σ x d c :
  issubclass d c = true →
  isinstance σ x (KType d) = true → isinstance σ x (KType c) = true.
Proof.
  unfold isinstance. intros Hdc. destruct (type_of σ x) as [a|]; [|done].
  simpl. intros Had. by apply (issubclass_trans a d c).
Qed.

Lemma isinstance_tuple σ x ks :
  isinstance σ x (KTuple ks) = true
  ↔ ∃ k, k ∈ ks ∧ isinstance σ x k = true.
Proof.
  unfold isinstance. destruct (type_of σ x) as [a|]; simpl.
  - rewrite existsb_exists. by setoid_rewrite list_elem_of_In.
  - split; [done|]. by intros (k & _ & ?).
Qed.

Lemma filter_sublist_impl {A} (P Q : A → bool) (l : list A) :
  (∀ x, P x = true → Q x = true) →
  List.filter P l `sublist_of` List.filter Q l.
Proof.
  intros HPQ. induction l as [|x l IH]; simpl; [constructor|].
  destruct (P x) eqn:HP.
  - rewrite (HPQ x HP). by constructor.
  - destruct (Q x); [by constructor|done].
Qed.

Lemma elem_of_found σ p xs x :
  Bare x ∈ map Bare (List.filter (satisfies σ p) xs)
  ↔ x ∈ xs ∧ satisfies σ p x = true.
Proof.
  rewrite list_elem_of_fmap. split.
  - intros (y & [= <-] & Hy).
    apply list_elem_of_In, filter_In in Hy as [Hy Hp].
    by apply list_elem_of_In in Hy.
  - intros [Hx Hp]. exists x. split; [done|].
    apply list_elem_of_In, filter_In. by apply list_elem_of_In in Hx.
Qed.

(** X13.  A search by type follows the class hierarchy, like an [except]
    clause: what is found for a class is found, in the same order, for
    each of its base classes, and a tuple finds exactly what one of its
    members finds. *)
Theorem findall_by_type σ g msg xs ys :
  group_at σ g msg xs ys →
  (∀ c d, issubclass d c = true →
     ∃ sub sup,
       ExceptionGroup.findall g (PKind (KType d)) false σ = (Normal sub, σ)
       ∧ ExceptionGroup.findall g (PKind (KType c)) false σ
         = (Normal sup, σ)
       ∧ sub `sublist_of` sup)
  ∧ (∀ ks, ∃ found,
       ExceptionGroup.findall g (PKind (KTuple ks)) false σ
       = (Normal found, σ)
       ∧ ∀ x, Bare x ∈ found ↔
              ∃ k found_k,
                k ∈ ks
                ∧ ExceptionGroup.findall g (PKind k) false σ
                  = (Normal found_k, σ)
                ∧ Bare x ∈ found_k).
Proof.
  intros Hgrp. split.
  - intros c d Hdc. eexists _, _.
    split; [apply (findall_run σ g msg xs ys _ Hgrp)|].
    split; [apply (findall_run σ g msg xs ys _ Hgrp)|].
    apply sublist_map, filter_sublist_impl. intros x.
    by apply isinstance_subclass.
  - intros ks. eexists.
    split; [apply (findall_run σ g msg xs ys _ Hgrp)|].
    intros x. rewrite elem_of_found.
    change (satisfies σ (PKind (KTuple ks)) x)
      with (isinstance σ x (KTuple ks)).
    rewrite isinstance_tuple.
    split.
    + intros (Hx & k & Hk & Hi). exists k. eexists.
      split; [done|].
      split; [exact (proj1 (findall_run σ g msg xs ys (PKind k) Hgrp))|].
      by apply elem_of_found.
    + intros (k & found_k & Hk & Hrun & Hx).
      destruct (findall_run σ g msg xs ys (PKind k) Hgrp) as [Hrun' _].
      rewrite Hrun' in Hrun. injection Hrun as <-.
      apply elem_of_found in Hx as [Hx Hi]. split; [done|]. by exists k.
Qed.

Lemma findall_by_type_witness :
  ∃ sub sup,
    ExceptionGroup.findall 7 (PKind (KType ValueError)) false group_store
    = (Normal sub, group_store)
    ∧ ExceptionGroup.findall 7 (PKind (KType Exception)) false group_store
      = (Normal sup, group_store)
    ∧ sub `sublist_of` sup.
Proof.
  assert (issubclass ValueError Exception = true) as Hsub
    by (vm_compute; reflexivity).
  exact (proj1 (findall_by_type group_store 7 _ _ _ group_store_group)
           Exception ValueError Hsub).
Defined.

(** ** [str] and [repr] of a group *)

Lemma string_app_assoc (s t u : string) :
  (s +:+ t) +:+ u = s +:+ t +:+ u.
Proof.
  induction s as [|a s IH]; [done|].
  change (String a ((s +:+ t) +:+ u) = String a (s +:+ t +:+ u)).
  by rewrite IH.
Qed.

Lemma string_app_nil_r (s : string) : s +:+ "" = s.
Proof.
  induction s as [|a s IH]; [done|].
  change (String a (s +:+ "") = String a s). by rewrite IH.
Qed.

Lemma is_substring_refl s : is_substring s s.
Proof.
  exists "", "". change (s = s +:+ ""). by rewrite string_app_nil_r.
Qed.

Lemma is_substring_trans s t u :
  is_substring s t → is_substring t u → is_substring s u.
Proof.
  intros (p1 & q1 & ->) (p2 & q2 & ->).
  exists (p2 +:+ p1), (q1 +:+ q2). by rewrite !string_app_assoc.
Qed.

Lemma concat_elem (sep x : string) (l : list string) :
  x ∈ l → is_substring x (String.concat sep l).
Proof.
  induction l as [|y l IH]; [by intros ?%elem_of_nil|].
  intros Hx. destruct l as [|z l].
  - apply list_elem_of_singleton in Hx as ->. apply is_substring_refl.
  - change (String.concat sep (y :: z :: l))
      with (y +:+ sep +:+ String.concat sep (z :: l)).
    apply elem_of_cons in Hx as [->|Hx].
    + by exists "", (sep +:+ String.concat sep (z :: l)).
    + destruct (IH Hx) as (pre & post & ->).
      exists (y +:+ sep +:+ pre), post. by rewrite !string_app_assoc.
Qed.

(** X14.  [str(g)] is the [repr] of the children, in their order, joined
    with a comma and a space: it is empty for no child, the [repr] of the
    child for one, and for more the [repr] of the first, the separator
    and the join of the others; so the [repr] of every child occurs in
    it.  [repr(g)] is [str(g)] between ["<ExceptionGroup: "] and [">"],
    so the [repr] of every child occurs in it too.  Neither changes the
    store. *)
Theorem str_joins_reprs (repr : state → value → string) σ g msg xs ys :
  group_at σ g msg xs ys →
  ∃ s,
    ExceptionGroup.__str__ repr g σ = (Normal s, σ)
    ∧ s = String.concat ", " (map (repr σ) xs)
    ∧ ExceptionGroup.__repr__ repr g σ
      = (Normal ("<ExceptionGroup: " +:+ s +:+ ">"), σ)
    ∧ (xs = [] → s = "")
    ∧ (∀ x, xs = [x] → s = repr σ x)
    ∧ (∀ x x' xs', xs = x :: x' :: xs' →
         s = repr σ x +:+ ", "
             +:+ String.concat ", " (map (repr σ) (x' :: xs')))
    ∧ (∀ x, x ∈ xs →
         is_substring (repr σ x) s
         ∧ is_substring (repr σ x) ("<ExceptionGroup: " +:+ s +:+ ">")).
Proof.
  intros Hgrp.
  pose proof (exceptions_of_run _ _ _ _ _ Hgrp) as Hread.
  assert (ExceptionGroup.__str__ repr g σ
          = (Normal (String.concat ", " (map (repr σ) xs)), σ)) as Hstr.
  { unfold ExceptionGroup.__str__.
    rewrite (bind_normal _ _ _ _ _ Hread).
    by rewrite (bind_normal read_state _ σ σ σ eq_refl). }
  exists (String.concat ", " (map (repr σ) xs)).
  split; [exact Hstr|]. split_and!.
  - done.
  - unfold ExceptionGroup.__repr__.
    by rewrite (bind_normal _ _ _ _ _ Hstr).
  - by intros ->.
  - by intros x ->.
  - by intros x x' xs' ->.
  - intros x Hx.
    assert (is_substring (repr σ x)
              (String.concat ", " (map (repr σ) xs))) as Hsub.
    { apply concat_elem. apply list_elem_of_fmap. by exists x. }
    split; [exact Hsub|].
    eapply is_substring_trans; [exact Hsub|].
    by exists "<ExceptionGroup: ", ">".
Qed.

Lemma str_joins_reprs_witness :
  ExceptionGroup.__repr__ test_repr 7 group_store
  = (Normal "<ExceptionGroup: ValueError('A'), RuntimeError('B')>",
     group_store)
  ∧ is_substring "RuntimeError('B')"
      "<ExceptionGroup: ValueError('A'), RuntimeError('B')>".
Proof.
  destruct (str_joins_reprs test_repr group_store 7 _ _ _ group_store_group)
    as (s & Hs & _ & Hr & _ & _ & _ & Hin).
  assert (ExceptionGroup.__str__ test_repr 7 group_store
          = (Normal "ValueError('A'), RuntimeError('B')", group_store))
    as Hc by (vm_compute; reflexivity).
  rewrite Hc in Hs. injection Hs as <-.
  split; [exact Hr|].
  apply (Hin (VRef 2)). apply elem_of_cons. right. apply elem_of_cons.
  by left.
Defined.

(** ** Copying the magic attributes between two exceptions *)

Lemma copy_magic_run_self σ g o :
  heap σ !! g = Some (OExc o) →
  ExceptionGroup._copy_magic_attrs g g σ
  = (Normal tt,
     upd g (OExc (ExcObj (o_class o) (o_args o) (o_traceback o)
                         (o_context o) (o_cause o) true (o_dict o))) σ).
Proof.
  intros Hg. unfold ExceptionGroup._copy_magic_attrs.
  mstep ltac:(apply load_exc_run; lookup).
  mstep ltac:(eapply set_traceback_run; lookup).
  mstep ltac:(apply load_exc_run; lookup).
  mstep ltac:(eapply set_context_run; lookup).
  mstep ltac:(apply load_exc_run; lookup).
  mstep ltac:(eapply set_cause_run; lookup).
  mstep ltac:(apply load_exc_run; lookup).
  erewrite set_suppress_context_run by lookup.
  obj_simpl. f_equal. state_eq.
Qed.

(** X15.  [_copy_magic_attrs] between any two exception objects writes
    the destination only: it gets the traceback, context and cause of the
    source and keeps its class, its [args] and its instance dictionary,
    so a group keeps its message, children and sources.  Its
    [__suppress_context__] is that of the source, also when the source has
    a cause and the flag [False]; but when an object is copied onto
    itself the flag ends up [True], since the assignment of the cause has
    set it before it is read.  A second call changes nothing. *)
Theorem copy_magic_attrs_between σ self dst o d :
  heap σ !! self = Some (OExc o) →
  heap σ !! dst = Some (OExc d) →
  ∃ d' σ',
    ExceptionGroup._copy_magic_attrs self dst σ = (Normal tt, σ')
    ∧ σ' = upd dst (OExc d') σ
    ∧ o_class d' = o_class d ∧ o_args d' = o_args d ∧ o_dict d' = o_dict d
    ∧ o_traceback d' = o_traceback o
    ∧ o_context d' = o_context o
    ∧ o_cause d' = o_cause o
    ∧ o_suppress_context d'
      = (if decide (self = dst) then true else o_suppress_context o)
    ∧ ExceptionGroup._copy_magic_attrs self dst σ' = (Normal tt, σ')
    ∧ (∀ g msg xs ys, group_at σ g msg xs ys → group_at σ' g msg xs ys).
Proof.
  intros Hself Hdst.
  destruct (decide (self = dst)) as [->|Hne].
  - assert (o = d) as -> by congruence.
    eexists _, _. split; [by apply copy_magic_run_self|].
    split_and!; try done.
    + rewrite (copy_magic_run_self _ dst _ (heap_upd_eq _ _ _)).
      obj_simpl. f_equal. state_eq.
    + intros g msg xs ys. by apply group_at_slot with d.
  - eexists _, _. split; [by apply copy_magic_run|].
    split_and!; try done.
    + erewrite copy_magic_run; [|done|by rewrite heap_upd_ne|apply heap_upd_eq].
      obj_simpl. f_equal. state_eq.
    + intros g msg xs ys. by apply group_at_slot with d.
Qed.

Lemma copy_magic_attrs_between_witness :
  (∃ d' σ',
     ExceptionGroup._copy_magic_attrs 7 1 group_store = (Normal tt, σ')
     ∧ heap σ' !! 1%positive = Some (OExc d')
     ∧ o_cause d' = Some 2%positive
     ∧ o_suppress_context d' = false)
  ∧ (∃ d' σ',
       ExceptionGroup._copy_magic_attrs 7 7 group_store = (Normal tt, σ')
       ∧ heap σ' !! 7%positive = Some (OExc d')
       ∧ o_suppress_context d' = true).
Proof.
  split.
  - destruct (copy_magic_attrs_between group_store 7 1 test_group
                (plain_exc ValueError [VStr "A"]) eq_refl eq_refl)
      as (d' & σ' & Hrun & -> & _ & _ & _ & _ & _ & Hc & Hs & _).
    exists d', (upd 1 (OExc d') group_store).
    split_and!; [exact Hrun|apply heap_upd_eq|exact Hc|exact Hs].
  - destruct (copy_magic_attrs_between group_store 7 7 test_group
                test_group eq_refl eq_refl)
      as (d' & σ' & Hrun & -> & _ & _ & _ & _ & _ & _ & Hs & _).
    exists d', (upd 7 (OExc d') group_store).
    split_and!; [exact Hrun|apply heap_upd_eq|exact Hs].
Defined.

(** ** The handling loop *)

Lemma remove_each_run (P : value → bool) rx :
  ∀ ry px py σ g msg,
    length rx = length ry →
    length px = length py →
    Forall (λ x, P x = false) px →
    (∀ y x, y ∈ px ++ rx → x ∈ rx → P y = false → P x = true →
            py_eq σ y x = Some false) →
    group_at σ g msg (px ++ rx) (py ++ ry) →
    ∃ g' σ',
      remove_each g (List.filter P rx) σ = (Normal g', σ')
      ∧ group_at σ' g' msg
          (px ++ List.filter (λ x, negb (P x)) rx)
          (py ++ map snd (List.filter (λ p, negb (P p.1)) (zip rx ry)))
      ∧ frame σ σ'
      ∧ chain_of σ' g' = chain_of σ g
      ∧ traceback_of σ' g' = traceback_of σ g.
Proof.
  induction rx as [|x rx IH];
    intros [|y ry] px py σ g msg Hr Hp Hpx Hsep Hgrp; simplify_eq/=.
  - exists g, σ. split_and!; [done|done|apply frame_refl|done|done].
  - destruct (P x) eqn:HPx; simpl.
    + destruct (group_at_exc _ _ _ _ _ Hgrp) as [o Hg].
      pose proof Hgrp as (_ & _ & _ & Hxs & _).
      assert (index_from σ (px ++ x :: rx) x 0 = Normal (length px))
        as Hidx.
      { apply (index_from_middle σ px x rx 0).
        apply Forall_forall. intros z Hz.
        rewrite Forall_forall in Hpx. specialize (Hpx z Hz).
        unfold item_matches. rewrite decide_False by congruence.
        apply Hsep; [|by left|done..]. apply elem_of_app. by left. }
      destruct (remove_spec σ g o msg _ _ x (length px) Hg Hgrp Hidx)
        as (g1 & σ1 & Hrun & Htk & Hgrp1 & Hframe1).
      rewrite delete_middle in Hgrp1.
      assert (delete (length px) (py ++ y :: ry) = py ++ ry) as Hdel
        by (rewrite Hp; apply delete_middle).
      rewrite Hdel in Hgrp1.
      destruct (IH ry px py σ1 g1 msg)
        as (g' & σ' & Hrun' & Hgrp' & Hframe' & Hchain' & Htb');
        [done..| |done|].
      { intros z w Hz Hw Pz Pw. rewrite Forall_forall in Hxs.
        rewrite (py_eq_frame σ σ1 z w Hframe1).
        - apply Hsep; [|by right|done..].
          apply elem_of_app in Hz as [Hz|Hz]; apply elem_of_app;
            [by left|by right; right].
        - apply conforms_denotes, Hxs.
          apply elem_of_app in Hz as [Hz|Hz]; apply elem_of_app;
            [by left|by right; right].
        - apply conforms_denotes, Hxs. apply elem_of_app. by right; right. }
      destruct (taken_from_chain _ _ _ _ _ _ _ _ Hg Htk) as [Hc1 Ht1].
      exists g', σ'. split_and!.
      * by rewrite (bind_normal _ _ _ _ _ Hrun).
      * done.
      * by apply (frame_trans σ σ1 σ').
      * by rewrite Hchain'.
      * by rewrite Htb'.
    + destruct (IH ry (px ++ [x]) (py ++ [y]) σ g msg)
        as (g' & σ' & Hrun' & Hgrp' & Hframe' & Hchain' & Htb').
      * done.
      * rewrite !length_app. simpl. lia.
      * apply Forall_app. split; [done|]. by constructor.
      * intros z w Hz Hw Pz Pw. apply Hsep; [|by right|done..].
        by rewrite <- app_assoc in Hz.
      * by rewrite <- !app_assoc.
      * exists g', σ'. rewrite <- !app_assoc in Hgrp'. by split_and!.
Qed.

(** X16.  The loop of the class docstring, [for exc in eg.findall(T):
    eg = eg.remove(exc)], when no child that is not an instance of [T] is
    equal to one that is (as for classes that compare by identity; a
    child of another class that is equal to one of [T] would be taken out
    in its place): the loop ends on a group, with the message and the
    causal chain of the original, whose pairs of child and source are
    those of the original whose child is not an instance of [T], in their
    order: a second search for [T] finds nothing in it, and when every
    child was an instance of [T] the [maybe_reraise] that follows
    returns.  The original group is as it was. *)
Theorem handle_all_leaves_rest σ g msg xs ys k :
  group_at σ g msg xs ys →
  (∀ y x, y ∈ xs → x ∈ xs →
          isinstance σ y k = false → isinstance σ x k = true →
          py_eq σ y x = Some false) →
  ∃ g' σ' rest,
    handle_all g k σ = (Normal g', σ')
    ∧ rest = List.filter (λ p, negb (isinstance σ p.1 k)) (zip xs ys)
    ∧ group_at σ' g' msg (map fst rest) (map snd rest)
    ∧ ExceptionGroup.__iter__ g' σ' = (Normal rest, σ')
    ∧ ExceptionGroup.findall g' (PKind k) false σ' = (Normal [], σ')
    ∧ (Forall (λ x, isinstance σ x k = true) xs →
       ∀ from_exception unwrap,
         ExceptionGroup.maybe_reraise g' from_exception unwrap σ'
         = (Normal tt, σ'))
    ∧ chain_of σ' g' = chain_of σ g
    ∧ group_at σ' g msg xs ys
    ∧ frame σ σ'.
Proof.
  intros Hgrp Hsep. pose proof Hgrp as (_ & _ & _ & Hxs & Hlen).
  set (P := λ x, isinstance σ x k).
  destruct (remove_each_run P xs ys [] [] σ g msg Hlen eq_refl
              (Forall_nil_2 _))
    as (g' & σ' & Hrun & Hgrp' & Hframe & Hchain & _); [|done|].
  { intros y x Hy Hx Py Px. by apply Hsep. }
  simpl in Hgrp'.
  pose proof (filter_zip_fst (λ x, negb (P x)) xs ys Hlen) as Hfst.
  simpl in Hfst. rewrite <- Hfst in Hgrp'.
  pose proof (frame_extends _ _ Hframe) as Hext.
  assert (Forall (λ x, isinstance σ' x k = false)
            (map fst (List.filter (λ p, negb (P p.1)) (zip xs ys))))
    as Hnone.
  { rewrite Hfst. apply Forall_forall. intros x Hx.
    apply list_elem_of_In, filter_In in Hx as [Hx HP].
    apply list_elem_of_In in Hx.
    rewrite Forall_forall in Hxs.
    rewrite (isinstance_denotes σ σ' x k Hext)
      by (apply conforms_denotes; by apply Hxs).
    by apply negb_true_iff in HP. }
  exists g', σ', (List.filter (λ p, negb (P p.1)) (zip xs ys)).
  split_and!.
  - unfold handle_all.
    rewrite (bind_normal _ _ _ _ _
               (proj1 (findall_run σ g msg xs ys (PKind k) Hgrp))).
    rewrite map_map, map_id. exact Hrun.
  - done.
  - done.
  - rewrite (iter_run _ _ _ _ _ Hgrp'). by rewrite zip_fst_snd.
  - rewrite (proj1 (findall_run _ _ _ _ _ (PKind k) Hgrp')).
    do 2 f_equal. replace (List.filter _ _) with (@nil value); [done|].
    symmetry. by apply filter_nil_Forall.
  - intros Hall from_exception unwrap.
    assert (map fst (List.filter (λ p, negb (P p.1)) (zip xs ys)) = [])
      as Hnil.
    { rewrite Hfst. apply filter_nil_Forall.
      eapply Forall_impl; [exact Hall|]. intros x Hx. unfold P.
      by rewrite Hx. }
    rewrite Hnil in Hgrp'.
    unfold ExceptionGroup.maybe_reraise.
    by rewrite (bind_normal _ _ _ _ _ (exceptions_of_run _ _ _ _ _ Hgrp')).
  - done.
  - eapply group_at_frame; [done..].
  - done.
Qed.

Lemma handle_all_leaves_rest_witness :
  ∃ g' σ',
    handle_all 7 (KType ValueError) group_store = (Normal g', σ')
    ∧ ExceptionGroup.__iter__ g' σ' = (Normal [(VRef 2, VStr "B")], σ').
Proof.
  destruct (handle_all_leaves_rest group_store 7 _ _ _ (KType ValueError)
              group_store_group)
    as (g' & σ' & rest & Hrun & Hrest & _ & Hiter & _).
  { intros y x Hy Hx Py Px. apply (group_store_only_itself x y Hy).
    intros ->. congruence. }
  assert (rest = [(VRef 2, VStr "B")]) as Heq
    by (rewrite Hrest; vm_compute; reflexivity).
  rewrite Heq in Hiter.
  exists g', σ'. split; [exact Hrun|exact Hiter].
Defined.
